(** * pyramid.util: WeakOrderedSet and TopologicalSorter

    A shallow embedding of the two ordering utilities of
    [src/pyramid/util.py] and the properties their description states.
    The helper functions of the module and the route prefix of
    [src/pyramid/config/routes.py] come after them, with the properties
    the code shows.

    Python dictionaries that are only looked up are finite maps ([gmap]),
    Python sets are finite sets ([gset]), Python lists are lists.  A method
    that can raise returns a [result]. *)

From Stdlib Require Import Strings.Byte Strings.Ascii.
From stdpp Require Import gmap strings list fin_maps relations sorting.

(** ** Python runtime pieces shared by both classes *)

Inductive exn_kind :=
  | ValueError   (* list.remove(x): x not in list *)
  | KeyError.    (* d[k], del d[k], set.remove(k): k absent *)

Inductive result (E A : Type) :=
  | Ok (a : A)
  | Raise (e : E).
Arguments Ok {E A} a.
Arguments Raise {E A} e.

(** Sequencing: the first exception raised ends the computation. *)
#[export] Instance result_bind {E} : MBind (result E) := λ A B k r,
  match r with
  | Ok a => k a
  | Raise e => Raise e
  end.

(** [l.remove(x)]: drops the first occurrence of [x]; [None] stands for the
    [ValueError] Python raises when there is none. *)
Fixpoint list_remove_first {A} `{EqDecision A} (x : A) (l : list A) : option (list A) :=
  match l with
  | [] => None
  | y :: l' =>
      if decide (x = y) then Some l'
      else match list_remove_first x l' with
           | Some r => Some (y :: r)
           | None => None
           end
  end.

(** ** WeakOrderedSet *)

Module WeakOrderedSet.

(** An object is represented by its identity, the value of [id(item)]. *)
Definition oid := Z.

(** [weakref.ref(item, lambda x: self._remove_by_id(oid))]: the referent
    and the identity captured by the callback's closure. *)
Record weakref := Weakref { referent : oid; callback_oid : oid }.

Record t := Mk { _items : gmap oid weakref; _order : list oid }.

(** The objects that are still reachable from outside the set. *)
Definition heap := gset oid.

(** Calling a weak reference: the object while it lives, Python's [None]
    afterwards. *)
Definition deref (h : heap) (r : weakref) : option oid :=
  if decide (referent r ∈ h) then Some (referent r) else None.

Definition __init__ : t := {| _items := ∅; _order := [] |}.

Definition add (self : t) (item : oid) : result exn_kind t :=
  let oid := item in
  if decide (is_Some (_items self !! oid)) then
    match list_remove_first oid (_order self) with
    | None => Raise ValueError
    | Some o => Ok {| _items := _items self; _order := o ++ [oid] |}
    end
  else
    let ref := {| referent := item; callback_oid := oid |} in
    Ok {| _items := <[oid := ref]> (_items self);
          _order := _order self ++ [oid] |}.

Definition _remove_by_id (self : t) (oid : oid) : result exn_kind t :=
  if decide (is_Some (_items self !! oid)) then
    match list_remove_first oid (_order self) with
    | None => Raise ValueError
    | Some o => Ok {| _items := delete oid (_items self); _order := o |}
    end
  else Ok self.

Definition remove (self : t) (item : oid) : result exn_kind t :=
  _remove_by_id self item.

Definition empty (self : t) : t := {| _items := ∅; _order := [] |}.

Definition __len__ (self : t) : nat := length (_order self).

Definition __contains__ (self : t) (item : oid) : bool :=
  bool_decide (is_Some (_items self !! item)).

(** The generator of [__iter__], run to its end: one call of a weak
    reference per entry of the order list. *)
Fixpoint iter_from (items : gmap oid weakref) (h : heap) (order : list oid)
  : result exn_kind (list (option oid)) :=
  match order with
  | [] => Ok []
  | oid :: rest =>
      match items !! oid with
      | None => Raise KeyError
      | Some r => ys ← iter_from items h rest ; Ok (deref h r :: ys)
      end
  end.

Definition __iter__ (self : t) (h : heap) : result exn_kind (list (option oid)) :=
  iter_from (_items self) h (_order self).

(** The [last] property; [Ok None] is Python's [None]. *)
Definition last (self : t) (h : heap) : result exn_kind (option oid) :=
  match List.last (Some <$> _order self) None with
  | None => Ok None
  | Some oid =>
      match _items self !! oid with
      | None => Raise KeyError
      | Some r => Ok (deref h r)
      end
  end.

(** *** The runtime's side: an object loses its last owner

    CPython clears the weak references to the object and calls the
    callback of each weak reference object that is itself still alive;
    the only place holding them is [_items]. *)
Record world := World { live : heap; wset : t }.

Definition callbacks_for (items : gmap oid weakref) (o : oid) : list oid :=
  callback_oid <$> filter (λ r, referent r = o) (snd <$> map_to_list items).

Fixpoint run_callbacks (self : t) (cbs : list oid) : result exn_kind t :=
  match cbs with
  | [] => Ok self
  | c :: cbs' => s ← _remove_by_id self c ; run_callbacks s cbs'
  end.

Definition release (w : world) (o : oid) : result exn_kind world :=
  s ← run_callbacks (wset w) (callbacks_for (_items (wset w)) o) ;
  Ok {| live := live w ∖ {[o]}; wset := s |}.

(** *** Invariants *)

(** The order list holds each identity at most once, and the identities
    in it are exactly the keys of the identity map. *)
Definition inv (s : t) : Prop :=
  NoDup (_order s) ∧ list_to_set (_order s) = dom (_items s).

#[export] Instance inv_dec s : Decision (inv s).
Proof. unfold inv. apply _. Defined.

(** Every entry was made by [add]: it refers to the object it is filed
    under, and that object is alive. *)
Definition tracked_live (w : world) : Prop :=
  map_Forall (λ k r, referent r = k ∧ callback_oid r = k ∧ k ∈ live w)
             (_items (wset w)).

#[export] Instance tracked_live_dec w : Decision (tracked_live w).
Proof. unfold tracked_live. apply _. Defined.

End WeakOrderedSet.

(** ** TopologicalSorter *)

Module TopologicalSorter.

(** Names are the two sentinels [FIRST] and [LAST] or a string. *)
Inductive node :=
  | FIRST
  | LAST
  | Name (s : string).

#[export] Instance node_eq_dec : EqDecision node.
Proof. solve_decision. Defined.

#[export] Instance node_countable : Countable node.
Proof.
  refine (inj_countable'
    (λ n, match n with
          | FIRST => inl false | LAST => inl true | Name s => inr s
          end)
    (λ x, match x with
          | inl false => FIRST | inl true => LAST | inr s => Name s
          end) _).
  by intros [].
Defined.

(** What [add] accepts as [after] or [before] when it is not [None]: one
    name (a string or a sentinel, for which [is_nonstr_iter] is false) or
    an iterable of names. *)
Inductive names_arg :=
  | One (u : node)
  | Many (us : list node).

(** [if not is_nonstr_iter(after): after = (after,)] *)
Definition as_iterable (a : names_arg) : list node :=
  match a with
  | One u => [u]
  | Many us => us
  end.

Inductive side := Before | After.

Inductive exn :=
  | PyError (e : exn_kind)
    (** ['Unsatisfied before dependencies: ...'] or ['Unsatisfied after
        dependencies: ...']; the message joins the sorted names of the
        set carried here. *)
  | ConfigurationError (which : side) (unsatisfied : gset node)
  | CyclicDependencyError (cycledeps : gmap node (list node)).

(** One entry of the [graph] dictionary of [sorted]: the list
    [[arcs, child1, child2, ...]]. *)
Abbreviation entry := (Z * list node)%type.

(** The local variables of [sorted] while the graph is built. *)
Record build := Build {
  roots : list node;
  graph : gmap node entry;
  has_before : gset node;
  has_after : gset node }.

Definition add_node (b : build) (n : node) : build :=
  match graph b !! n with
  | Some _ => b
  | None =>
      {| roots := roots b ++ [n];
         graph := <[n := (0%Z, [])]> (graph b);
         has_before := has_before b;
         has_after := has_after b |}
  end.

Definition add_arc (b : build) (fromnode tonode : node) : result exn build :=
  match graph b !! fromnode with
  | None => Raise (PyError KeyError)
  | Some (n, children) =>
      let g := <[fromnode := (n, children ++ [tonode])]> (graph b) in
      match g !! tonode with
      | None => Raise (PyError KeyError)
      | Some (m, succs) =>
          let g := <[tonode := ((m + 1)%Z, succs)]> g in
          let r := if decide (tonode ∈ roots b)
                   then default (roots b) (list_remove_first tonode (roots b))
                   else roots b in
          Ok {| roots := r; graph := g;
                has_before := has_before b; has_after := has_after b |}
      end
  end.

(** [for a, b in order: if a in names and b in names: ...] *)
Fixpoint add_arcs (names : list node) (order : list (node * node)) (b : build)
  : result exn build :=
  match order with
  | [] => Ok b
  | (x, y) :: rest =>
      if decide (x ∈ names ∧ y ∈ names) then
        b ← add_arc b x y;
        add_arcs names rest
          {| roots := roots b; graph := graph b;
             has_before := {[x]} ∪ has_before b;
             has_after := {[y]} ∪ has_after b |}
      else add_arcs names rest b
  end.

(** [for child in children: ...] in the body of the [while] loop. *)
Fixpoint release_children (children : list node) (roots : list node)
    (graph : gmap node entry) : result exn (list node * gmap node entry) :=
  match children with
  | [] => Ok (roots, graph)
  | child :: rest =>
      match graph !! child with
      | None => Raise (PyError KeyError)
      | Some (arcs, succs) =>
          let arcs := (arcs - 1)%Z in
          let graph := <[child := (arcs, succs)]> graph in
          let roots := if decide (arcs = 0%Z) then child :: roots else roots in
          release_children rest roots graph
      end
  end.

(** [while roots: ...].  Every iteration that does not raise deletes a
    node of the graph, so the number of graph nodes bounds the number of
    iterations; [None] means that [fuel] was too small. *)
Fixpoint traverse (fuel : nat) (roots : list node) (graph : gmap node entry)
    (sorted_names : list node)
  : option (result exn (list node * gmap node entry)) :=
  match roots with
  | [] => Some (Ok (sorted_names, graph))
  | root :: roots =>
      let sorted_names := sorted_names ++ [root] in
      match graph !! root with
      | None => Some (Raise (PyError KeyError))
      | Some (_, children) =>
          match release_children children roots graph with
          | Raise e => Some (Raise e)
          | Ok (roots, graph) =>
              match fuel with
              | O => None
              | S fuel => traverse fuel roots (delete root graph) sorted_names
              end
          end
      end
  end.

(** The [name2val] dictionary keeps its insertion order, which
    [values()] shows. *)
Abbreviation dict V := (list (node * V)) (only parsing).

Section Sorter.
Context {V : Type}.

Fixpoint dict_get (k : node) (d : dict V) : option V :=
  match d with
  | [] => None
  | (k', v) :: d' => if decide (k = k') then Some v else dict_get k d'
  end.

(** [d[k] = v]: a present key keeps its place, a new key goes last. *)
Fixpoint dict_set (k : node) (v : V) (d : dict V) : dict V :=
  match d with
  | [] => [(k, v)]
  | (k', v') :: d' =>
      if decide (k = k') then (k, v) :: d' else (k', v') :: dict_set k v d'
  end.

(** [del d[k]]; [None] stands for [KeyError]. *)
Fixpoint dict_del (k : node) (d : dict V) : option (dict V) :=
  match d with
  | [] => None
  | (k', v') :: d' =>
      if decide (k = k') then Some d'
      else match dict_del k d' with
           | Some r => Some ((k', v') :: r)
           | None => None
           end
  end.

Record t := Mk {
  names : list node;
  req_before : gset node;
  req_after : gset node;
  name2before : gmap node (list node);
  name2after : gmap node (list node);
  name2val : dict V;
  order : list (node * node);
  default_before : option names_arg;
  default_after : option names_arg;
  first : node;
  last : node }.

Definition __init__ (default_before default_after : option names_arg)
    (first last : node) : t :=
  {| names := []; req_before := ∅; req_after := ∅;
     name2before := ∅; name2after := ∅; name2val := []; order := [];
     default_before := default_before; default_after := default_after;
     first := first; last := last |}.

(** [TopologicalSorter()] *)
Definition new : t := __init__ (Some (One LAST)) None FIRST LAST.

Definition values (self : t) : list V := snd <$> name2val self.

(** [for a in arcs: order.remove(a)] *)
Fixpoint remove_arcs (arcs : list (node * node)) (order : list (node * node))
  : result exn_kind (list (node * node)) :=
  match arcs with
  | [] => Ok order
  | a :: arcs' =>
      match list_remove_first a order with
      | None => Raise ValueError
      | Some o => remove_arcs arcs' o
      end
  end.

(** The two blocks of [remove] after the name and its value are gone:
    [after = self.name2after.pop(name, []); if after: ...] and the same for
    [before]. *)
Definition forget_after (self : t) (name : node) : result exn_kind t :=
  let after := default [] (name2after self !! name) in
  let name2after' := delete name (name2after self) in
  '(req_after', order') ←
    (if decide (after = []) then Ok (req_after self, order self)
     else if decide (name ∈ req_after self) then
       o ← remove_arcs ((λ u, (u, name)) <$> after) (order self);
       Ok (req_after self ∖ {[name]}, o)
     else Raise KeyError);
  Ok {| names := names self; req_before := req_before self;
        req_after := req_after'; name2before := name2before self;
        name2after := name2after'; name2val := name2val self;
        order := order';
        default_before := default_before self;
        default_after := default_after self;
        first := first self; last := last self |}.

Definition forget_before (self : t) (name : node) : result exn_kind t :=
  let before := default [] (name2before self !! name) in
  let name2before' := delete name (name2before self) in
  '(req_before', order') ←
    (if decide (before = []) then Ok (req_before self, order self)
     else if decide (name ∈ req_before self) then
       o ← remove_arcs ((λ u, (name, u)) <$> before) (order self);
       Ok (req_before self ∖ {[name]}, o)
     else Raise KeyError);
  Ok {| names := names self; req_before := req_before';
        req_after := req_after self; name2before := name2before';
        name2after := name2after self; name2val := name2val self;
        order := order';
        default_before := default_before self;
        default_after := default_after self;
        first := first self; last := last self |}.

(** A raising call returns the exception only; the partly updated
    sorter it leaves behind is not modelled. *)
Definition remove (self : t) (name : node) : result exn_kind t :=
  match list_remove_first name (names self) with
  | None => Raise ValueError
  | Some names' =>
      match dict_del name (name2val self) with
      | None => Raise KeyError
      | Some name2val' =>
          self ← forget_after
                   {| names := names'; req_before := req_before self;
                      req_after := req_after self;
                      name2before := name2before self;
                      name2after := name2after self;
                      name2val := name2val'; order := order self;
                      default_before := default_before self;
                      default_after := default_after self;
                      first := first self; last := last self |} name;
          forget_before self name
      end
  end.

(** The blocks of [add]: [self.names.append(name); self.name2val[name] =
    val], then [if after is not None: ...] and [if before is not None:
    ...]. *)
Definition enter (self : t) (name : node) (val : V) : t :=
  {| names := names self ++ [name]; req_before := req_before self;
     req_after := req_after self; name2before := name2before self;
     name2after := name2after self;
     name2val := dict_set name val (name2val self); order := order self;
     default_before := default_before self;
     default_after := default_after self;
     first := first self; last := last self |}.

Definition declare_after (self : t) (name : node) (after : option names_arg) : t :=
  match after with
  | None => self
  | Some a =>
      let after := as_iterable a in
      {| names := names self; req_before := req_before self;
         req_after := {[name]} ∪ req_after self;
         name2before := name2before self;
         name2after := <[name := after]> (name2after self);
         name2val := name2val self;
         order := order self ++ ((λ u, (u, name)) <$> after);
         default_before := default_before self;
         default_after := default_after self;
         first := first self; last := last self |}
  end.

Definition declare_before (self : t) (name : node) (before : option names_arg) : t :=
  match before with
  | None => self
  | Some b =>
      let before := as_iterable b in
      {| names := names self; req_before := {[name]} ∪ req_before self;
         req_after := req_after self;
         name2before := <[name := before]> (name2before self);
         name2after := name2after self;
         name2val := name2val self;
         order := order self ++ ((λ o, (name, o)) <$> before);
         default_before := default_before self;
         default_after := default_after self;
         first := first self; last := last self |}
  end.

(** [if after is None and before is None: before = self.default_before;
    after = self.default_after] *)
Definition with_defaults (self : t) (after before : option names_arg)
  : option names_arg * option names_arg :=
  match after, before with
  | None, None => (default_after self, default_before self)
  | _, _ => (after, before)
  end.

Definition add (self : t) (name : node) (val : V)
    (after before : option names_arg) : result exn_kind t :=
  self ← (if decide (name ∈ names self) then remove self name else Ok self);
  let self := enter self name val in
  let '(after, before) := with_defaults self after before in
  let self := declare_after self name after in
  let self := declare_before self name before in
  Ok self.

(** [for name in sorted_names: if name in self.names: ...] *)
Fixpoint collect (self : t) (sorted_names : list node)
  : result exn (list (node * V)) :=
  match sorted_names with
  | [] => Ok []
  | name :: rest =>
      if decide (name ∈ names self) then
        match dict_get name (name2val self) with
        | None => Raise (PyError KeyError)
        | Some v => r ← collect self rest; Ok ((name, v) :: r)
        end
      else collect self rest
  end.

(** The graph of [sorted] once every node and arc is in. *)
Definition all_names (self : t) : list node :=
  first self :: last self :: names self.

Definition all_order (self : t) : list (node * node) :=
  (first self, last self) :: order self.

Definition empty_build : build :=
  {| roots := []; graph := ∅; has_before := ∅; has_after := ∅ |}.

Definition build_graph (self : t) : result exn build :=
  add_arcs (all_names self) (all_order self)
    (foldl add_node empty_build (all_names self)).

Definition sorted (self : t) : option (result exn (list (node * V))) :=
  match build_graph self with
  | Raise e => Some (Raise e)
  | Ok b =>
      if decide (req_before self ⊆ has_before b) then
        if decide (req_after self ⊆ has_after b) then
          match traverse (size (graph b)) (roots b) (graph b) [] with
          | None => None
          | Some (Raise e) => Some (Raise e)
          | Some (Ok (sorted_names, graph)) =>
              if decide (graph = ∅) then Some (collect self sorted_names)
              else Some (Raise (CyclicDependencyError (snd <$> graph)))
          end
        else Some (Raise (ConfigurationError After
                            (req_after self ∖ has_after b)))
      else Some (Raise (ConfigurationError Before
                          (req_before self ∖ has_before b)))
  end.

(** *** Calls on a sorter, in sequence *)

Inductive call :=
  | CallAdd (name : node) (val : V) (after before : option names_arg)
  | CallRemove (name : node)
  | CallSorted
  | CallValues.

Inductive output :=
  | Returned
  | ReturnedSorted (r : option (result exn (list (node * V))))
  | ReturnedValues (vs : list V).

(** [sorted] and [values] assign to no attribute of [self]. *)
Definition do_call (self : t) (c : call) : result exn_kind (t * output) :=
  match c with
  | CallAdd name val after before =>
      s ← add self name val after before; Ok (s, Returned)
  | CallRemove name => s ← remove self name; Ok (s, Returned)
  | CallSorted => Ok (self, ReturnedSorted (sorted self))
  | CallValues => Ok (self, ReturnedValues (values self))
  end.

Fixpoint do_calls (self : t) (cs : list call)
  : result exn_kind (t * list output) :=
  match cs with
  | [] => Ok (self, [])
  | c :: cs' =>
      '(s, o) ← do_call self c;
      '(s', os) ← do_calls s cs';
      Ok (s', o :: os)
  end.

End Sorter.
Arguments t : clear implicits.
Arguments call : clear implicits.
Arguments output : clear implicits.

End TopologicalSorter.

(** ** Vocabulary of the properties *)

Module SorterSpec.
Import TopologicalSorter.

(** The arcs of [order] that [sorted] puts in the graph: both ends are
    nodes. *)
Definition linked (names : list node) (order : list (node * node))
  : list (node * node) :=
  filter (λ ab, ab.1 ∈ names ∧ ab.2 ∈ names) order.

Definition children_of (arcs : list (node * node)) (n : node) : list node :=
  snd <$> filter (λ ab, ab.1 = n) arcs.

Definition parents_of (arcs : list (node * node)) (n : node) : list node :=
  fst <$> filter (λ ab, ab.2 = n) arcs.

(** The number of arcs into [n] whose source is not in [emitted]. *)
Definition pending (arcs : list (node * node)) (emitted : list node) (n : node) : Z :=
  Z.of_nat (length (filter (λ a, a ∉ emitted) (parents_of arcs n))).

(** The [graph] dictionary when the nodes are [N], the arcs put in are [P]
    and the nodes of [out] have been emitted and deleted. *)
Definition graph_is (N : list node) (P : list (node * node)) (out : list node)
    (g : gmap node entry) : Prop :=
  ∀ n, g !! n = if decide (n ∈ N ∧ n ∉ out)
                then Some (pending P out n, children_of P n) else None.

(** [y] comes before [x] in [l]. *)
Definition precedes {A} (y x : A) (l : list A) : Prop :=
  ∃ l1 l2, l = l1 ++ x :: l2 ∧ y ∈ l1.

(** How often [c] occurs in [l]. *)
Definition occurrences (c : node) (l : list node) : Z :=
  Z.of_nat (length (filter (λ y, y = c) l)).

(** What holds of the local variables of [sorted] at each turn of its
    [while] loop, for the nodes [N] and the arcs [A] of the graph. *)
Record walk_inv (N : list node) (A : list (node * node))
    (roots : list node) (g : gmap node entry) (out : list node) : Prop := WalkInv {
  wi_graph : graph_is N A out g;
  wi_out_nodup : NoDup out;
  wi_out_nodes : ∀ n, n ∈ out → n ∈ N;
  wi_roots_nodup : NoDup roots;
  wi_roots : ∀ n, n ∈ roots ↔ n ∈ N ∧ n ∉ out ∧ pending A out n = 0%Z;
  wi_order : ∀ a c, (a, c) ∈ A → c ∈ out → precedes a c out }.

(** The roots that were there when the loop started, [R0], leave the list
    from its front in their order; whatever is in front of them was freed
    later. *)
Definition initial_roots_inv (R0 roots out : list node) : Prop :=
  ∃ k pre, roots = pre ++ drop k R0 ∧
           filter (λ n, n ∈ R0) out = take k R0 ∧
           ∀ n, n ∈ pre → n ∉ R0.

Section Sorter.
Context {V : Type}.
Implicit Types (self s : t V).

Definition arcs (s : t V) : list (node * node) :=
  linked (all_names s) (all_order s).

(** The arcs an entry declares: one per name of its [after], then one per
    name of its [before]. *)
Definition declared_by (s : t V) (n : node) : list (node * node) :=
  ((λ u, (u, n)) <$> default [] (name2after s !! n)) ++
  ((λ o, (n, o)) <$> default [] (name2before s !! n)).

(** What holds of a sorter between calls. *)
Record wf (s : t V) : Prop := Wf {
  wf_names : NoDup (names s);
  wf_vals : fst <$> name2val s = names s;
  wf_after : ∀ n, is_Some (name2after s !! n) → n ∈ names s ∧ n ∈ req_after s;
  wf_before : ∀ n, is_Some (name2before s !! n) → n ∈ names s ∧ n ∈ req_before s;
  wf_order : order s ≡ₚ flat_map (declared_by s) (names s) }.

(** What [add] does once a prior entry of the name is out of the way. *)
Definition inserted (s : t V) (name : node) (val : V)
    (after before : option names_arg) : t V :=
  declare_before (declare_after (enter s name val) name after) name before.

(** An argument of [add] that is not an empty iterable. *)
Definition plain (a : option names_arg) : Prop :=
  match a with
  | Some (Many []) => False
  | _ => True
  end.

#[export] Instance plain_dec a : Decision (plain a).
Proof. destruct a as [[|[|]]|]; simpl; apply _. Defined.


(** Two sorters that hold the same entries and the same arcs, with the arcs
    possibly in another sequence. *)
Record same_entries (s1 s2 : t V) : Prop := SameEntries {
  se_names : names s1 = names s2;
  se_vals : name2val s1 = name2val s2;
  se_after : name2after s1 = name2after s2;
  se_before : name2before s1 = name2before s2;
  se_req_after : req_after s1 = req_after s2;
  se_req_before : req_before s1 = req_before s2;
  se_order : order s1 ≡ₚ order s2;
  se_default_after : default_after s1 = default_after s2;
  se_default_before : default_before s1 = default_before s2;
  se_first : first s1 = first s2;
  se_last : last s1 = last s2 }.

(** [s'] is [s] without the entry [name]. *)
Record stripped (s : t V) (name : node) (s' : t V) : Prop := Stripped {
  st_names : names s' = filter (λ n, n ≠ name) (names s);
  st_vals : name2val s' = filter (λ kv, kv.1 ≠ name) (name2val s);
  st_after : name2after s' = delete name (name2after s);
  st_before : name2before s' = delete name (name2before s);
  st_req_after :
    req_after s' = if decide (default [] (name2after s !! name) = [])
                   then req_after s else req_after s ∖ {[name]};
  st_req_before :
    req_before s' = if decide (default [] (name2before s !! name) = [])
                    then req_before s else req_before s ∖ {[name]};
  st_order : ∃ rest, order s ≡ₚ declared_by s name ++ rest ∧ order s' ≡ₚ rest;
  st_default_after : default_after s' = default_after s;
  st_default_before : default_before s' = default_before s;
  st_first : first s' = first s;
  st_last : last s' = last s }.


(** A call that passes no empty iterable, and one that is not about
    [name]. *)
Definition plain_call (c : call V) : Prop :=
  match c with
  | CallAdd _ _ after before => plain after ∧ plain before
  | _ => True
  end.

Definition other_call (name : node) (c : call V) : Prop :=
  match c with
  | CallAdd n _ _ _ => n ≠ name
  | CallRemove n => n ≠ name
  | _ => True
  end.

#[export] Instance plain_call_dec c : Decision (plain_call c).
Proof. destruct c; simpl; apply _. Defined.

#[export] Instance other_call_dec name c : Decision (other_call name c).
Proof. destruct c; simpl; apply _. Defined.

End Sorter.

(** Closed, decidable facts about small sorters are settled by evaluation. *)
Ltac by_computation := apply (bool_decide_unpack _); vm_compute; exact I.

(** The sorter and the outputs of a run of calls, for [exists]. *)
Ltac state_of r := constr:(match r with Ok (s, _) => s | Raise _ => new end).
Ltac outputs_of r := constr:(match r with Ok (_, os) => os | Raise _ => [] end).

End SorterSpec.

(** ** A sorter used without constraints *)

Module SorterDefaults.
Import TopologicalSorter SorterSpec.

Section Sorter.
Context {V : Type}.

(** A call that names no constraint: [add(name, val)] with a string for
    [name], or any of the other calls. *)
Definition default_call (c : call V) : Prop :=
  match c with
  | CallAdd (Name _) _ None None => True
  | CallAdd _ _ _ _ => False
  | _ => True
  end.

#[export] Instance default_call_dec c : Decision (default_call c).
Proof. destruct c as [[| |?] ? [?|] [?|]| | |]; simpl; apply _. Defined.

(** What holds of [TopologicalSorter()] as long as every call is such a
    call: each entry is before [LAST] and nothing else is declared. *)
Record by_default (s : t V) : Prop := ByDefault {
  bd_wf : wf s;
  bd_first : first s = FIRST;
  bd_last : last s = LAST;
  bd_default_before : default_before s = Some (One LAST);
  bd_default_after : default_after s = None;
  bd_names : ∀ n, n ∈ names s → ∃ k, n = Name k;
  bd_after : name2after s = ∅;
  bd_before : ∀ n, name2before s !! n =
                   if decide (n ∈ names s) then Some [LAST] else None;
  bd_req_before : ∀ n, n ∈ req_before s → n ∈ names s;
  bd_req_after : req_after s = ∅ }.

End Sorter.

End SorterDefaults.

(** ** The helper functions of [pyramid.util] *)

Module Util.

(** *** Text and bytes

    A [str] is the list of its code points, a [bytes] the list of its
    bytes; [Obj] is an object that is neither a [str] nor bytes-like, by
    its identity. *)
Inductive pyval :=
  | Str (s : list N)
  | Bytes (b : list Byte.byte)
  | Obj (o : Z).

#[export] Instance byte_eq_dec : EqDecision Byte.byte := Byte.byte_eq_dec.

#[export] Instance pyval_eq_dec : EqDecision pyval.
Proof. solve_decision. Defined.

(** The codecs the package calls these functions with, and the error
    handlers of [str.encode] and [bytes.decode]. *)
Inductive encoding := EncLatin1 | EncAscii.
Inductive errors := Strict | Ignore | Replace.

Inductive exn :=
  | UnicodeEncodeError
  | UnicodeDecodeError
  | TypeError
  | ConfigurationError (name : pyval).

(** The code points the codec has a byte for are those below [limit]. *)
Definition limit (enc : encoding) : N :=
  match enc with
  | EncLatin1 => 256
  | EncAscii => 128
  end.

Definition encode_char (enc : encoding) (c : N) : option Byte.byte :=
  if decide (c < limit enc)%N then Byte.of_N c else None.

Definition decode_byte (enc : encoding) (b : Byte.byte) : option N :=
  if decide (Byte.to_N b < limit enc)%N then Some (Byte.to_N b) else None.

(** [s.encode(encoding, errors)]; ['replace'] writes [?]. *)
Fixpoint encode (enc : encoding) (err : errors) (s : list N)
  : result exn (list Byte.byte) :=
  match s with
  | [] => Ok []
  | c :: s' =>
      match encode_char enc c, err with
      | Some b, _ => r ← encode enc err s'; Ok (b :: r)
      | None, Strict => Raise UnicodeEncodeError
      | None, Ignore => encode enc err s'
      | None, Replace => r ← encode enc err s'; Ok ("?"%byte :: r)
      end
  end.

(** [b.decode(encoding, errors)]; ['replace'] writes U+FFFD. *)
Fixpoint decode (enc : encoding) (err : errors) (bs : list Byte.byte)
  : result exn (list N) :=
  match bs with
  | [] => Ok []
  | b :: bs' =>
      match decode_byte enc b, err with
      | Some c, _ => r ← decode enc err bs'; Ok (c :: r)
      | None, Strict => Raise UnicodeDecodeError
      | None, Ignore => decode enc err bs'
      | None, Replace => r ← decode enc err bs'; Ok (65533%N :: r)
      end
  end.

Definition text_ (s : pyval) (encoding : encoding) (errors : errors)
  : result exn pyval :=
  match s with
  | Bytes b => u ← decode encoding errors b; Ok (Str u)
  | _ => Ok s
  end.

Definition bytes_ (s : pyval) (encoding : encoding) (errors : errors)
  : result exn pyval :=
  match s with
  | Str u => b ← encode encoding errors u; Ok (Bytes b)
  | _ => Ok s
  end.

(** [str(s, 'ascii', 'strict')] *)
Definition str_of (s : pyval) (encoding : encoding) (errors : errors)
  : result exn pyval :=
  match s with
  | Bytes b => u ← decode encoding errors b; Ok (Str u)
  | _ => Raise TypeError
  end.

Definition ascii_ (s : pyval) : result exn pyval :=
  s ← match s with
      | Str u => b ← encode EncAscii Strict u; Ok (Bytes b)
      | _ => Ok s
      end;
  str_of s EncAscii Strict.

Definition get_callable_name (name : pyval) : result exn pyval :=
  match ascii_ name with
  | Raise UnicodeEncodeError | Raise UnicodeDecodeError =>
      Raise (ConfigurationError name)
  | r => r
  end.

Module SimpleSerializer.

Definition loads (bstruct : pyval) : result exn pyval :=
  text_ bstruct EncLatin1 Strict.

Definition dumps (appstruct : pyval) : result exn pyval :=
  bytes_ appstruct EncLatin1 Strict.

End SimpleSerializer.

(** *** [strings_differ] *)

Definition len (v : pyval) : result exn nat :=
  match v with
  | Str u => Ok (length u)
  | Bytes b => Ok (length b)
  | Obj _ => Raise TypeError
  end.

Definition is_ascii (u : list N) : bool :=
  forallb (λ c, bool_decide (c < 128)%N) u.

(** [hmac.compare_digest]: two [bytes], or two [str] of ASCII characters;
    the time it takes is not modelled. *)
Definition compare_digest (a b : pyval) : result exn bool :=
  match a, b with
  | Str u, Str v =>
      if is_ascii u && is_ascii v then Ok (bool_decide (u = v))
      else Raise TypeError
  | Bytes u, Bytes v => Ok (bool_decide (u = v))
  | _, _ => Raise TypeError
  end.

Definition strings_differ (string1 string2 : pyval) : result exn bool :=
  l1 ← len string1;
  l2 ← len string2;
  let len_eq := bool_decide (l1 = l2) in
  let invalid_bits := if len_eq then 0%Z else 1%Z in
  let left := if len_eq then string1 else string2 in
  let right := string2 in
  c ← compare_digest left right;
  let invalid_bits := (invalid_bits + (if negb c then 1 else 0))%Z in
  Ok (bool_decide (invalid_bits ≠ 0%Z)).

(** *** [as_sorted_tuple]

    The argument is one value (a [str], or an object without [__iter__])
    or an iterable that is not a [str], with what it yields. *)
Inductive arg (A : Type) :=
  | Single (v : A)
  | Iterable (vs : list A).
Arguments Single {A} v.
Arguments Iterable {A} vs.

(** [R x y] is [not (y < x)] for the [<] of the elements, which [sorted]
    compares them with. *)
Definition as_sorted_tuple {A} (R : relation A) `{!RelDecision R}
    (val : arg A) : list A :=
  (* if not is_nonstr_iter(val): val = (val,) *)
  let val := match val with
             | Single v => [v]
             | Iterable vs => vs
             end in
  merge_sort R val.

(** *** [shortrepr]

    [object] is given by [str(object)]. *)
Definition shortrepr (object : string) (closer : string) : string :=
  let r := object in
  if decide (100 < String.length r)
  then String.substring 0 100 r +:+ " ... " +:+ closer
  else r.

(** *** [hide_attrs]

    [obj.__dict__] is a map from attribute names to values; in
    [saved_vals] the value [None] is [_marker].  The body of the [with]
    statement is what it does to [obj.__dict__]. *)
Section HideAttrs.
Context {V : Type}.

(** [for name in attrs: saved_vals[name] = obj_vals.pop(name, _marker)] *)
Definition hide (obj_vals : gmap string V) (attrs : list string)
  : gmap string V * gmap string (option V) :=
  foldl (λ '(obj_vals, saved_vals) name,
           (delete name obj_vals, <[name := obj_vals !! name]> saved_vals))
        (obj_vals, ∅) attrs.

(** The [finally] block. *)
Fixpoint restore (saved_vals : gmap string (option V)) (attrs : list string)
    (obj_vals : gmap string V) : result exn_kind (gmap string V) :=
  match attrs with
  | [] => Ok obj_vals
  | name :: rest =>
      match saved_vals !! name with
      | None => Raise KeyError
      | Some (Some saved_val) =>
          restore saved_vals rest (<[name := saved_val]> obj_vals)
      | Some None =>
          if decide (is_Some (obj_vals !! name))
          then restore saved_vals rest (delete name obj_vals)
          else restore saved_vals rest obj_vals
      end
  end.

Definition hide_attrs (obj_vals : gmap string V) (attrs : list string)
    (body : gmap string V → gmap string V) : result exn_kind (gmap string V) :=
  let '(hidden, saved_vals) := hide obj_vals attrs in
  restore saved_vals attrs (body hidden).

End HideAttrs.

(** *** [is_same_domain]

    Host names and patterns are strings of characters below U+0100. *)
Definition lower_char (c : Ascii.ascii) : Ascii.ascii :=
  let n := Ascii.N_of_ascii c in
  if decide ((65 ≤ n ≤ 90) ∨ (192 ≤ n ≤ 214) ∨ (216 ≤ n ≤ 222))%N
  then Ascii.ascii_of_N (n + 32) else c.

Fixpoint lower (s : string) : string :=
  match s with
  | EmptyString => EmptyString
  | String c s' => String (lower_char c) (lower s')
  end.

(** [s.endswith(p)] *)
Definition endswith (s p : string) : bool :=
  bool_decide (String.list_ascii_of_string p `suffix_of`
               String.list_ascii_of_string s).

(** [s[1:]] *)
Definition tail (s : string) : string :=
  match s with
  | EmptyString => EmptyString
  | String _ s' => s'
  end.

Definition is_same_domain (host pattern : string) : bool :=
  if decide (pattern = "") then false
  else
    let pattern := lower pattern in
    bool_decide (String.get 0 pattern = Some "."%char)
      && (endswith host pattern || bool_decide (host = tail pattern))
    || bool_decide (pattern = host).

End Util.

(** ** The route prefix of [pyramid.config.routes] *)

Module Routes.

(** [s.lstrip(c)], [s.rstrip(c)] and [s.strip(c)] for one character
    [c]. *)
Fixpoint lstrip (c : Ascii.ascii) (s : string) : string :=
  match s with
  | EmptyString => EmptyString
  | String a s' => if decide (a = c) then lstrip c s' else s
  end.

Fixpoint rstrip (c : Ascii.ascii) (s : string) : string :=
  match s with
  | EmptyString => EmptyString
  | String a s' =>
      match rstrip c s' with
      | EmptyString =>
          if decide (a = c) then EmptyString else String a EmptyString
      | r => String a r
      end
  end.

Definition strip (c : Ascii.ascii) (s : string) : string :=
  lstrip c (rstrip c s).

(** [route_prefix_context]: the value [self.route_prefix] has inside the
    [with] block, from the value it had and the argument. *)
Definition entered (self_route_prefix route_prefix : option string)
  : option string :=
  let route_prefix := default "" route_prefix in
  let old_route_prefix := default "" self_route_prefix in
  let route_prefix :=
    rstrip "/" old_route_prefix +:+ "/" +:+ lstrip "/" route_prefix in
  let route_prefix := strip "/" route_prefix in
  if decide (route_prefix = "") then None else Some route_prefix.

(** The [with] statement as a whole: the block sees the new prefix and
    may leave another one behind; the [finally] clause puts the original
    one back.  [self.begin()] and [self.end()] do not touch the prefix. *)
Definition route_prefix_context {A} (self_route_prefix route_prefix : option string)
    (body : option string → A * option string) : A * option string :=
  let original_route_prefix := self_route_prefix in
  let '(a, _) := body (entered self_route_prefix route_prefix) in
  (a, original_route_prefix).

Inductive exn :=
  | PatternIsNone            (* '"pattern" argument may not be None' *)
  | InheritSlashWithPattern. (* '"inherit_slash" may only be used with an
                                empty pattern' *)

(** The pattern [add_route] registers the route under, from the prefix in
    force, its [pattern], [path] and [inherit_slash] arguments and the
    [hostname] and [path] that [urlparse(pattern)] gives. *)
Definition add_route_pattern (self_route_prefix : option string)
    (pattern path : option string) (inherit_slash : bool)
    (parsed_hostname : option string) (parsed_path : string)
  : result exn string :=
  let pattern := match pattern with None => path | Some _ => pattern end in
  match pattern with
  | None => Raise PatternIsNone
  | Some pattern =>
      if inherit_slash && bool_decide (pattern ≠ "")
      then Raise InheritSlashWithPattern
      else if bool_decide (default "" parsed_hostname ≠ "")
      then Ok parsed_path
      else if bool_decide (default "" self_route_prefix ≠ "")
      then
        let route_prefix := default "" self_route_prefix in
        if bool_decide (pattern = "") && inherit_slash then Ok route_prefix
        else Ok (rstrip "/" route_prefix +:+ "/" +:+ lstrip "/" pattern)
      else Ok pattern
  end.

End Routes.

(** ** Facts about [list.remove] *)

Section ListRemove.
Context {A : Type} `{EqDecision A}.
Implicit Types (x y : A) (l : list A).

Lemma list_remove_first_spec x l :
  x ∈ l →
  ∃ l1 l2, l = l1 ++ (x :: l2) ∧ (x ∉ l1) ∧
           list_remove_first x l = Some (l1 ++ l2).
Proof.
  induction l as [|y l IH]; intros Hin; [by apply elem_of_nil in Hin|].
  simpl. destruct (decide (x = y)) as [->|Hne].
  - exists [], l. split_and!; [done|apply not_elem_of_nil|done].
  - apply elem_of_cons in Hin as [?|Hin]; [done|].
    destruct (IH Hin) as (l1 & l2 & -> & Hl1 & ->).
    exists (y :: l1), l2. split_and!; [done| |done].
    rewrite elem_of_cons. intros [?|?]; done.
Qed.

Lemma list_remove_first_None x l :
  list_remove_first x l = None ↔ x ∉ l.
Proof.
  induction l as [|y l IH]; simpl.
  - split; [intros _; apply not_elem_of_nil|done].
  - rewrite not_elem_of_cons. destruct (decide (x = y)) as [->|Hne].
    + split; [done|]. intros [? _]; done.
    + destruct (list_remove_first x l).
      * split; [done|]. intros [_ Hx]. by apply IH in Hx.
      * split; [|done]. intros _. split; [done|]. by apply IH.
Qed.

Lemma list_remove_first_perm x l l' :
  list_remove_first x l = Some l' → l ≡ₚ x :: l'.
Proof.
  revert l'. induction l as [|y l IH]; intros l'; simpl; [done|].
  destruct (decide (x = y)) as [->|Hne]; [by intros [= ->]|].
  destruct (list_remove_first x l) as [r|]; [|done].
  intros [= <-]. rewrite (IH r eq_refl). apply Permutation_swap.
Qed.

Lemma list_remove_first_NoDup x l l' :
  NoDup l → list_remove_first x l = Some l' →
  NoDup l' ∧ ∀ y, y ∈ l' ↔ y ∈ l ∧ y ≠ x.
Proof.
  intros Hnd Hrm. pose proof (list_remove_first_perm _ _ _ Hrm) as Hp.
  rewrite Hp in Hnd. apply NoDup_cons in Hnd as [Hx Hnd].
  split; [done|]. intros y. rewrite Hp, elem_of_cons.
  split; [intros Hy; split; [by right|by intros ->]|].
  by intros [[?|?] ?].
Qed.

Lemma filter_all (P : A → Prop) `{!∀ x, Decision (P x)} l :
  (∀ x, x ∈ l → P x) → filter P l = l.
Proof.
  induction l as [|z l IH]; intros Hall; [done|].
  rewrite filter_cons_True by (apply Hall, list_elem_of_here).
  f_equal. apply IH. intros x Hx. by apply Hall, list_elem_of_further.
Qed.

Lemma filter_ne_absent x l : x ∉ l → filter (λ y, y ≠ x) l = l.
Proof.
  induction l as [|z l IH]; [done|].
  intros [Hz Hl]%not_elem_of_cons.
  rewrite filter_cons_True by done. by rewrite IH.
Qed.

Lemma list_remove_first_filter x l l' :
  NoDup l → list_remove_first x l = Some l' → l' = filter (λ y, y ≠ x) l.
Proof.
  revert l'. induction l as [|y l IH]; intros l' Hnd; simpl; [done|].
  apply NoDup_cons in Hnd as [Hy Hnd].
  destruct (decide (x = y)) as [->|Hne].
  - intros [= <-]. rewrite filter_cons_False by (by intros ?).
    by rewrite filter_ne_absent.
  - destruct (list_remove_first x l) as [r|]; [|done].
    intros [= <-]. rewrite filter_cons_True by done. f_equal. by apply IH.
Qed.
End ListRemove.

Module WeakOrderedSetFacts.
Import WeakOrderedSet.

Implicit Types (s : t) (h : heap) (w : world) (x i : oid).

Lemma wos_tracked_iff s i :
  inv s → i ∈ _order s ↔ is_Some (_items s !! i).
Proof.
  intros [_ H]. by rewrite <- elem_of_dom, <- H, elem_of_list_to_set.
Qed.

Lemma wos_init_inv : inv __init__.
Proof.
  split; [apply NoDup_nil_2|]. simpl. by rewrite dom_empty_L.
Qed.

(** [add] of an identity that is already tracked moves it to the end. *)
Lemma wos_add_present s x :
  inv s → x ∈ _order s →
  add s x = Ok {| _items := _items s;
                  _order := filter (λ y, y ≠ x) (_order s) ++ [x] |}.
Proof.
  intros Hinv Hx. pose proof Hinv as [Hnd _]. unfold add.
  rewrite decide_True by (by apply wos_tracked_iff).
  destruct (list_remove_first_spec x _ Hx) as (l1 & l2 & _ & _ & Hrm).
  rewrite Hrm. by rewrite <- (list_remove_first_filter _ _ _ Hnd Hrm).
Qed.

(** [add] of a new identity appends it with a weak reference of its own. *)
Lemma wos_add_fresh s x :
  inv s → x ∉ _order s →
  add s x = Ok {| _items := <[x := Weakref x x]> (_items s);
                  _order := _order s ++ [x] |}.
Proof.
  intros Hinv Hx. unfold add.
  rewrite decide_False; [done|]. by rewrite <- wos_tracked_iff.
Qed.

Lemma wos_add_inv s x : inv s → ∃ s', add s x = Ok s' ∧ inv s'.
Proof.
  intros Hinv. pose proof Hinv as [Hnd Hdom].
  destruct (decide (x ∈ _order s)) as [Hx|Hx].
  - eexists. split; [by apply wos_add_present|]. split; simpl.
    + apply NoDup_app. split_and!.
      * by apply NoDup_filter.
      * intros y [Hy _]%list_elem_of_filter [->|[]%elem_of_nil]%elem_of_cons.
        done.
      * apply NoDup_singleton.
    + rewrite <- Hdom. apply set_eq. intros i.
      rewrite !elem_of_list_to_set, elem_of_app, list_elem_of_filter.
      rewrite list_elem_of_singleton.
      destruct (decide (i = x)) as [->|]; naive_solver.
  - eexists. split; [by apply wos_add_fresh|]. split; simpl.
    + apply NoDup_app. split_and!; [done| |apply NoDup_singleton].
      intros y Hy [->|[]%elem_of_nil]%elem_of_cons. done.
    + rewrite dom_insert_L, <- Hdom, list_to_set_app_L. simpl. set_solver.
Qed.

Lemma wos_remove_by_id_present s i :
  inv s → i ∈ _order s →
  _remove_by_id s i = Ok {| _items := delete i (_items s);
                            _order := filter (λ y, y ≠ i) (_order s) |}.
Proof.
  intros Hinv Hi. pose proof Hinv as [Hnd _]. unfold _remove_by_id.
  rewrite decide_True by (by apply wos_tracked_iff).
  destruct (list_remove_first_spec i _ Hi) as (l1 & l2 & _ & _ & Hrm).
  rewrite Hrm. by rewrite <- (list_remove_first_filter _ _ _ Hnd Hrm).
Qed.

Lemma wos_remove_by_id_absent s i :
  inv s → i ∉ _order s → _remove_by_id s i = Ok s.
Proof.
  intros Hinv Hi. unfold _remove_by_id.
  rewrite decide_False; [done|]. by rewrite <- wos_tracked_iff.
Qed.

Lemma wos_remove_by_id_inv s i :
  inv s → ∃ s', _remove_by_id s i = Ok s' ∧ inv s'.
Proof.
  intros Hinv. pose proof Hinv as [Hnd Hdom].
  destruct (decide (i ∈ _order s)) as [Hi|Hi].
  - eexists. split; [by apply wos_remove_by_id_present|]. split; simpl.
    + by apply NoDup_filter.
    + rewrite dom_delete_L, <- Hdom. apply set_eq. intros j.
      rewrite elem_of_difference, !elem_of_list_to_set, list_elem_of_filter.
      rewrite elem_of_singleton. naive_solver.
  - eexists. split; [by apply wos_remove_by_id_absent|done].
Qed.

Lemma wos_len_size s : inv s → __len__ s = size (dom (_items s)).
Proof.
  intros [Hnd Hdom]. unfold __len__.
  by rewrite <- Hdom, size_list_to_set.
Qed.

Lemma wos_contains_order s x :
  inv s → __contains__ s x = true ↔ x ∈ _order s.
Proof.
  intros Hinv. unfold __contains__.
  by rewrite bool_decide_eq_true, wos_tracked_iff.
Qed.

Lemma wos_iter_from_ok items h l :
  (∀ i, i ∈ l → is_Some (items !! i)) →
  ∃ ys, iter_from items h l = Ok ys ∧ length ys = length l ∧
        List.last ys None =
          match List.last (Some <$> l) None with
          | None => None
          | Some i => items !! i ≫= deref h
          end.
Proof.
  induction l as [|i l IH]; intros Hl; [by exists []|].
  destruct (Hl i) as [r Hr]; [apply list_elem_of_here|].
  destruct IH as (ys & Hys & Hlen & Hlast).
  { intros j Hj. apply Hl. by apply list_elem_of_further. }
  exists (deref h r :: ys). simpl. rewrite Hr, Hys. simpl.
  split_and!; [done|by rewrite Hlen|].
  destruct l as [|j l]; simpl in *.
  - destruct ys; [|done]. simpl. by rewrite Hr.
  - destruct ys as [|y ys]; [done|]. done.
Qed.

Lemma wos_iter_from_live items h l :
  (∀ i, i ∈ l → ∃ r, items !! i = Some r ∧ referent r = i ∧ i ∈ h) →
  iter_from items h l = Ok (Some <$> l).
Proof.
  induction l as [|i l IH]; intros Hl; [done|].
  destruct (Hl i) as (r & Hr & Href & Hlive); [apply list_elem_of_here|].
  simpl. rewrite Hr, IH.
  - simpl. unfold deref. rewrite Href, decide_True by done. done.
  - intros j Hj. apply Hl. by apply list_elem_of_further.
Qed.

Lemma wos_iter_live w :
  inv (wset w) → tracked_live w →
  __iter__ (wset w) (live w) = Ok (Some <$> _order (wset w)).
Proof.
  intros Hinv Hlive. apply wos_iter_from_live. intros i Hi.
  apply (wos_tracked_iff _ _ Hinv) in Hi as [r Hr].
  destruct (Hlive _ _ Hr) as (? & _ & ?). eauto.
Qed.

Lemma wos_empty_inv s : inv (empty s).
Proof. apply wos_init_inv. Qed.

(** The finalizer of a tracked object is its own identity, once or more;
    after the first call the others find nothing to remove. *)
Lemma wos_callbacks_for w o :
  tracked_live w → o ∈ dom (_items (wset w)) →
  ∃ n, callbacks_for (_items (wset w)) o = replicate (S n) o.
Proof.
  intros Hlive [r Hr]%elem_of_dom. unfold callbacks_for.
  set (l := filter _ _).
  assert (Forall (λ r', callback_oid r' = o) l) as Hall.
  { apply Forall_forall. intros r' [Href Hin]%list_elem_of_filter.
    apply list_elem_of_fmap in Hin as ([k r''] & -> & Hin).
    apply elem_of_map_to_list in Hin.
    destruct (Hlive _ _ Hin) as (Hk & Hc & _). simpl in *. congruence. }
  assert (r ∈ l) as Hrl.
  { apply list_elem_of_filter. split.
    - by destruct (Hlive _ _ Hr) as (? & _).
    - apply list_elem_of_fmap. exists (o, r). split; [done|].
      by apply elem_of_map_to_list. }
  clearbody l. destruct l as [|r0 l]; [by apply elem_of_nil in Hrl|].
  exists (length l). simpl. apply Forall_cons in Hall as [-> Hall]. f_equal.
  clear Hrl. induction Hall as [|r1 l Hr1 _ IH]; [done|].
  simpl. by rewrite Hr1, IH.
Qed.

Lemma wos_run_callbacks_absent s o n :
  inv s → o ∉ _order s → run_callbacks s (replicate n o) = Ok s.
Proof.
  intros Hinv Ho. induction n as [|n IH]; [done|].
  simpl. by rewrite wos_remove_by_id_absent.
Qed.

Lemma wos_release_tracked w o :
  inv (wset w) → tracked_live w → o ∈ _order (wset w) →
  release w o =
    Ok {| live := live w ∖ {[o]};
          wset := {| _items := delete o (_items (wset w));
                     _order := filter (λ y, y ≠ o) (_order (wset w)) |} |}.
Proof.
  intros Hinv Hlive Ho. unfold release.
  destruct (wos_callbacks_for w o Hlive) as [n ->].
  { destruct Hinv as [_ <-]. by apply elem_of_list_to_set. }
  simpl. rewrite wos_remove_by_id_present by done. simpl.
  rewrite wos_run_callbacks_absent; [done| |].
  - destruct (wos_remove_by_id_inv _ o Hinv) as (s' & Hs' & Hinv').
    rewrite wos_remove_by_id_present in Hs' by done. by injection Hs' as <-.
  - simpl. rewrite list_elem_of_filter. by intros [? _].
Qed.

(** C7: for distinct live objects [x1] and [x2], [add(x1); add(x2);
    add(x1)] on a new set gives a set that iterates as [[x2, x1]], whose
    [last] is [x1] and whose length is 2; on any set that satisfies the
    invariant the three calls leave the other identities in their order,
    followed by [x2] and [x1] once each: adding a present identity again
    moves it to the end and duplicates nothing. *)
Theorem wos_readd_moves_to_end h x1 x2 :
  x1 ≠ x2 → x1 ∈ h → x2 ∈ h →
  (∃ s, (s1 ← add __init__ x1; s2 ← add s1 x2; add s2 x1) = Ok s ∧
        __iter__ s h = Ok [Some x2; Some x1] ∧
        last s h = Ok (Some x1) ∧
        __len__ s = 2) ∧
  (∀ s0, inv s0 →
     ∃ s, (s1 ← add s0 x1; s2 ← add s1 x2; add s2 x1) = Ok s ∧
          inv s ∧
          _order s = filter (λ y, y ≠ x1 ∧ y ≠ x2) (_order s0) ++ [x2; x1]).
Proof.
  intros Hne H1 H2. split.
  - eexists. split.
    + unfold add; simpl. rewrite lookup_empty. rewrite decide_False by (by intros [? ?]).
      simpl. rewrite lookup_insert_ne by done. rewrite lookup_empty.
      rewrite decide_False by (by intros [? ?]). simpl.
      rewrite lookup_insert_ne by done. rewrite lookup_insert_eq.
      rewrite decide_True by eauto. rewrite decide_True by done. simpl. done.
    + unfold __iter__, last, __len__, deref; simpl.
      rewrite lookup_insert_eq, lookup_insert_ne, lookup_insert_eq by done.
      simpl. unfold deref; simpl. rewrite !decide_True by done. done.
  - intros s0 Hinv0.
    destruct (wos_add_inv s0 x1 Hinv0) as (s1 & Hs1 & Hinv1).
    assert (x1 ∈ _order s1 ∧ filter (λ y, y ≠ x1) (_order s1) = filter (λ y, y ≠ x1) (_order s0)) as [Hx1 Hf1].
    { destruct (decide (x1 ∈ _order s0)) as [Hin|Hin].
      - rewrite wos_add_present in Hs1 by done. injection Hs1 as <-. simpl.
        split; [set_solver|]. rewrite filter_app, filter_cons_False, filter_nil by (by intros ?).
        rewrite app_nil_r. rewrite list_filter_filter. apply list_filter_iff. naive_solver.
      - rewrite wos_add_fresh in Hs1 by done. injection Hs1 as <-. simpl.
        split; [set_solver|]. rewrite filter_app, filter_cons_False, filter_nil by (by intros ?).
        by rewrite app_nil_r. }
    destruct (wos_add_inv s1 x2 Hinv1) as (s2 & Hs2 & Hinv2).
    assert (_order s2 = filter (λ y, y ≠ x2) (_order s1) ++ [x2]) as Ho2.
    { destruct (decide (x2 ∈ _order s1)) as [Hin|Hin].
      - rewrite wos_add_present in Hs2 by done. by injection Hs2 as <-.
      - rewrite wos_add_fresh in Hs2 by done. injection Hs2 as <-. simpl.
        by rewrite filter_ne_absent. }
    assert (x1 ∈ _order s2) as Hx1'.
    { rewrite Ho2, elem_of_app, list_elem_of_filter. by left. }
    exists {| _items := _items s2; _order := filter (λ y, y ≠ x1) (_order s2) ++ [x1] |}.
    rewrite Hs1. simpl. rewrite Hs2. simpl. rewrite wos_add_present by done.
    split; [done|]. split.
    + destruct (wos_add_inv s2 x1 Hinv2) as (s3 & Hs3 & Hinv3).
      rewrite wos_add_present in Hs3 by done. by injection Hs3 as <-.
    + simpl. rewrite Ho2, filter_app, filter_cons_True, filter_nil by done.
      rewrite list_filter_filter. rewrite <- (assoc_L (++)). simpl. f_equal.
      rewrite (list_filter_iff _ (λ y, y ≠ x2 ∧ y ≠ x1)) by naive_solver.
      rewrite <- list_filter_filter, Hf1, list_filter_filter.
      apply list_filter_iff. naive_solver.
Qed.

Lemma wos_filter_length (l : list oid) o :
  NoDup l → o ∈ l → S (length (filter (λ y, y ≠ o) l)) = length l.
Proof.
  intros Hnd Ho.
  destruct (list_remove_first_spec o l Ho) as (l1 & l2 & Hl & _ & Hrm).
  rewrite <- (list_remove_first_filter _ _ _ Hnd Hrm), Hl.
  rewrite !length_app. simpl. lia.
Qed.

(** C8: when a tracked object becomes unreachable, the callback of its
    weak reference, [_remove_by_id], takes its entry out of the identity map
    and out of the order list in one call; the length goes down by one, the
    invariants still hold, and iteration yields the live objects that remain
    and no [None], without any call of [remove]. *)
Theorem wos_finalizer_evicts w o :
  inv (wset w) → tracked_live w → o ∈ _order (wset w) →
  ∃ w', release w o = Ok w' ∧
        live w' = live w ∖ {[o]} ∧
        _remove_by_id (wset w) o = Ok (wset w') ∧
        S (__len__ (wset w')) = __len__ (wset w) ∧
        _items (wset w') !! o = None ∧
        (o ∉ _order (wset w')) ∧
        inv (wset w') ∧ tracked_live w' ∧
        __iter__ (wset w') (live w') =
          Ok (Some <$> filter (λ y, y ≠ o) (_order (wset w))).
Proof.
  intros Hinv Hlive Ho. pose proof Hinv as [Hnd Hdom].
  eexists. split; [by apply wos_release_tracked|]. simpl.
  assert (inv {| _items := delete o (_items (wset w));
                 _order := filter (λ y, y ≠ o) (_order (wset w)) |}) as Hinv'.
  { destruct (wos_remove_by_id_inv _ o Hinv) as (s' & Hs' & Hinv').
    rewrite wos_remove_by_id_present in Hs' by done. by injection Hs' as <-. }
  assert (tracked_live
            {| live := live w ∖ {[o]};
               wset := {| _items := delete o (_items (wset w));
                          _order := filter (λ y, y ≠ o) (_order (wset w)) |} |})
    as Hlive'.
  { intros k r Hkr. simpl in *. apply lookup_delete_Some in Hkr as [Hk Hr].
    destruct (Hlive _ _ Hr) as (? & ? & ?). split_and!; [done..|].
    apply elem_of_difference. split; [done|].
    rewrite elem_of_singleton. congruence. }
  split_and!; [done|by apply wos_remove_by_id_present| | | |done|done|].
  - unfold __len__; simpl. by apply wos_filter_length.
  - apply lookup_delete_eq.
  - rewrite list_elem_of_filter. by intros [? _].
  - by apply (wos_iter_live (World _ _) Hinv' Hlive').
Qed.

Lemma wos_finalizer_evicts_witness :
  let w := {| live := {[1%Z; 2%Z]};
              wset := {| _items := {[1%Z := Weakref 1%Z 1%Z; 2%Z := Weakref 2%Z 2%Z]};
                         _order := [1%Z; 2%Z] |} |} in
  inv (wset w) ∧ tracked_live w ∧ 1%Z ∈ _order (wset w) ∧
  ∃ w', release w 1%Z = Ok w' ∧
        live w' = live w ∖ {[1%Z]} ∧
        _remove_by_id (wset w) 1%Z = Ok (wset w') ∧
        S (__len__ (wset w')) = __len__ (wset w) ∧
        _items (wset w') !! 1%Z = None ∧
        (1%Z ∉ _order (wset w')) ∧
        inv (wset w') ∧ tracked_live w' ∧
        __iter__ (wset w') (live w') =
          Ok (Some <$> filter (λ y, y ≠ 1%Z) (_order (wset w))).
Proof.
  intros w.
  assert (inv (wset w)) as Hinv by (apply (bool_decide_unpack _); vm_compute; exact I).
  assert (tracked_live w) as Hlive by (apply (bool_decide_unpack _); vm_compute; exact I).
  assert (1%Z ∈ _order (wset w)) as Ho by (apply (bool_decide_unpack _); vm_compute; exact I).
  split; [done|]. split; [done|]. split; [done|].
  exact (wos_finalizer_evicts w 1%Z Hinv Hlive Ho).
Defined.

Lemma wos_last_elem_of (l : list oid) i :
  List.last (Some <$> l) None = Some i → i ∈ l.
Proof.
  induction l as [|j l IH]; [done|].
  destruct l as [|k l]; simpl in *.
  - intros [= ->]. apply list_elem_of_here.
  - intros H. apply list_elem_of_further. by apply IH.
Qed.

Lemma wos_last_ok s h :
  inv s →
  ∃ ys, __iter__ s h = Ok ys ∧ length ys = __len__ s ∧
        last s h = Ok (List.last ys None).
Proof.
  intros Hinv.
  destruct (wos_iter_from_ok (_items s) h (_order s))
    as (ys & Hys & Hlen & Hlast).
  { intros i. by apply wos_tracked_iff. }
  exists ys. split_and!; [done..|]. unfold last. rewrite Hlast.
  destruct (List.last (Some <$> _order s) None) as [i|] eqn:Hl; [|done].
  apply wos_last_elem_of, (wos_tracked_iff _ _ Hinv) in Hl as [r Hr].
  by rewrite Hr.
Qed.

(** C10: [add], [remove], the finalizer [_remove_by_id] and [empty] never
    raise on a set whose order list has each identity once and exactly the
    keys of the identity map, and leave such a set; so [__len__] is the
    number of tracked identities, [__contains__] holds exactly of the
    identities in the order list, [__iter__] yields one item per identity,
    and [last] is the last item [__iter__] yields. *)
Theorem wos_invariant_preserved s :
  inv s →
  (∀ x, ∃ s', add s x = Ok s' ∧ inv s') ∧
  (∀ x, ∃ s', remove s x = Ok s' ∧ inv s') ∧
  (∀ i, ∃ s', _remove_by_id s i = Ok s' ∧ inv s') ∧
  inv (empty s) ∧
  __len__ s = size (dom (_items s)) ∧
  (∀ x, __contains__ s x = true ↔ x ∈ _order s) ∧
  (∀ h, ∃ ys, __iter__ s h = Ok ys ∧ length ys = __len__ s ∧
              last s h = Ok (List.last ys None)) ∧
  (∀ h, tracked_live {| live := h; wset := s |} →
        __iter__ s h = Ok (Some <$> _order s) ∧
        (∀ x, __contains__ s x = true ↔ Some x ∈ Some <$> _order s) ∧
        last s h = Ok (List.last (Some <$> _order s) None)).
Proof.
  intros Hinv. split_and!.
  - intros x. by apply wos_add_inv.
  - intros x. by apply wos_remove_by_id_inv.
  - intros i. by apply wos_remove_by_id_inv.
  - apply wos_empty_inv.
  - by apply wos_len_size.
  - intros x. by apply wos_contains_order.
  - intros h. by apply wos_last_ok.
  - intros h Hlive.
    pose proof (wos_iter_live (World h s) Hinv Hlive) as Hit. simpl in Hit.
    split_and!; [done| |].
    + intros x. rewrite wos_contains_order by done.
      rewrite list_elem_of_fmap. split; [by eauto|].
      by intros (y & [= ->] & ?).
    + destruct (wos_last_ok s h Hinv) as (ys & Hys & _ & ->).
      rewrite Hit in Hys. by injection Hys as <-.
Qed.

Lemma wos_invariant_preserved_witness :
  let s := {| _items := {[1%Z := Weakref 1%Z 1%Z; 2%Z := Weakref 2%Z 2%Z]};
              _order := [2%Z; 1%Z] |} in
  inv s ∧
  (∀ x, ∃ s', add s x = Ok s' ∧ inv s') ∧
  (∀ x, ∃ s', remove s x = Ok s' ∧ inv s') ∧
  (∀ i, ∃ s', _remove_by_id s i = Ok s' ∧ inv s') ∧
  inv (empty s) ∧
  __len__ s = size (dom (_items s)) ∧
  (∀ x, __contains__ s x = true ↔ x ∈ _order s) ∧
  (∀ h, ∃ ys, __iter__ s h = Ok ys ∧ length ys = __len__ s ∧
              last s h = Ok (List.last ys None)) ∧
  (∀ h, tracked_live {| live := h; wset := s |} →
        __iter__ s h = Ok (Some <$> _order s) ∧
        (∀ x, __contains__ s x = true ↔ Some x ∈ Some <$> _order s) ∧
        last s h = Ok (List.last (Some <$> _order s) None)).
Proof.
  intros s.
  assert (inv s) as Hinv by (apply (bool_decide_unpack _); vm_compute; exact I).
  split; [done|]. exact (wos_invariant_preserved s Hinv).
Defined.

Lemma wos_readd_moves_to_end_witness :
  let h : heap := {[1%Z; 2%Z]} in
  1%Z ≠ 2%Z ∧ 1%Z ∈ h ∧ 2%Z ∈ h ∧
  (∃ s, (s1 ← add __init__ 1%Z; s2 ← add s1 2%Z; add s2 1%Z) = Ok s ∧
        __iter__ s h = Ok [Some 2%Z; Some 1%Z] ∧
        last s h = Ok (Some 1%Z) ∧
        __len__ s = 2) ∧
  (∀ s0, inv s0 →
     ∃ s, (s1 ← add s0 1%Z; s2 ← add s1 2%Z; add s2 1%Z) = Ok s ∧
          inv s ∧
          _order s = filter (λ y, y ≠ 1%Z ∧ y ≠ 2%Z) (_order s0) ++ [2%Z; 1%Z]).
Proof.
  intros h.
  assert (1%Z ≠ 2%Z) as Hne by lia.
  assert (1%Z ∈ h) as H1 by (apply (bool_decide_unpack _); vm_compute; exact I).
  assert (2%Z ∈ h) as H2 by (apply (bool_decide_unpack _); vm_compute; exact I).
  split; [done|]. split; [done|]. split; [done|].
  exact (wos_readd_moves_to_end h 1%Z 2%Z Hne H1 H2).
Defined.

End WeakOrderedSetFacts.

(** ** TopologicalSorter: the graph that [sorted] builds *)

Module GraphFacts.
Import TopologicalSorter SorterSpec.

Implicit Types (n x y : node) (A P : list (node * node)) (b : build).

Lemma children_of_app A1 A2 n :
  children_of (A1 ++ A2) n = children_of A1 n ++ children_of A2 n.
Proof. unfold children_of. by rewrite filter_app, fmap_app. Qed.

Lemma parents_of_app A1 A2 n :
  parents_of (A1 ++ A2) n = parents_of A1 n ++ parents_of A2 n.
Proof. unfold parents_of. by rewrite filter_app, fmap_app. Qed.

Lemma pending_app A1 A2 out n :
  pending (A1 ++ A2) out n = (pending A1 out n + pending A2 out n)%Z.
Proof.
  unfold pending. rewrite parents_of_app, filter_app, length_app. lia.
Qed.

Lemma pending_nonneg A out n : (0 ≤ pending A out n)%Z.
Proof. unfold pending. lia. Qed.

Lemma children_of_single x y n :
  children_of [(x, y)] n = if decide (x = n) then [y] else [].
Proof.
  unfold children_of. rewrite filter_cons, filter_nil. simpl.
  by destruct (decide (x = n)).
Qed.

Lemma pending_single x y out n :
  pending [(x, y)] out n =
    if decide (y = n ∧ x ∉ out) then 1%Z else 0%Z.
Proof.
  unfold pending, parents_of. rewrite filter_cons. simpl.
  destruct (decide (y = n)) as [->|Hne]; simpl.
  - rewrite filter_cons. destruct (decide (x ∉ out)); simpl.
    + by rewrite decide_True.
    + rewrite decide_False; [done|]. by intros [_ ?].
  - rewrite decide_False; [done|]. by intros [? _].
Qed.

Lemma elem_of_children_of A a n : n ∈ children_of A a ↔ (a, n) ∈ A.
Proof.
  unfold children_of. rewrite list_elem_of_fmap. split.
  - intros ([a' n'] & -> & [Ha Hin]%list_elem_of_filter). simpl in *.
    by subst.
  - intros Hin. exists (a, n). split; [done|].
    by apply list_elem_of_filter.
Qed.

Lemma elem_of_parents_of A a n : a ∈ parents_of A n ↔ (a, n) ∈ A.
Proof.
  unfold parents_of. rewrite list_elem_of_fmap. split.
  - intros ([a' n'] & -> & [Ha Hin]%list_elem_of_filter). simpl in *.
    by subst.
  - intros Hin. exists (a, n). split; [done|].
    by apply list_elem_of_filter.
Qed.

Lemma elem_of_linked N order a c :
  (a, c) ∈ linked N order ↔ (a, c) ∈ order ∧ a ∈ N ∧ c ∈ N.
Proof. unfold linked. rewrite list_elem_of_filter. simpl. tauto. Qed.

(** *** [add_node] over all the names *)

Lemma add_nodes_graph (l : list node) b n :
  graph (foldl add_node b l) !! n =
    match graph b !! n with
    | Some e => Some e
    | None => if decide (n ∈ l) then Some (0%Z, []) else None
    end.
Proof.
  revert b. induction l as [|m l IH]; intros b; cbn [foldl].
  - destruct (graph b !! n); [done|].
    by destruct (decide (n ∈ [])) as [[]%elem_of_nil|].
  - rewrite IH. unfold add_node.
    destruct (graph b !! m) as [e|] eqn:Hm; cbn [graph].
    + destruct (graph b !! n) as [e'|] eqn:Hn; [done|].
      assert (n ≠ m) by congruence.
      destruct (decide (n ∈ l)) as [Hl|Hl].
      * rewrite decide_True; [done|]. by apply list_elem_of_further.
      * rewrite decide_False; [done|]. by intros [?|?]%elem_of_cons.
    + destruct (decide (n = m)) as [->|Hne].
      * rewrite lookup_insert_eq, Hm.
        rewrite decide_True; [done|]. apply list_elem_of_here.
      * rewrite lookup_insert_ne by done.
        destruct (graph b !! n); [done|].
        destruct (decide (n ∈ l)) as [Hl|Hl].
        -- rewrite decide_True; [done|]. by apply list_elem_of_further.
        -- rewrite decide_False; [done|]. by intros [?|?]%elem_of_cons.
Qed.

Lemma add_nodes_has (l : list node) b :
  has_before (foldl add_node b l) = has_before b ∧
  has_after (foldl add_node b l) = has_after b.
Proof.
  revert b. induction l as [|m l IH]; intros b; simpl; [done|].
  destruct (IH (add_node b m)) as [-> ->]. unfold add_node.
  by destruct (graph b !! m).
Qed.

Lemma add_nodes_roots (l : list node) b :
  ∃ new, roots (foldl add_node b l) = roots b ++ new ∧ NoDup new ∧
         (∀ n, n ∈ new ↔ n ∈ l ∧ graph b !! n = None) ∧
         (NoDup l → (∀ n, n ∈ l → graph b !! n = None) → new = l).
Proof.
  revert b. induction l as [|m l IH]; intros b; simpl.
  - exists []. rewrite app_nil_r. split_and!; [done|apply NoDup_nil_2| |done].
    intros n. rewrite elem_of_nil. tauto.
  - destruct (IH (add_node b m)) as (new & -> & Hnd & Hnew & Heq).
    unfold add_node in *. destruct (graph b !! m) as [e|] eqn:Hm; simpl in *.
    + exists new. split_and!; [done..| |].
      * intros n. rewrite Hnew, elem_of_cons. split; [tauto|].
        intros [[->|?] ?]; [congruence|done].
      * intros _ Hall. specialize (Hall m (list_elem_of_here _ _)). congruence.
    + exists (m :: new). rewrite <- (assoc_L (++)). simpl.
      split_and!; [done| | |].
      * apply NoDup_cons. split; [|done]. rewrite Hnew.
        rewrite lookup_insert_eq. by intros [_ ?].
      * intros n. rewrite !elem_of_cons, Hnew.
        destruct (decide (n = m)) as [->|Hne].
        -- rewrite lookup_insert_eq. tauto.
        -- rewrite lookup_insert_ne by done. tauto.
      * intros [Hml Hndl]%NoDup_cons Hall. f_equal. apply Heq; [done|].
        intros n Hn. rewrite lookup_insert_ne by (by intros ->).
        apply Hall. by apply list_elem_of_further.
Qed.

(** *** [add_arc] over the arcs *)

Lemma add_arc_spec N P b x y :
  graph_is N P [] (graph b) → NoDup (roots b) → x ∈ N → y ∈ N →
  ∃ g, add_arc b x y =
         Ok {| roots := filter (λ n, n ≠ y) (roots b); graph := g;
               has_before := has_before b; has_after := has_after b |} ∧
       graph_is N (P ++ [(x, y)]) [] g.
Proof.
  intros Hg Hnd Hx Hy. unfold add_arc.
  assert (∀ n, n ∈ N → n ∈ N ∧ n ∉ []) as Hin.
  { intros n ?. split; [done|]. apply not_elem_of_nil. }
  pose proof (Hg x) as Hgx. rewrite decide_True in Hgx by auto.
  rewrite Hgx.
  set (g1 := <[x := (pending P [] x, children_of P x ++ [y])]> (graph b)).
  assert (g1 !! y = Some (pending P [] y,
                          children_of P y ++ if decide (x = y) then [y] else []))
    as Hg1y.
  { unfold g1. destruct (decide (x = y)) as [->|Hne].
    - by rewrite lookup_insert_eq.
    - rewrite lookup_insert_ne by done. rewrite (Hg y), decide_True by auto.
      by rewrite app_nil_r. }
  rewrite Hg1y.
  assert ((if decide (y ∈ roots b)
           then default (roots b) (list_remove_first y (roots b))
           else roots b) = filter (λ n, n ≠ y) (roots b)) as ->.
  { destruct (decide (y ∈ roots b)) as [Hr|Hr].
    - destruct (list_remove_first_spec y _ Hr) as (l1 & l2 & _ & _ & Hrm).
      rewrite Hrm. simpl. by apply list_remove_first_filter.
    - by rewrite filter_ne_absent. }
  eexists. split; [done|]. intros n.
  rewrite pending_app, children_of_app, pending_single, children_of_single.
  destruct (decide (n ∈ N ∧ n ∉ [])) as [[Hn _]|Hn].
  - destruct (decide (y = n)) as [->|Hyn].
    + rewrite lookup_insert_eq. rewrite (decide_True (P := n = n ∧ _)).
      2:{ split; [done|]. apply not_elem_of_nil. }
      done.
    + rewrite lookup_insert_ne by done.
      rewrite (decide_False (P := y = n ∧ _)) by (by intros [? _]).
      unfold g1. destruct (decide (x = n)) as [->|Hxn].
      * rewrite lookup_insert_eq. do 2 f_equal; lia.
      * rewrite lookup_insert_ne by done. rewrite (Hg n), decide_True by auto.
        rewrite app_nil_r. do 2 f_equal; lia.
  - assert (n ≠ x) by (intros ->; auto).
    assert (n ≠ y) by (intros ->; auto).
    rewrite lookup_insert_ne by done. unfold g1.
    rewrite lookup_insert_ne by done. rewrite (Hg n).
    by rewrite decide_False.
Qed.

Lemma add_arcs_spec N order : ∀ P b,
  graph_is N P [] (graph b) → NoDup (roots b) →
  ∃ g, add_arcs N order b =
         Ok {| roots := filter (λ n, n ∉ (linked N order).*2) (roots b);
               graph := g;
               has_before := list_to_set (linked N order).*1 ∪ has_before b;
               has_after := list_to_set (linked N order).*2 ∪ has_after b |} ∧
       graph_is N (P ++ linked N order) [] g.
Proof.
  induction order as [|[x y] order IH]; intros P b Hg Hnd.
  - exists (graph b). simpl. split.
    + f_equal. destruct b; simpl. f_equal.
      * rewrite filter_all; [done|]. intros; apply not_elem_of_nil.
      * set_solver.
      * set_solver.
    + by rewrite app_nil_r.
  - simpl. unfold linked. rewrite filter_cons. simpl.
    destruct (decide (x ∈ N ∧ y ∈ N)) as [[Hx Hy]|Hxy].
    + destruct (add_arc_spec N P b x y Hg Hnd Hx Hy) as (g1 & -> & Hg1).
      simpl.
      edestruct (IH (P ++ [(x, y)])) as (g & -> & Hg2); [exact Hg1| |].
      { simpl. by apply NoDup_filter. }
      exists g. simpl. split.
      * f_equal. f_equal.
        -- rewrite list_filter_filter. apply list_filter_iff. intros n.
           rewrite not_elem_of_cons. tauto.
        -- fold (linked N order). set_solver.
        -- fold (linked N order). set_solver.
      * fold (linked N order). by rewrite <- (assoc_L (++)) in Hg2.
    + fold (linked N order). by apply IH.
Qed.

(** *** The whole graph *)

Lemma build_graph_spec {V} (s : t V) :
  ∃ R0 g,
    build_graph s =
      Ok {| roots := filter (λ n, n ∉ (arcs s).*2) R0; graph := g;
            has_before := list_to_set (arcs s).*1;
            has_after := list_to_set (arcs s).*2 |} ∧
    graph_is (all_names s) (arcs s) [] g ∧
    NoDup R0 ∧ (∀ n, n ∈ R0 ↔ n ∈ all_names s) ∧
    (NoDup (all_names s) → R0 = all_names s).
Proof.
  unfold build_graph.
  set (N := all_names s). set (b0 := foldl add_node empty_build N).
  destruct (add_nodes_roots N empty_build) as (R0 & HR & Hnd & Hin & Heq).
  destruct (add_nodes_has N empty_build) as [Hb Ha].
  fold b0 in HR, Hb, Ha. simpl in HR, Hb, Ha.
  assert (graph_is N [] [] (graph b0)) as Hg0.
  { intros n. unfold b0. rewrite add_nodes_graph. simpl. rewrite lookup_empty.
    destruct (decide (n ∈ N)) as [Hn|Hn].
    - rewrite decide_True; [done|]. split; [done|apply not_elem_of_nil].
    - rewrite decide_False; [done|]. by intros [? _]. }
  destruct (add_arcs_spec N (all_order s) [] b0 Hg0) as (g & Hg & Hgraph).
  { by rewrite HR. }
  exists R0, g. rewrite Hg, HR, Hb, Ha. unfold arcs. fold N.
  split_and!; [|done|done| |].
  - f_equal. f_equal; set_solver.
  - intros n. rewrite Hin. unfold empty_build. simpl. rewrite lookup_empty. tauto.
  - intros HN. apply Heq; [done|]. intros n _. apply lookup_empty.
Qed.

(** *** The loop over the children of a root *)

Lemma occurrences_nil c : occurrences c [] = 0%Z.
Proof. done. Qed.

Lemma occurrences_cons c x l :
  occurrences c (x :: l) =
    ((if decide (x = c) then 1 else 0) + occurrences c l)%Z.
Proof.
  unfold occurrences. rewrite filter_cons.
  destruct (decide (x = c)); simpl; lia.
Qed.

Lemma occurrences_nonneg c l : (0 ≤ occurrences c l)%Z.
Proof. unfold occurrences. lia. Qed.

Lemma occurrences_zero c l : occurrences c l = 0%Z ↔ c ∉ l.
Proof.
  induction l as [|x l IH].
  - rewrite occurrences_nil. split; [intros _; apply not_elem_of_nil|done].
  - rewrite occurrences_cons, not_elem_of_cons.
    pose proof (occurrences_nonneg c l).
    destruct (decide (x = c)) as [->|Hne].
    + split; [lia|]. by intros [? _].
    + rewrite <- IH. split; [intros; split; [congruence|lia]|].
      intros [_ ?]. lia.
Qed.

Lemma release_children_spec ch : ∀ rs (g : gmap node entry),
  (∀ c, c ∈ ch → ∃ k succs, g !! c = Some (k, succs) ∧ (occurrences c ch ≤ k)%Z) →
  ∃ freed g',
    release_children ch rs g = Ok (freed ++ rs, g') ∧
    NoDup freed ∧
    (∀ n, n ∈ freed ↔
          n ∈ ch ∧ ∃ succs, g !! n = Some (occurrences n ch, succs)) ∧
    (∀ n, g' !! n = (λ e, ((e.1 - occurrences n ch)%Z, e.2)) <$> g !! n).
Proof.
  induction ch as [|x ch IH]; intros rs g Hpre.
  - exists [], g. simpl. split_and!; [done|apply NoDup_nil_2| |].
    + intros n. rewrite !elem_of_nil. tauto.
    + intros n. rewrite occurrences_nil. destruct (g !! n) as [[k succs]|]; simpl; [|done].
      do 2 f_equal; lia.
  - destruct (Hpre x) as (k & succs & Hx & Hk); [apply list_elem_of_here|].
    rewrite occurrences_cons, decide_True in Hk by done.
    simpl. rewrite Hx.
    set (g1 := <[x := ((k - 1)%Z, succs)]> g).
    set (rs1 := if decide ((k - 1)%Z = 0%Z) then x :: rs else rs).
    destruct (IH rs1 g1) as (freed & g' & Hrun & Hnd & Hfreed & Hg').
    { intros c Hc. unfold g1. destruct (decide (c = x)) as [->|Hne].
      - rewrite lookup_insert_eq. exists (k - 1)%Z, succs. split; [done|lia].
      - rewrite lookup_insert_ne by done.
        destruct (Hpre c) as (kc & sc & Hc' & Hkc); [by apply list_elem_of_further|].
        rewrite occurrences_cons, decide_False in Hkc by done.
        exists kc, sc. split; [done|lia]. }
    pose proof (occurrences_nonneg x ch) as Hnn.
    assert (∀ n, g' !! n =
              (λ e, ((e.1 - occurrences n (x :: ch))%Z, e.2)) <$> g !! n) as Hfinal.
    { intros n. rewrite Hg', occurrences_cons. unfold g1.
      destruct (decide (x = n)) as [->|Hne].
      - rewrite lookup_insert_eq, Hx. simpl. do 2 f_equal; lia.
      - rewrite lookup_insert_ne by done.
        destruct (g !! n) as [[kn sn]|]; simpl; [|done]. do 2 f_equal; lia. }
    assert (∀ n, n ≠ x →
              (n ∈ freed ↔ n ∈ x :: ch ∧
                 ∃ succs, g !! n = Some (occurrences n (x :: ch), succs))) as Hother.
    { intros n Hne. rewrite Hfreed, elem_of_cons, occurrences_cons.
      rewrite decide_False by done. unfold g1.
      rewrite lookup_insert_ne by done. rewrite Z.add_0_l. naive_solver. }
    rewrite Hrun. unfold rs1. destruct (decide ((k - 1)%Z = 0%Z)) as [Hz|Hz].
    + assert (x ∉ ch) as Hxch by (apply occurrences_zero; lia).
      assert (x ∉ freed) as Hxf by (rewrite Hfreed; tauto).
      exists (freed ++ [x]), g'. rewrite <- (assoc_L (++)). simpl.
      split_and!; [done| |  |done].
      * apply NoDup_app. split_and!; [done| |apply NoDup_singleton].
        intros n Hn ->%list_elem_of_singleton. done.
      * intros n. rewrite elem_of_app, list_elem_of_singleton.
        destruct (decide (n = x)) as [->|Hne].
        -- split; [|by right]. intros _. split; [apply list_elem_of_here|].
           exists succs. rewrite Hx, occurrences_cons, decide_True by done.
           do 2 f_equal. apply occurrences_zero in Hxch. lia.
        -- rewrite <- Hother by done. tauto.
    + exists freed, g'. split_and!; [done..| |done].
      intros n. destruct (decide (n = x)) as [->|Hne]; [|by apply Hother].
      rewrite Hfreed. unfold g1. rewrite lookup_insert_eq, Hx.
      rewrite occurrences_cons, decide_True by done. split.
      * intros [Hin [s' [= Hk' ->]]]. split; [apply list_elem_of_here|].
        exists s'. do 2 f_equal; lia.
      * intros [_ [s' [= Hk' ->]]].
        assert (occurrences x ch ≠ 0%Z) as Hnz by lia.
        rewrite occurrences_zero in Hnz. apply dec_stable in Hnz.
        split; [done|]. exists s'. do 2 f_equal; lia.
Qed.

(** *** Counting the arcs that are still pending *)

Lemma occurrences_app c l1 l2 :
  occurrences c (l1 ++ l2) = (occurrences c l1 + occurrences c l2)%Z.
Proof. unfold occurrences. rewrite filter_app, length_app. lia. Qed.

Lemma parents_of_single x y n :
  parents_of [(x, y)] n = if decide (y = n) then [x] else [].
Proof.
  unfold parents_of. rewrite filter_cons. simpl.
  by destruct (decide (y = n)).
Qed.

Lemma occurrences_children_parents A a c :
  occurrences c (children_of A a) = occurrences a (parents_of A c).
Proof.
  induction A as [|[x y] A IH]; [done|].
  change ((x, y) :: A) with ([(x, y)] ++ A).
  rewrite children_of_app, parents_of_app, !occurrences_app, IH.
  f_equal. rewrite children_of_single, parents_of_single.
  destruct (decide (x = a)) as [->|Hx], (decide (y = c)) as [->|Hy];
    rewrite ?occurrences_cons, ?occurrences_nil;
    repeat (destruct (decide _)); done || lia.
Qed.

Lemma pending_emit A out root n :
  root ∉ out →
  pending A (out ++ [root]) n =
    (pending A out n - occurrences n (children_of A root))%Z.
Proof.
  intros Hroot. induction A as [|[x y] A IH]; [done|].
  change ((x, y) :: A) with ([(x, y)] ++ A).
  rewrite !pending_app, children_of_app, occurrences_app, IH.
  rewrite !pending_single, children_of_single.
  destruct (decide (x = root)) as [->|Hx].
  - rewrite occurrences_cons, occurrences_nil.
    destruct (decide (y = n)) as [->|Hy].
    + rewrite (decide_True (P := n = n ∧ root ∉ out)) by done.
      rewrite decide_False; [lia|]. intros [_ Hn]. apply Hn.
      apply elem_of_app. right. apply list_elem_of_here.
    + rewrite !decide_False; [lia|by intros [? _]|by intros [? _]].
  - rewrite occurrences_nil.
    destruct (decide (y = n ∧ x ∉ out)) as [[-> Ho]|Hno].
    + rewrite decide_True; [lia|]. split; [done|].
      rewrite elem_of_app, list_elem_of_singleton. tauto.
    + rewrite decide_False; [lia|]. intros [-> Ho]. apply Hno.
      split; [done|]. intros ?. apply Ho. apply elem_of_app. by left.
Qed.

Lemma pending_zero_parent A out n a :
  pending A out n = 0%Z → (a, n) ∈ A → a ∈ out.
Proof.
  unfold pending. intros Hz Ha.
  apply elem_of_parents_of in Ha.
  destruct (decide (a ∈ out)) as [|Hno]; [done|].
  assert (a ∈ filter (λ a, a ∉ out) (parents_of A n)) as Hin.
  { by apply list_elem_of_filter. }
  destruct (filter _ _); [by apply elem_of_nil in Hin|]. simpl in Hz. lia.
Qed.

Lemma pending_pos_parent A out n a :
  (a, n) ∈ A → a ∉ out → (0 < pending A out n)%Z.
Proof.
  intros Ha Ho. pose proof (pending_nonneg A out n).
  destruct (decide (pending A out n = 0%Z)) as [Hz|]; [|lia].
  by pose proof (pending_zero_parent _ _ _ _ Hz Ha).
Qed.

Lemma pending_le_initial A out n : (pending A out n ≤ pending A [] n)%Z.
Proof.
  unfold pending.
  rewrite (filter_all (λ a, a ∉ [])) by (intros; apply not_elem_of_nil).
  pose proof (length_filter (λ a, a ∉ out) (parents_of A n)). lia.
Qed.

Lemma precedes_app_r {X} (a c : X) l l' :
  precedes a c l → precedes a c (l ++ l').
Proof.
  intros (l1 & l2 & -> & Ha). exists l1, (l2 ++ l').
  by rewrite <- (assoc_L (++)).
Qed.

(** *** One turn of the [while] loop *)

Section Walk.
Context (N : list node) (A : list (node * node)).
Hypothesis arcs_in_nodes : ∀ a c, (a, c) ∈ A → a ∈ N ∧ c ∈ N.

Lemma walk_step root rs g out :
  walk_inv N A (root :: rs) g out →
  ∃ freed g1,
    g !! root = Some (0%Z, children_of A root) ∧
    release_children (children_of A root) rs g = Ok (freed ++ rs, g1) ∧
    walk_inv N A (freed ++ rs) (delete root g1) (out ++ [root]) ∧
    NoDup freed ∧
    (∀ n, n ∈ freed ↔
          n ∈ children_of A root ∧ pending A (out ++ [root]) n = 0%Z) ∧
    S (size (delete root g1)) = size g.
Proof.
  intros [Hg Hout HoutN Hrnd Hroots Hord].
  destruct (proj1 (Hroots root) (list_elem_of_here _ _)) as (HrN & Hro & Hrp).
  apply NoDup_cons in Hrnd as [Hrrs Hrsnd].
  assert (g !! root = Some (0%Z, children_of A root)) as Hgroot.
  { rewrite (Hg root), decide_True by done. by rewrite Hrp. }
  assert (∀ c, c ∈ children_of A root → c ∈ N ∧ c ∉ out ∧ c ≠ root) as Hch.
  { intros c Hc%elem_of_children_of.
    destruct (arcs_in_nodes _ _ Hc) as [_ HcN]. split_and!; [done| |].
    - intros Hco. destruct (Hord _ _ Hc Hco) as (l1 & l2 & -> & Hr).
      apply Hro. apply elem_of_app. by left.
    - intros ->. pose proof (pending_pos_parent _ _ _ _ Hc Hro). lia. }
  assert (∀ n, n ∈ N → n ∉ out →
            g !! n = Some (pending A out n, children_of A n)) as Hglook.
  { intros n ? ?. by rewrite (Hg n), decide_True. }
  assert (∀ n, (occurrences n (children_of A root) ≤ pending A out n)%Z) as Hle.
  { intros n. pose proof (pending_emit A out root n Hro).
    pose proof (pending_nonneg A (out ++ [root]) n). lia. }
  destruct (release_children_spec (children_of A root) rs g)
    as (freed & g1 & Hrun & Hfnd & Hfreed & Hg1).
  { intros c Hc. destruct (Hch c Hc) as (? & ? & _).
    eexists _, _. split; [by apply Hglook|]. apply Hle. }
  assert (∀ n, n ∈ freed ↔
               n ∈ children_of A root ∧ pending A (out ++ [root]) n = 0%Z)
    as Hfreed'.
  { intros n. rewrite Hfreed, pending_emit by done. split.
    - intros [Hc [succs Hn]]. split; [done|].
      destruct (Hch n Hc) as (? & ? & _).
      rewrite Hglook in Hn by done. injection Hn as Hn _. lia.
    - intros [Hc Hz]. split; [done|]. destruct (Hch n Hc) as (? & ? & _).
      exists (children_of A n). rewrite Hglook by done. do 2 f_equal; lia. }
  exists freed, g1. split_and!; [done|done| |done|done|].
  - split.
    + intros n. rewrite pending_emit by done.
      destruct (decide (n = root)) as [->|Hne].
      * rewrite lookup_delete_eq. rewrite decide_False; [done|].
        intros [_ Hn]. apply Hn, elem_of_app. right. apply list_elem_of_here.
      * rewrite lookup_delete_ne by done. rewrite Hg1, (Hg n).
        destruct (decide (n ∈ N ∧ n ∉ out)) as [[? ?]|Hno]; simpl.
        -- rewrite decide_True; [done|]. split; [done|].
           rewrite elem_of_app, list_elem_of_singleton. tauto.
        -- rewrite decide_False; [done|]. intros [? Hn]. apply Hno.
           split; [done|]. intros ?. apply Hn, elem_of_app. by left.
    + apply NoDup_app. split_and!; [done| |apply NoDup_singleton].
      by intros n Hn ->%list_elem_of_singleton.
    + intros n [?|Hn%list_elem_of_singleton]%elem_of_app; [auto|by subst].
    + apply NoDup_app. split_and!; [done| |done].
      intros n [Hc Hz]%Hfreed' Hn.
      assert (n ∈ root :: rs) as Hn' by (by apply list_elem_of_further).
      apply Hroots in Hn' as (_ & _ & Hp).
      rewrite pending_emit in Hz by done.
      assert (occurrences n (children_of A root) = 0%Z) as Ho by lia.
      by apply occurrences_zero in Ho.
    + intros n. rewrite elem_of_app, Hfreed'. split.
      * intros [[Hc Hz]|Hn].
        -- destruct (Hch n Hc) as (? & ? & ?). split_and!; [done| |done].
           rewrite elem_of_app, list_elem_of_singleton. tauto.
        -- assert (n ≠ root) by (by intros ->).
           assert (n ∈ root :: rs) as Hn' by (by apply list_elem_of_further).
           apply Hroots in Hn' as (? & ? & Hp). split_and!; [done| |].
           ++ rewrite elem_of_app, list_elem_of_singleton. tauto.
           ++ rewrite pending_emit by done.
              pose proof (Hle n).
              pose proof (occurrences_nonneg n (children_of A root)). lia.
      * intros (HnN & Hno & Hz). rewrite elem_of_app, list_elem_of_singleton in Hno.
        assert (n ∉ out ∧ n ≠ root) as [Hno' Hne] by tauto.
        destruct (decide (n ∈ children_of A root)) as [Hc|Hc]; [by left|].
        right. apply occurrences_zero in Hc.
        rewrite pending_emit in Hz by done.
        assert (n ∈ root :: rs) as Hn'.
        { apply Hroots. split_and!; [done..|lia]. }
        by apply elem_of_cons in Hn' as [?|?].
    + intros a c Hac [Hc|Hc%list_elem_of_singleton]%elem_of_app; [|subst c].
      * by apply precedes_app_r, Hord.
      * exists out, []. split; [done|].
        by apply (pending_zero_parent A out root a).
  - rewrite map_size_delete_Some.
    2:{ rewrite Hg1, Hgroot. by eexists. }
    assert (dom g1 = dom g) as Hdom.
    { apply set_eq. intros n. rewrite !elem_of_dom, Hg1.
      by rewrite fmap_is_Some. }
    rewrite <- (size_dom (D := gset node) g1), Hdom, size_dom.
    assert (size g ≠ 0); [|lia].
    apply map_size_non_empty_iff. intros ->. by rewrite lookup_empty in Hgroot.
Qed.

Lemma initial_roots_step R0 root rs freed out :
  (∀ n, n ∈ freed → n ∉ R0) →
  initial_roots_inv R0 (root :: rs) out →
  initial_roots_inv R0 (freed ++ rs) (out ++ [root]).
Proof.
  intros Hfreed (k & pre & Hroots & Hout & Hpre).
  destruct pre as [|p pre]; simpl in Hroots.
  - assert (R0 !! k = Some root) as Hk.
    { rewrite <- (Nat.add_0_r k), <- lookup_drop, <- Hroots. done. }
    exists (S k), freed. split_and!; [|  |done].
    + f_equal. rewrite (drop_S _ _ _ Hk) in Hroots. by injection Hroots.
    + rewrite filter_app, Hout, (take_S_r _ _ _ Hk). f_equal.
      rewrite filter_cons_True; [done|]. by eapply list_elem_of_lookup_2.
  - injection Hroots as <- ->. exists k, (freed ++ pre). split_and!.
    + by rewrite <- (assoc_L (++)).
    + rewrite filter_app, Hout, filter_cons_False, filter_nil, app_nil_r; [done|].
      apply Hpre, list_elem_of_here.
    + intros n [?|?]%elem_of_app; [by apply Hfreed|].
      by apply Hpre, list_elem_of_further.
Qed.

(** The loop ends, without an exception, in a state that satisfies the
    invariant and has no root left. *)
Lemma traverse_spec R0 fuel : ∀ roots g out,
  (∀ n, n ∈ R0 → pending A [] n = 0%Z) →
  walk_inv N A roots g out → initial_roots_inv R0 roots out →
  size g ≤ fuel →
  ∃ out' g',
    traverse fuel roots g out = Some (Ok (out', g')) ∧
    walk_inv N A [] g' out' ∧
    filter (λ n, n ∈ R0) out' = R0.
Proof.
  intros roots g out HR0. revert roots g out.
  assert (∀ out, initial_roots_inv R0 [] out →
                 filter (λ n, n ∈ R0) out = R0) as Hend.
  { intros out (k & pre & Hroots & Hout & _).
    symmetry in Hroots. apply app_eq_nil in Hroots as [_ Hdrop].
    rewrite Hout. apply take_ge. by apply drop_nil_inv. }
  induction fuel as [|fuel IH]; intros roots g out Hinv Hinit Hsize.
  - destruct roots as [|root rs]; [exists out, g; eauto|].
    destruct (walk_step _ _ _ _ Hinv) as (? & ? & _ & _ & _ & _ & _ & Hs). lia.
  - destruct roots as [|root rs]; [exists out, g; eauto|].
    destruct (walk_step _ _ _ _ Hinv)
      as (freed & g1 & Hroot & Hrun & Hinv' & _ & Hfreed & Hs).
    simpl. rewrite Hroot, Hrun. apply IH; [done| |lia].
    apply initial_roots_step; [|done].
    intros n [Hc%elem_of_children_of _]%Hfreed Hn.
    pose proof (pending_pos_parent A [] n root Hc (not_elem_of_nil _)).
    specialize (HR0 n Hn). lia.
Qed.

End Walk.

Lemma pending_initial_zero A n : pending A [] n = 0%Z ↔ n ∉ A.*2.
Proof.
  split.
  - intros Hz [[a c] [-> Hin]]%list_elem_of_fmap. simpl in *.
    by pose proof (pending_zero_parent A [] c a Hz Hin) as ?%elem_of_nil.
  - intros Hn. pose proof (pending_nonneg A [] n).
    destruct (decide (pending A [] n = 0%Z)) as [|Hnz]; [done|].
    unfold pending in Hnz. destruct (filter _ _) as [|a l] eqn:Hf; [done|].
    assert (a ∈ filter (λ a, a ∉ []) (parents_of A n)) as Ha.
    { rewrite Hf. apply list_elem_of_here. }
    apply list_elem_of_filter in Ha as [_ Ha%elem_of_parents_of].
    exfalso. apply Hn. apply list_elem_of_fmap. by exists (a, n).
Qed.

Lemma filter_ext_in {X} (F G : X → Prop) `{!∀ z, Decision (F z)}
    `{!∀ z, Decision (G z)} (l : list X) :
  (∀ z, z ∈ l → F z ↔ G z) → filter F l = filter G l.
Proof.
  induction l as [|z l IH]; intros Hext; [done|].
  rewrite !filter_cons.
  rewrite IH by (intros y Hy; by apply Hext, list_elem_of_further).
  pose proof (Hext z (list_elem_of_here _ _)).
  destruct (decide (F z)), (decide (G z)); tauto || done.
Qed.

Lemma precedes_filter {X} (F : X → Prop) `{!∀ z, Decision (F z)} a c l :
  precedes a c l → F a → F c → precedes a c (filter F l).
Proof.
  intros (l1 & l2 & -> & Ha) HFa HFc.
  exists (filter F l1), (filter F l2).
  rewrite filter_app, filter_cons_True by done. split; [done|].
  by apply list_elem_of_filter.
Qed.

(** *** [sorted] as a whole *)

Lemma arcs_in_all_names {V} (s : t V) a c :
  (a, c) ∈ arcs s → a ∈ all_names s ∧ c ∈ all_names s.
Proof. unfold arcs. rewrite elem_of_linked. tauto. Qed.

(** The graph is always built, and the [while] loop always ends, without
    an exception: [out] and [g'] are [sorted_names] and [graph] at its
    end. *)
Lemma sorted_loop {V} (s : t V) :
  ∃ R0 b out g',
    build_graph s = Ok b ∧
    roots b = filter (λ n, n ∉ (arcs s).*2) R0 ∧
    has_before b = list_to_set (arcs s).*1 ∧
    has_after b = list_to_set (arcs s).*2 ∧
    traverse (size (graph b)) (roots b) (graph b) [] = Some (Ok (out, g')) ∧
    NoDup R0 ∧ (∀ n, n ∈ R0 ↔ n ∈ all_names s) ∧
    (NoDup (all_names s) → R0 = all_names s) ∧
    walk_inv (all_names s) (arcs s) [] g' out ∧
    filter (λ n, n ∈ roots b) out = roots b.
Proof.
  destruct (build_graph_spec s) as (R0 & g & Hbuild & Hg & Hnd & HR0 & HeqN).
  set (roots0 := filter (λ n, n ∉ (arcs s).*2) R0) in *.
  assert (walk_inv (all_names s) (arcs s) roots0 g []) as Hinv.
  { split; [done|apply NoDup_nil_2| |by apply NoDup_filter| |].
    - by intros n ?%elem_of_nil.
    - intros n. unfold roots0. rewrite list_elem_of_filter, HR0.
      rewrite pending_initial_zero. pose proof (not_elem_of_nil n). tauto.
    - by intros a c _ ?%elem_of_nil. }
  destruct (traverse_spec (all_names s) (arcs s) (arcs_in_all_names s)
              roots0 (size g) roots0 g []) as (out & g' & Hrun & Hinv' & Hfilter).
  - intros n [Hn _]%list_elem_of_filter. by apply pending_initial_zero.
  - done.
  - exists 0, []. split_and!; [done|done|by intros n ?%elem_of_nil].
  - done.
  - eexists R0, _, out, g'. split; [exact Hbuild|]. simpl.
    split_and!; done.
Qed.

(** [sorted] never runs out of fuel and raises nothing but its two
    configuration errors and the cycle error, except for a name that has
    no value. *)
Lemma sorted_walk {V} (s : t V) :
  ∃ R0 out g',
    NoDup R0 ∧ (∀ n, n ∈ R0 ↔ n ∈ all_names s) ∧
    (NoDup (all_names s) → R0 = all_names s) ∧
    walk_inv (all_names s) (arcs s) [] g' out ∧
    filter (λ n, n ∈ filter (λ n, n ∉ (arcs s).*2) R0) out =
      filter (λ n, n ∉ (arcs s).*2) R0 ∧
    sorted s =
      if decide (req_before s ⊆ list_to_set (arcs s).*1) then
        if decide (req_after s ⊆ list_to_set (arcs s).*2) then
          if decide (g' = ∅) then Some (collect s out)
          else Some (Raise (CyclicDependencyError (snd <$> g')))
        else Some (Raise (ConfigurationError After
                            (req_after s ∖ list_to_set (arcs s).*2)))
      else Some (Raise (ConfigurationError Before
                          (req_before s ∖ list_to_set (arcs s).*1))).
Proof.
  destruct (sorted_loop s)
    as (R0 & b & out & g' & Hb & Hr & Hhb & Hha & Hrun & ? & ? & ? & ? & Hf).
  exists R0, out, g'. rewrite Hr in Hf. split_and!; [done..|].
  unfold sorted. rewrite Hb, Hrun, Hhb, Hha.
  repeat (destruct (decide _)); done.
Qed.

End GraphFacts.

(** ** TopologicalSorter: [add] and [remove] *)

Module SorterFacts.
Import TopologicalSorter SorterSpec GraphFacts.

Section Sorter.
Context {V : Type}.
Implicit Types (s self : t V) (name n : node) (d : dict V).

Lemma dict_set_fresh name (v : V) d :
  name ∉ d.*1 → dict_set name v d = d ++ [(name, v)].
Proof.
  induction d as [|[k w] d IH]; [done|].
  intros [Hk Hd]%not_elem_of_cons. simpl in *.
  rewrite decide_False by done. by rewrite IH.
Qed.

Lemma dict_del_spec name d :
  NoDup d.*1 → name ∈ d.*1 →
  dict_del name d = Some (filter (λ kv, kv.1 ≠ name) d).
Proof.
  induction d as [|[k w] d IH]; [by intros _ ?%elem_of_nil|].
  rewrite fmap_cons. intros [Hk Hnd]%NoDup_cons Hin.
  cbn [dict_del fst] in *.
  destruct (decide (name = k)) as [->|Hne].
  - rewrite filter_cons_False by (by intros ?).
    f_equal. symmetry. apply filter_all. intros [k' w'] Hkw. cbn [fst].
    intros ->. apply Hk. apply list_elem_of_fmap. by exists (k, w').
  - apply elem_of_cons in Hin as [?|Hin]; [done|].
    rewrite IH by done. rewrite filter_cons_True; [done|]. cbn [fst]. congruence.
Qed.

Lemma dict_get_is_Some name d :
  name ∈ d.*1 → is_Some (dict_get name d).
Proof.
  induction d as [|[k w] d IH]; [by intros ?%elem_of_nil|].
  simpl. intros Hin. destruct (decide (name = k)); [by eexists|].
  apply elem_of_cons in Hin as [?|?]; [done|by apply IH].
Qed.

Lemma fst_filter_key name d :
  (filter (λ kv, kv.1 ≠ name) d).*1 = filter (λ n, n ≠ name) d.*1.
Proof.
  induction d as [|[k w] d IH]; [done|].
  rewrite fmap_cons, !filter_cons. cbn [fst].
  destruct (decide (k ≠ name)); rewrite ?fmap_cons, IH; done.
Qed.

Lemma remove_arcs_perm (arcs rest order : list (node * node)) :
  order ≡ₚ arcs ++ rest →
  ∃ o, remove_arcs arcs order = Ok o ∧ o ≡ₚ rest.
Proof.
  revert order. induction arcs as [|a arcs IH]; intros order Hp.
  - by exists order.
  - assert (a ∈ order) as Ha by (rewrite Hp; apply list_elem_of_here).
    destruct (list_remove_first_spec a order Ha) as (l1 & l2 & _ & _ & Hrm).
    simpl. rewrite Hrm. apply IH.
    apply list_remove_first_perm in Hrm. rewrite Hrm in Hp. simpl in Hp.
    by apply Permutation_cons_inv in Hp.
Qed.

Lemma flat_map_ext_in {X Y} (f g : X → list Y) (l : list X) :
  (∀ z, z ∈ l → f z = g z) → flat_map f l = flat_map g l.
Proof.
  induction l as [|z l IH]; intros Hext; [done|].
  simpl. rewrite (Hext z) by apply list_elem_of_here.
  f_equal. apply IH. intros. by apply Hext, list_elem_of_further.
Qed.

Lemma forget_after_spec self name rest :
  (default [] (name2after self !! name) ≠ [] → name ∈ req_after self) →
  order self ≡ₚ
    ((λ u, (u, name)) <$> default [] (name2after self !! name)) ++ rest →
  ∃ o, o ≡ₚ rest ∧
    forget_after self name =
      Ok {| names := names self; req_before := req_before self;
            req_after := if decide (default [] (name2after self !! name) = [])
                         then req_after self else req_after self ∖ {[name]};
            name2before := name2before self;
            name2after := delete name (name2after self);
            name2val := name2val self; order := o;
            default_before := default_before self;
            default_after := default_after self;
            first := first self; last := last self |}.
Proof.
  intros Hreq Hp. unfold forget_after.
  destruct (decide (default [] (name2after self !! name) = [])) as [Hnil|Hne].
  - exists (order self). split; [|done]. by rewrite Hnil in Hp.
  - rewrite decide_True by auto.
    destruct (remove_arcs_perm _ _ _ Hp) as (o & -> & Ho). by exists o.
Qed.

Lemma forget_before_spec self name rest :
  (default [] (name2before self !! name) ≠ [] → name ∈ req_before self) →
  order self ≡ₚ
    ((λ u, (name, u)) <$> default [] (name2before self !! name)) ++ rest →
  ∃ o, o ≡ₚ rest ∧
    forget_before self name =
      Ok {| names := names self;
            req_before := if decide (default [] (name2before self !! name) = [])
                          then req_before self else req_before self ∖ {[name]};
            req_after := req_after self;
            name2before := delete name (name2before self);
            name2after := name2after self;
            name2val := name2val self; order := o;
            default_before := default_before self;
            default_after := default_after self;
            first := first self; last := last self |}.
Proof.
  intros Hreq Hp. unfold forget_before.
  destruct (decide (default [] (name2before self !! name) = [])) as [Hnil|Hne].
  - exists (order self). split; [|done]. by rewrite Hnil in Hp.
  - rewrite decide_True by auto.
    destruct (remove_arcs_perm _ _ _ Hp) as (o & -> & Ho). by exists o.
Qed.

Lemma default_nonempty_is_Some (m : gmap node (list node)) n :
  default [] (m !! n) ≠ [] → is_Some (m !! n).
Proof. destruct (m !! n); [by eexists|done]. Qed.

Lemma declared_by_delete s s' name n :
  name2after s' = delete name (name2after s) →
  name2before s' = delete name (name2before s) →
  n ≠ name → declared_by s' n = declared_by s n.
Proof.
  intros Ha Hb Hne. unfold declared_by.
  by rewrite Ha, Hb, !lookup_delete_ne.
Qed.

Lemma remove_spec s name :
  wf s → name ∈ names s →
  ∃ s', remove s name = Ok s' ∧ stripped s name s' ∧ wf s'.
Proof.
  intros [Hnd Hvals Hafter Hbefore Horder] Hin.
  destruct (list_remove_first_spec name _ Hin) as (l1 & l2 & Hnames & _ & Hrm).
  pose proof (list_remove_first_filter _ _ _ Hnd Hrm) as Hfilter.
  unfold remove. rewrite Hrm.
  rewrite dict_del_spec by (by rewrite Hvals).
  set (rest := flat_map (declared_by s) l1 ++ flat_map (declared_by s) l2).
  assert (order s ≡ₚ declared_by s name ++ rest) as Hp.
  { rewrite Horder, Hnames, flat_map_app. simpl. unfold rest.
    rewrite !(assoc_L (++)).
    by rewrite (Permutation_app_comm (flat_map _ l1) (declared_by s name)). }
  unfold declared_by in Hp at 1. rewrite <- (assoc_L (++)) in Hp.
  edestruct (forget_after_spec) as (o1 & Ho1 & ->); [|exact Hp|]; simpl.
  { intros Hne%default_nonempty_is_Some. by apply Hafter. }
  edestruct (forget_before_spec) as (o2 & Ho2 & ->); simpl; [|exact Ho1|].
  { intros Hne%default_nonempty_is_Some. by apply Hbefore. }
  eexists. split; [done|].
  assert (l1 ++ l2 = filter (λ n, n ≠ name) (names s)) as Hl by done.
  split.
  - split; simpl; try done. exists rest. split; [|done].
    unfold declared_by. by rewrite <- (assoc_L (++)).
  - split; simpl.
    + rewrite Hl. by apply NoDup_filter.
    + by rewrite fst_filter_key, Hvals, Hl.
    + intros n [Hne Hn]%lookup_delete_is_Some.
      destruct (Hafter n Hn) as [HnN Hnr]. split.
      * rewrite Hl. by apply list_elem_of_filter.
      * destruct (decide _); [done|]. set_solver.
    + intros n [Hne Hn]%lookup_delete_is_Some.
      destruct (Hbefore n Hn) as [HnN Hnr]. split.
      * rewrite Hl. by apply list_elem_of_filter.
      * destruct (decide _); [done|]. set_solver.
    + etrans; [exact Ho2|]. rewrite flat_map_app. unfold rest. f_equiv.
      * apply reflexive_eq, flat_map_ext_in. intros n Hn. symmetry.
        apply (declared_by_delete _ _ name); [done..|]. intros ->.
        rewrite Hnames in Hnd. apply NoDup_app in Hnd as (_ & Hnd & _).
        apply (Hnd name Hn), list_elem_of_here.
      * apply reflexive_eq, flat_map_ext_in. intros n Hn. symmetry.
        apply (declared_by_delete _ _ name); [done..|]. intros ->.
        rewrite Hnames in Hnd. apply NoDup_app in Hnd as (_ & _ & Hnd).
        by apply NoDup_cons in Hnd as [? _].
Qed.

Lemma wf_unregistered s name :
  wf s → name ∉ names s →
  name2after s !! name = None ∧ name2before s !! name = None.
Proof.
  intros Hwf Hn. split; apply eq_None_not_Some; intros Hs.
  - by apply (wf_after _ Hwf) in Hs as [? _].
  - by apply (wf_before _ Hwf) in Hs as [? _].
Qed.

Lemma add_unfold s name val after before :
  add s name val after before =
    s0 ← (if decide (name ∈ names s) then remove s name else Ok s);
    Ok (inserted s0 name val (with_defaults s0 after before).1
                             (with_defaults s0 after before).2).
Proof.
  unfold add. destruct (if decide _ then _ else _) as [s0|e]; [|done].
  simpl. unfold inserted.
  assert (with_defaults (enter s0 name val) after before
          = with_defaults s0 after before) as -> by done.
  by destruct (with_defaults s0 after before).
Qed.

Lemma inserted_names s name val a b :
  names (inserted s name val a b) = names s ++ [name].
Proof. by destruct a, b. Qed.

Lemma inserted_vals s name val a b :
  name2val (inserted s name val a b) = dict_set name val (name2val s).
Proof. by destruct a, b. Qed.

Lemma inserted_after s name val a b :
  name2after (inserted s name val a b) =
    match a with
    | Some a => <[name := as_iterable a]> (name2after s)
    | None => name2after s
    end.
Proof. by destruct a, b. Qed.

Lemma inserted_before s name val a b :
  name2before (inserted s name val a b) =
    match b with
    | Some b => <[name := as_iterable b]> (name2before s)
    | None => name2before s
    end.
Proof. by destruct a, b. Qed.

Lemma inserted_req_after s name val a b :
  req_after (inserted s name val a b) =
    match a with
    | Some _ => {[name]} ∪ req_after s
    | None => req_after s
    end.
Proof. by destruct a, b. Qed.

Lemma inserted_req_before s name val a b :
  req_before (inserted s name val a b) =
    match b with
    | Some _ => {[name]} ∪ req_before s
    | None => req_before s
    end.
Proof. by destruct a, b. Qed.

Lemma inserted_order s name val a b :
  order (inserted s name val a b) =
    order s ++ ((λ u, (u, name)) <$> from_option as_iterable [] a)
            ++ ((λ o, (name, o)) <$> from_option as_iterable [] b).
Proof.
  destruct a, b; simpl; by rewrite ?app_nil_r, <- ?(assoc_L (++)).
Qed.


Lemma inserted_wf s name val a b :
  wf s → name ∉ names s → wf (inserted s name val a b).
Proof.
  intros Hwf Hn. destruct (wf_unregistered s name Hwf Hn) as [Ha Hb].
  destruct Hwf as [Hnd Hvals Hafter Hbefore Horder].
  split.
  - rewrite inserted_names. apply NoDup_app. split_and!; [done| |apply NoDup_singleton].
    by intros n ? ->%list_elem_of_singleton.
  - rewrite inserted_names, inserted_vals, dict_set_fresh by (by rewrite Hvals).
    by rewrite fmap_app, Hvals.
  - intros n. rewrite inserted_names, inserted_after, inserted_req_after.
    rewrite elem_of_app, list_elem_of_singleton. destruct a as [a|].
    + destruct (decide (n = name)) as [->|Hne]; [set_solver|].
      rewrite lookup_insert_ne by done. intros [? ?]%Hafter. set_solver.
    + intros [? ?]%Hafter. auto.
  - intros n. rewrite inserted_names, inserted_before, inserted_req_before.
    rewrite elem_of_app, list_elem_of_singleton. destruct b as [b|].
    + destruct (decide (n = name)) as [->|Hne]; [set_solver|].
      rewrite lookup_insert_ne by done. intros [? ?]%Hbefore. set_solver.
    + intros [? ?]%Hbefore. auto.
  - rewrite inserted_names, inserted_order, flat_map_app. simpl.
    rewrite app_nil_r. f_equiv.
    + etrans; [exact Horder|]. apply reflexive_eq, flat_map_ext_in.
      intros n Hin. assert (n ≠ name) by (by intros ->).
      unfold declared_by. rewrite inserted_after, inserted_before.
      destruct a, b; by rewrite ?lookup_insert_ne.
    + apply reflexive_eq. unfold declared_by.
      rewrite inserted_after, inserted_before.
      destruct a, b; by rewrite ?lookup_insert_eq, ?Ha, ?Hb.
Qed.

Lemma add_spec s name val after before :
  wf s →
  ∃ s0, (if decide (name ∈ names s)
         then remove s name = Ok s0 ∧ stripped s name s0
         else s0 = s) ∧
        wf s0 ∧ name ∉ names s0 ∧
        add s name val after before =
          Ok (inserted s0 name val (with_defaults s0 after before).1
                                   (with_defaults s0 after before).2) ∧
        wf (inserted s0 name val (with_defaults s0 after before).1
                                 (with_defaults s0 after before).2).
Proof.
  intros Hwf. rewrite add_unfold.
  destruct (decide (name ∈ names s)) as [Hin|Hin].
  - destruct (remove_spec s name Hwf Hin) as (s0 & Hrm & Hst & Hwf0).
    assert (name ∉ names s0) as Hn0.
    { rewrite (st_names _ _ _ Hst), list_elem_of_filter. by intros [? _]. }
    exists s0. rewrite Hrm. split_and!; [done..|]. by apply inserted_wf.
  - exists s. split_and!; [done..|]. by apply inserted_wf.
Qed.

Lemma init_wf db da f l : wf (__init__ (V := V) db da f l).
Proof.
  split; simpl; [apply NoDup_nil_2|done| | |done];
    intros n; rewrite lookup_empty; by intros [? ?].
Qed.

Lemma do_call_wf s c s' o :
  wf s → do_call s c = Ok (s', o) → wf s'.
Proof.
  intros Hwf. destruct c as [name val after before|name| |]; simpl.
  - destruct (add_spec s name val after before Hwf) as (s0 & _ & _ & _ & -> & Hwf').
    simpl. by intros [= <- _].
  - destruct (decide (name ∈ names s)) as [Hin|Hin].
    + destruct (remove_spec s name Hwf Hin) as (s0 & -> & _ & Hwf').
      simpl. by intros [= <- _].
    + unfold remove. apply list_remove_first_None in Hin. by rewrite Hin.
  - by intros [= <- _].
  - by intros [= <- _].
Qed.

Lemma do_calls_wf cs : ∀ s s' os,
  wf s → do_calls s cs = Ok (s', os) → wf s'.
Proof.
  induction cs as [|c cs IH]; intros s s' os Hwf; simpl.
  - by intros [= <- _].
  - destruct (do_call s c) as [[s1 o]|e] eqn:Hc; [|done]. simpl.
    destruct (do_calls s1 cs) as [[s2 os']|e] eqn:Hcs; [|done]. simpl.
    intros [= <- _]. eapply IH; [|done]. by eapply do_call_wf.
Qed.

(** *** What [sorted] returns *)

Lemma collect_fst s out res :
  collect s out = Ok res → res.*1 = filter (λ n, n ∈ names s) out.
Proof.
  revert res. induction out as [|n out IH]; intros res; simpl.
  - by intros [= <-].
  - rewrite filter_cons. destruct (decide (n ∈ names s)) as [Hn|Hn]; [|apply IH].
    destruct (dict_get n (name2val s)) as [v|]; [|done].
    destruct (collect s out) as [r|e]; [|done]. simpl.
    intros [= <-]. rewrite fmap_cons. simpl. f_equal. by apply IH.
Qed.

Lemma collect_ok s out :
  wf s → ∃ res, collect s out = Ok res.
Proof.
  intros Hwf. induction out as [|n out [res IH]]; [by eexists|].
  simpl. destruct (decide (n ∈ names s)) as [Hn|Hn]; [|by eexists].
  destruct (dict_get_is_Some n (name2val s)) as [v ->].
  { by rewrite (wf_vals _ Hwf). }
  rewrite IH. by eexists.
Qed.

Lemma elem_of_names_all s n : n ∈ names s → n ∈ all_names s.
Proof. intros ?. by do 2 apply list_elem_of_further. Qed.

Lemma elem_of_order_arcs s a c :
  (a, c) ∈ order s → a ∈ all_names s → c ∈ all_names s → (a, c) ∈ arcs s.
Proof.
  intros Ho Ha Hc. apply elem_of_linked. split_and!; [|done..].
  by apply list_elem_of_further.
Qed.

(** A sort that returns: the loop emitted every node, each after the
    sources of its arcs, and left the graph empty. *)
Lemma sorted_returns s res :
  sorted s = Some (Ok res) →
  ∃ out, walk_inv (all_names s) (arcs s) [] ∅ out ∧
         (∀ n, n ∈ all_names s → n ∈ out) ∧
         collect s out = Ok res ∧
         ∃ R0, (NoDup (all_names s) → R0 = all_names s) ∧
               filter (λ n, n ∈ filter (λ n, n ∉ (arcs s).*2) R0) out =
                 filter (λ n, n ∉ (arcs s).*2) R0.
Proof.
  destruct (sorted_walk s) as (R0 & out & g' & _ & _ & HR0 & Hinv & Hf & ->).
  repeat (destruct (decide _)); try done. subst g'.
  intros [= Hc]. exists out. split_and!; [done| |done|by exists R0].
  intros n Hn. destruct (decide (n ∈ out)) as [|Hno]; [done|].
  pose proof (wi_graph _ _ _ _ _ Hinv n) as Hg.
  rewrite lookup_empty, decide_True in Hg; done.
Qed.

Lemma declared_after_in_order s X Y ys :
  wf s → X ∈ names s → name2after s !! X = Some ys → Y ∈ ys →
  (Y, X) ∈ order s.
Proof.
  intros Hwf HX Hys HY. rewrite (wf_order _ Hwf).
  apply list_elem_of_In, in_flat_map. exists X.
  split; [by apply list_elem_of_In|]. apply list_elem_of_In.
  unfold declared_by. rewrite Hys. apply elem_of_app. left.
  apply list_elem_of_fmap. by exists Y.
Qed.

Lemma declared_before_in_order s X Y ys :
  wf s → X ∈ names s → name2before s !! X = Some ys → Y ∈ ys →
  (X, Y) ∈ order s.
Proof.
  intros Hwf HX Hys HY. rewrite (wf_order _ Hwf).
  apply list_elem_of_In, in_flat_map. exists X.
  split; [by apply list_elem_of_In|]. apply list_elem_of_In.
  unfold declared_by. rewrite Hys. apply elem_of_app. right.
  apply list_elem_of_fmap. by exists Y.
Qed.

Lemma sorted_arc_precedes s res a c :
  sorted s = Some (Ok res) → (a, c) ∈ order s →
  a ∈ names s → c ∈ names s → precedes a c res.*1.
Proof.
  intros (out & Hinv & Hall & Hc & _)%sorted_returns Ho Ha Hcn.
  rewrite (collect_fst _ _ _ Hc). apply precedes_filter; [|done..].
  apply (wi_order _ _ _ _ _ Hinv).
  - apply elem_of_order_arcs; [done|by apply elem_of_names_all..].
  - by apply Hall, elem_of_names_all.
Qed.

(** C3: whenever [sorted] returns a list, an entry [X] with a constraint
    [after=Y] on a registered name [Y] stands after [Y] in it, and one with
    [before=Y] stands before [Y]; for every sorter that calls of [add],
    [remove], [sorted] and [values] have made. *)
Theorem sorted_respects_constraints db da f l cs s os res X Y :
  do_calls (__init__ db da f l) cs = Ok (s, os) →
  sorted s = Some (Ok res) →
  X ∈ names s → Y ∈ names s →
  ((∃ ys, name2after s !! X = Some ys ∧ Y ∈ ys) → precedes Y X res.*1) ∧
  ((∃ ys, name2before s !! X = Some ys ∧ Y ∈ ys) → precedes X Y res.*1).
Proof.
  intros Hcalls Hsorted HX HY.
  assert (wf s) as Hwf by (eapply do_calls_wf; [apply init_wf|done]).
  split; intros (ys & Hys & Hin).
  - eapply sorted_arc_precedes; [done| |done..].
    by eapply declared_after_in_order.
  - eapply sorted_arc_precedes; [done| |done..].
    by eapply declared_before_in_order.
Qed.

(** *** What is left of the graph when the loop ends *)

Lemma residual_spec N (A : list (node * node)) g' out :
  (∀ a c, (a, c) ∈ A → a ∈ N ∧ c ∈ N) →
  walk_inv N A [] g' out →
  (∀ k, k ∈ dom g' ↔ k ∈ N ∧ k ∉ out) ∧
  (∀ k, k ∈ dom g' → ∃ a, (a, k) ∈ A ∧ a ∈ dom g') ∧
  (∀ k, k ∈ dom g' →
        (snd <$> g') !! k = Some (children_of A k) ∧
        ∀ c, c ∈ children_of A k → c ∈ dom g').
Proof.
  intros HA [Hg _ _ _ Hroots Hord].
  assert (∀ k, k ∈ dom g' ↔ k ∈ N ∧ k ∉ out) as Hdom.
  { intros k. rewrite elem_of_dom, (Hg k).
    destruct (decide (k ∈ N ∧ k ∉ out)) as [|Hno]; [by split; eauto|].
    split; [by intros [? ?]|done]. }
  split_and!; [done| |].
  - intros k [HkN Hko]%Hdom.
    assert (pending A out k ≠ 0%Z) as Hp.
    { intros Hz. by apply (not_elem_of_nil k), Hroots. }
    unfold pending in Hp.
    destruct (filter (λ a, a ∉ out) (parents_of A k)) as [|a l] eqn:Hf; [done|].
    assert (a ∈ filter (λ a, a ∉ out) (parents_of A k)) as Ha.
    { rewrite Hf. apply list_elem_of_here. }
    apply list_elem_of_filter in Ha as [Hao Ha%elem_of_parents_of].
    exists a. split; [done|]. apply Hdom. split; [|done]. by apply (HA a k).
  - intros k [HkN Hko]%Hdom. split.
    + rewrite lookup_fmap, (Hg k), decide_True by done. done.
    + intros c Hc%elem_of_children_of. apply Hdom. split; [by apply (HA k c)|].
      intros Hco. destruct (Hord k c Hc Hco) as (l1 & l2 & -> & Hk).
      apply Hko, elem_of_app. by left.
Qed.

Lemma sorted_loop_unique s b out g' :
  build_graph s = Ok b →
  traverse (size (graph b)) (roots b) (graph b) [] = Some (Ok (out, g')) →
  has_before b = list_to_set (arcs s).*1 ∧
  has_after b = list_to_set (arcs s).*2 ∧
  walk_inv (all_names s) (arcs s) [] g' out.
Proof.
  intros Hb Hrun.
  destruct (sorted_loop s)
    as (R0 & b' & out' & g'' & Hb' & _ & Hhb & Hha & Hrun' & _ & _ & _ & Hinv & _).
  rewrite Hb in Hb'. injection Hb' as <-.
  rewrite Hrun in Hrun'. by injection Hrun' as <- <-.
Qed.

(** C4: when the loop has emitted every node it could and the graph is not
    empty, [sorted] raises [CyclicDependencyError] with the rest of the
    graph: the nodes that were not emitted, each with an arc from another
    such node, mapped to their successors, none of which was emitted
    either.  Adding [a] after [b] and [b] after [a] gives the error with
    [{a: [b], b: [a]}]. *)
Theorem sorted_reports_cycle :
  (∀ s b out g',
     build_graph s = Ok b →
     req_before s ⊆ has_before b → req_after s ⊆ has_after b →
     traverse (size (graph b)) (roots b) (graph b) [] = Some (Ok (out, g')) →
     g' ≠ ∅ →
     sorted s = Some (Raise (CyclicDependencyError (snd <$> g'))) ∧
     (∀ k, k ∈ dom g' ↔ k ∈ all_names s ∧ k ∉ out) ∧
     (∀ k, k ∈ dom g' → ∃ a, (a, k) ∈ arcs s ∧ a ∈ dom g') ∧
     (∀ k, k ∈ dom g' →
           (snd <$> g') !! k = Some (children_of (arcs s) k) ∧
           ∀ c, c ∈ children_of (arcs s) k → c ∈ dom g')) ∧
  (∀ va vb : V,
     ∃ s os,
       do_calls new [CallAdd (Name "a") va (Some (One (Name "b"))) None;
                     CallAdd (Name "b") vb (Some (One (Name "a"))) None]
         = Ok (s, os) ∧
       sorted s = Some (Raise (CyclicDependencyError
                                 {[Name "a" := [Name "b"];
                                   Name "b" := [Name "a"]]}))).
Proof.
  split.
  - intros s b out g' Hb Hbefore Hafter Hrun Hne.
    destruct (sorted_loop_unique s b out g' Hb Hrun) as (_ & _ & Hinv).
    split.
    + unfold sorted. rewrite Hb, Hrun.
      by rewrite !decide_True, decide_False by done.
    + by apply residual_spec; [apply arcs_in_all_names|].
  - intros va vb. eexists _, _. split; [by vm_compute|]. by vm_compute.
Qed.

(** *** The two dependency checks *)

Lemma elem_of_arc_sources s x :
  x ∈ (list_to_set (arcs s).*1 : gset node) ↔ ∃ y, (x, y) ∈ arcs s.
Proof.
  rewrite elem_of_list_to_set, list_elem_of_fmap. split.
  - intros ([a c] & -> & Hin). by exists c.
  - intros (y & Hin). by exists (x, y).
Qed.





(** *** The order among the roots *)

Lemma filter_comm {X} (F G : X → Prop) `{!∀ z, Decision (F z)}
    `{!∀ z, Decision (G z)} (l : list X) :
  filter F (filter G l) = filter G (filter F l).
Proof. rewrite !list_filter_filter. apply list_filter_iff. tauto. Qed.

Lemma sorted_initial_roots s res :
  NoDup (all_names s) → sorted s = Some (Ok res) →
  filter (λ n, n ∉ (arcs s).*2) res.*1 =
    filter (λ n, n ∉ (arcs s).*2) (names s).
Proof.
  intros Hnd (out & Hinv & Hall & Hc & R0 & HR0 & Hf)%sorted_returns.
  rewrite (HR0 Hnd) in Hf. rewrite (collect_fst _ _ _ Hc).
  rewrite (filter_ext_in _ (λ n, n ∉ (arcs s).*2)) in Hf.
  2:{ intros n Hn. rewrite list_elem_of_filter.
      pose proof (wi_out_nodes _ _ _ _ _ Hinv n Hn). tauto. }
  rewrite filter_comm, Hf, filter_comm. f_equal.
  unfold all_names in *.
  apply NoDup_cons in Hnd as [Hfirst [Hlast _]%NoDup_cons].
  rewrite not_elem_of_cons in Hfirst.
  rewrite !filter_cons_False by tauto.
  by apply filter_all.
Qed.

(** C1, as the code has it: each turn of the loop emits the head of
    [roots]; the children it frees are put in front of the roots that were
    already waiting, so a node freed last is emitted first.  Registration
    order decides only among the entries that have no incoming arc at all:
    they are emitted in the order of [names].  With [a], [b] and then [c]
    after [a], the output is [a, c, b]. *)
Theorem sorted_prefers_freed_roots :
  (∀ s res,
     NoDup (all_names s) → sorted s = Some (Ok res) →
     filter (λ n, n ∉ (arcs s).*2) res.*1 =
       filter (λ n, n ∉ (arcs s).*2) (names s)) ∧
  (∀ N A fuel root rs g out,
     (∀ a c, (a, c) ∈ A → a ∈ N ∧ c ∈ N) →
     walk_inv N A (root :: rs) g out →
     ∃ freed g1,
       NoDup freed ∧
       (∀ n, n ∈ freed ↔
             n ∈ children_of A root ∧ pending A (out ++ [root]) n = 0%Z) ∧
       walk_inv N A (freed ++ rs) (delete root g1) (out ++ [root]) ∧
       traverse (S fuel) (root :: rs) g out =
         traverse fuel (freed ++ rs) (delete root g1) (out ++ [root])) ∧
  (∀ va vb vc : V,
     ∃ s os,
       do_calls new [CallAdd (Name "a") va None None;
                     CallAdd (Name "b") vb None None;
                     CallAdd (Name "c") vc (Some (One (Name "a"))) None]
         = Ok (s, os) ∧
       sorted s = Some (Ok [(Name "a", va); (Name "c", vc); (Name "b", vb)])).
Proof.
  split_and!.
  - apply sorted_initial_roots.
  - intros N A fuel root rs g out HA Hinv.
    destruct (walk_step N A HA root rs g out Hinv)
      as (freed & g1 & Hroot & Hrun & Hinv' & Hnd & Hfreed & _).
    exists freed, g1. split_and!; [done..|].
    simpl. by rewrite Hroot, Hrun.
  - intros va vb vc. eexists _, _. split; [by vm_compute|]. by vm_compute.
Qed.

(** *** Calls in sequence *)





(** *** The default policy of [add] *)

Lemma remove_or_not s name s0 :
  (if decide (name ∈ names s) then remove s name else Ok s) = Ok s0 →
  s0 = s ∧ name ∉ names s ∨ remove s name = Ok s0 ∧ name ∈ names s.
Proof. destruct (decide _); [by right|]. intros [= <-]. by left. Qed.

Lemma remove_fixed s name s0 :
  remove s name = Ok s0 →
  default_after s0 = default_after s ∧ default_before s0 = default_before s ∧
  first s0 = first s ∧ last s0 = last s.
Proof.
  unfold remove, forget_after, forget_before.
  destruct (list_remove_first _ _); [|done].
  destruct (dict_del _ _); [|done]. simpl.
  repeat (destruct (decide _); simpl; try done);
    repeat (destruct (remove_arcs _ _); simpl; try done);
    repeat (destruct (decide _); simpl; try done);
    repeat (destruct (remove_arcs _ _); simpl; try done);
    by intros [= <-].
Qed.

(** C9: [add] takes [default_after] and [default_before] only when both
    [after] and [before] are [None].  With [after] alone it records the
    arcs into the name and nothing else: [name2before], [req_before] and
    the arcs out of the name are those the sorter had once a prior entry of
    the name was removed, so nothing puts the entry before [LAST]; and
    likewise with [before] alone. *)
Theorem add_defaults_only_when_both_none :
  (∀ s, with_defaults s None None = (default_after s, default_before s)) ∧
  (∀ s a b, (a, b) ≠ (None, None) → with_defaults s a b = (a, b)) ∧
  (∀ s name val a s',
     add s name val (Some a) None = Ok s' →
     ∃ s0, (s0 = s ∧ name ∉ names s ∨ remove s name = Ok s0 ∧ name ∈ names s) ∧
           order s' = order s0 ++ ((λ u, (u, name)) <$> as_iterable a) ∧
           name2before s' = name2before s0 ∧
           req_before s' = req_before s0) ∧
  (∀ s name val b s',
     add s name val None (Some b) = Ok s' →
     ∃ s0, (s0 = s ∧ name ∉ names s ∨ remove s name = Ok s0 ∧ name ∈ names s) ∧
           order s' = order s0 ++ ((λ o, (name, o)) <$> as_iterable b) ∧
           name2after s' = name2after s0 ∧
           req_after s' = req_after s0) ∧
  (∀ s name val s',
     add s name val None None = Ok s' →
     ∃ s0, (s0 = s ∧ name ∉ names s ∨ remove s name = Ok s0 ∧ name ∈ names s) ∧
           s' = inserted s0 name val (default_after s) (default_before s)) ∧
  (∀ (val : V) x,
     ∃ s', add new (Name "a") val (Some (One x)) None = Ok s' ∧
           order s' = [(x, Name "a")] ∧
           name2before s' !! Name "a" = None ∧
           Name "a" ∉ req_before s').
Proof.
  split_and!.
  - done.
  - intros s [a|] [b|] Hne; done.
  - intros s name val a s'. rewrite add_unfold.
    destruct (if decide _ then _ else _) as [s0|e] eqn:Hs0; [|done].
    simpl. intros [= <-]. exists s0. split; [by apply remove_or_not|]. done.
  - intros s name val b s'. rewrite add_unfold.
    destruct (if decide _ then _ else _) as [s0|e] eqn:Hs0; [|done].
    simpl. intros [= <-]. exists s0. split; [by apply remove_or_not|]. done.
  - intros s name val s'. rewrite add_unfold.
    destruct (if decide _ then _ else _) as [s0|e] eqn:Hs0; [|done].
    simpl. intros [= <-]. exists s0.
    destruct (remove_or_not _ _ _ Hs0) as [[-> ?]|[Hrm Hin]]; [by split; auto|].
    split; [by right|].
    destruct (remove_fixed s name s0 Hrm) as (-> & -> & _). done.
  - intros val x. eexists. split; [done|]. simpl. split_and!; [done..|].
    set_solver.
Qed.

(** *** Taking an entry out, and putting one in *)



Lemma stripped_unregistered s name :
  wf s → name ∉ names s → stripped s name s.
Proof.
  intros Hwf Hn. destruct (wf_unregistered s name Hwf Hn) as [Ha Hb].
  split; try done.
  - by rewrite filter_all by (by intros n ? ->).
  - rewrite filter_all; [done|]. intros [k v] Hkv. simpl. intros ->.
    apply Hn. rewrite <- (wf_vals _ Hwf). apply list_elem_of_fmap.
    by exists (name, v).
  - by rewrite delete_id.
  - by rewrite delete_id.
  - by rewrite Ha.
  - by rewrite Hb.
  - exists (order s). unfold declared_by. by rewrite Ha, Hb.
Qed.

(** [add] on a sorter between calls: the sorter without the name, then the
    new entry. *)
Lemma add_stripped s name val after before :
  wf s →
  ∃ s0, stripped s name s0 ∧ wf s0 ∧ name ∉ names s0 ∧
        add s name val after before =
          Ok (inserted s0 name val (with_defaults s0 after before).1
                                   (with_defaults s0 after before).2).
Proof.
  intros Hwf.
  destruct (add_spec s name val after before Hwf)
    as (s0 & Hs0 & Hwf0 & Hn0 & Hadd & _).
  exists s0. split_and!; [|done..].
  destruct (decide (name ∈ names s)) as [Hin|Hin]; [by destruct Hs0|].
  subst s0. by apply stripped_unregistered.
Qed.







Lemma same_entries_sym s1 s2 : same_entries s1 s2 → same_entries s2 s1.
Proof. intros []. by split. Qed.




(** *** Sorters without empty iterables *)









(** *** A call about another name, with and without the entry *)

Lemma remove_Ok_registered s n s' : remove s n = Ok s' → n ∈ names s.
Proof.
  unfold remove. destruct (list_remove_first n (names s)) eqn:Hrm; [|done].
  intros _. destruct (decide (n ∈ names s)) as [|Hn]; [done|].
  apply list_remove_first_None in Hn. congruence.
Qed.








End Sorter.

(** *** The properties at work on small sorters *)


(** C1 fails as stated: [b] is registered before [c], has no incoming arc
    and so is a root from the start, nothing orders [b] and [c], and yet
    [c], freed when [a] is emitted, comes out before [b]. *)
Lemma sorted_not_in_registration_order :
  ∃ (s : t nat) os,
    do_calls new [CallAdd (Name "a") 1 None None;
                  CallAdd (Name "b") 2 None None;
                  CallAdd (Name "c") 3 (Some (One (Name "a"))) None]
      = Ok (s, os) ∧
    names s = [Name "a"; Name "b"; Name "c"] ∧
    Name "b" ∉ (arcs s).*2 ∧
    (Name "b", Name "c") ∉ order s ∧ (Name "c", Name "b") ∉ order s ∧
    sorted s = Some (Ok [(Name "a", 1); (Name "c", 3); (Name "b", 2)]).
Proof.
  match goal with |- ∃ s os, ?r = _ ∧ _ =>
    let s := state_of r in let os := outputs_of r in exists s, os
  end.
  split; [vm_compute; reflexivity|].
  split_and!; [vm_compute; reflexivity|by_computation..|vm_compute; reflexivity].
Qed.



(** The example of C5: [a] after [b], then [b], then [a] again with no
    constraint leaves no arc from [b] to [a]. *)
Lemma readd_forgets_old_constraint :
  ∃ (s : t nat) os,
    do_calls new [CallAdd (Name "a") 1 (Some (One (Name "b"))) None;
                  CallAdd (Name "b") 2 None None;
                  CallAdd (Name "a") 3 None None] = Ok (s, os) ∧
    order s = [(Name "b", LAST); (Name "a", LAST)] ∧
    name2after s !! Name "a" = None ∧
    sorted s = Some (Ok [(Name "b", 2); (Name "a", 3)]).
Proof.
  match goal with |- ∃ s os, ?r = _ ∧ _ =>
    let s := state_of r in let os := outputs_of r in exists s, os
  end.
  split; [vm_compute; reflexivity|].
  split_and!; vm_compute; reflexivity.
Qed.

(** The slip next to it: [remove] tests [if after:], so an empty iterable
    given as [after] leaves the name in [req_after]; the entry added again
    with the defaults can no longer be sorted. *)
Lemma readd_after_empty_iterable :
  ∃ (s1 s2 : t nat) os1 os2,
    do_calls new [CallAdd (Name "a") 1 (Some (Many [])) None;
                  CallAdd (Name "a") 2 None None] = Ok (s1, os1) ∧
    do_calls new [CallAdd (Name "a") 2 None None] = Ok (s2, os2) ∧
    sorted s1 = Some (Raise (ConfigurationError After {[Name "a"]})) ∧
    sorted s2 = Some (Ok [(Name "a", 2)]).
Proof.
  match goal with |- ∃ s1 s2 os1 os2, ?r1 = _ ∧ ?r2 = _ ∧ _ =>
    let s1 := state_of r1 in let os1 := outputs_of r1 in
    let s2 := state_of r2 in let os2 := outputs_of r2 in
    exists s1, s2, os1, os2
  end.
  split; [vm_compute; reflexivity|].
  split; [vm_compute; reflexivity|].
  split; vm_compute; reflexivity.
Qed.

(** C3 on the sorter of [add('c', 3)], [add('b', 2, after='c')],
    [add('a', 1, after='b')]: [b] declares [after='c'] and stands after
    [c] in [[c, b, a]]. *)
Lemma sorted_respects_constraints_witness :
  let cs := [CallAdd (Name "c") 3 None None;
             CallAdd (Name "b") 2 (Some (One (Name "c"))) None;
             CallAdd (Name "a") 1 (Some (One (Name "b"))) None] in
  let r := do_calls (__init__ (Some (One LAST)) None FIRST LAST) cs in
  let s := match r with Ok (s, _) => s | Raise _ => new end in
  let os := match r with Ok (_, os) => os | Raise _ => [] end in
  let res := [(Name "c", 3); (Name "b", 2); (Name "a", 1)] in
  do_calls (__init__ (Some (One LAST)) None FIRST LAST) cs = Ok (s, os) ∧
  sorted s = Some (Ok res) ∧
  Name "b" ∈ names s ∧ Name "c" ∈ names s ∧
  ((∃ ys, name2after s !! Name "b" = Some ys ∧ Name "c" ∈ ys) →
   precedes (Name "c") (Name "b") res.*1) ∧
  ((∃ ys, name2before s !! Name "b" = Some ys ∧ Name "c" ∈ ys) →
   precedes (Name "b") (Name "c") res.*1).
Proof.
  intros cs r s os res.
  assert (do_calls (__init__ (Some (One LAST)) None FIRST LAST) cs = Ok (s, os))
    as H1 by (vm_compute; reflexivity).
  assert (sorted s = Some (Ok res)) as H2 by (vm_compute; reflexivity).
  assert (Name "b" ∈ names s) as H3 by by_computation.
  assert (Name "c" ∈ names s) as H4 by by_computation.
  split; [exact H1|]. split; [exact H2|]. split; [exact H3|].
  split; [exact H4|].
  exact (sorted_respects_constraints (Some (One LAST)) None FIRST LAST
           cs s os res (Name "b") (Name "c") H1 H2 H3 H4).
Defined.


End SorterFacts.

(** ** WeakOrderedSet: how the methods compose *)

Module WeakOrderedSetLaws.
Import WeakOrderedSet WeakOrderedSetFacts.

Implicit Types (s : t) (h : heap) (w : world) (x i : oid).

(** X1: [add] of an object the set does not hold followed by [remove] of it
    gives back the set as it was: the same entries in the same order. *)
Theorem wos_add_then_remove s x :
  inv s → x ∉ _order s → (s' ← add s x; remove s' x) = Ok s.
Proof.
  intros Hinv Hx. rewrite wos_add_fresh by done. simpl. unfold remove.
  destruct (wos_add_inv s x Hinv) as (s' & Hadd & Hinv').
  rewrite wos_add_fresh in Hadd by done. injection Hadd as <-.
  rewrite wos_remove_by_id_present; [|done|simpl; set_solver].
  simpl. destruct s as [items order]. simpl in *. do 2 f_equal.
  - apply delete_insert_id. apply eq_None_not_Some.
    by rewrite <- (wos_tracked_iff {| _items := items; _order := order |}).
  - rewrite filter_app, filter_ne_absent by done.
    rewrite filter_cons_False, filter_nil by naive_solver.
    by rewrite app_nil_r.
Qed.

Lemma wos_add_then_remove_witness :
  let s := {| _items := {[1%Z := Weakref 1%Z 1%Z]}; _order := [1%Z] |} in
  inv s ∧ (2%Z ∉ _order s) ∧ (s' ← add s 2%Z; remove s' 2%Z) = Ok s.
Proof.
  assert (inv {| _items := {[1%Z := Weakref 1%Z 1%Z]}; _order := [1%Z] |})
    as Hinv by (apply (bool_decide_unpack _); vm_compute; exact I).
  assert (2%Z ∉ [1%Z]) as Hx by (apply (bool_decide_unpack _); vm_compute; exact I).
  split; [exact Hinv|]. split; [exact Hx|].
  exact (wos_add_then_remove _ 2%Z Hinv Hx).
Defined.

(** X2: After [add(x)] the set holds [x] and what it held before, and it has
    grown by one exactly when [x] was not in it. *)
Theorem wos_add_membership s x s' :
  inv s → add s x = Ok s' →
  (∀ y, __contains__ s' y = true ↔ y = x ∨ __contains__ s y = true) ∧
  __len__ s' = (if __contains__ s x then __len__ s else S (__len__ s)).
Proof.
  intros Hinv Hadd. pose proof Hinv as [Hnd _].
  destruct (wos_add_inv s x Hinv) as (s2 & Hadd2 & Hinv').
  rewrite Hadd in Hadd2. injection Hadd2 as <-.
  destruct (decide (x ∈ _order s)) as [Hx|Hx].
  - rewrite wos_add_present in Hadd by done. injection Hadd as <-.
    split.
    + intros y. rewrite !wos_contains_order by done. simpl in *.
      rewrite elem_of_app, list_elem_of_filter, list_elem_of_singleton.
      destruct (decide (y = x)) as [->|]; naive_solver.
    + rewrite (proj2 (wos_contains_order s x Hinv) Hx).
      unfold __len__. simpl. rewrite length_app. simpl.
      pose proof (wos_filter_length _ _ Hnd Hx). lia.
  - rewrite wos_add_fresh in Hadd by done. injection Hadd as <-.
    split.
    + intros y. rewrite !wos_contains_order by done. simpl.
      rewrite elem_of_app, list_elem_of_singleton. naive_solver.
    + destruct (__contains__ s x) eqn:Hc.
      { by apply wos_contains_order in Hc. }
      unfold __len__. simpl. rewrite length_app. simpl. lia.
Qed.

Lemma wos_add_membership_witness :
  let s := {| _items := {[1%Z := Weakref 1%Z 1%Z]}; _order := [1%Z] |} in
  let s' := {| _items := {[1%Z := Weakref 1%Z 1%Z; 2%Z := Weakref 2%Z 2%Z]};
               _order := [1%Z; 2%Z] |} in
  inv s ∧ add s 2%Z = Ok s' ∧
  (∀ y, __contains__ s' y = true ↔ y = 2%Z ∨ __contains__ s y = true) ∧
  __len__ s' = (if __contains__ s 2%Z then __len__ s else S (__len__ s)).
Proof.
  assert (inv {| _items := {[1%Z := Weakref 1%Z 1%Z]}; _order := [1%Z] |})
    as Hinv by (apply (bool_decide_unpack _); vm_compute; exact I).
  assert (add {| _items := {[1%Z := Weakref 1%Z 1%Z]}; _order := [1%Z] |} 2%Z =
          Ok {| _items := {[1%Z := Weakref 1%Z 1%Z; 2%Z := Weakref 2%Z 2%Z]};
                _order := [1%Z; 2%Z] |})
    as Hadd by (vm_compute; reflexivity).
  split; [exact Hinv|]. split; [exact Hadd|].
  exact (wos_add_membership _ _ _ Hinv Hadd).
Defined.

(** X3: [remove(x)] never raises, whether the set holds [x] or not; after it
    the set holds what it held before other than [x], and it has shrunk
    by one exactly when [x] was in it. *)
Theorem wos_remove_membership s x :
  inv s →
  ∃ s', remove s x = Ok s' ∧
        (∀ y, __contains__ s' y = true ↔ y ≠ x ∧ __contains__ s y = true) ∧
        __len__ s = (if __contains__ s x then S (__len__ s') else __len__ s') ∧
        (__contains__ s x = false → s' = s).
Proof.
  intros Hinv. pose proof Hinv as [Hnd _]. unfold remove.
  destruct (wos_remove_by_id_inv s x Hinv) as (s' & Hrm & Hinv').
  exists s'. split; [done|].
  destruct (decide (x ∈ _order s)) as [Hx|Hx].
  - rewrite wos_remove_by_id_present in Hrm by done. injection Hrm as <-.
    split_and!.
    + intros y. rewrite !wos_contains_order by done. simpl.
      rewrite list_elem_of_filter. naive_solver.
    + rewrite (proj2 (wos_contains_order s x Hinv) Hx).
      unfold __len__. simpl. by rewrite wos_filter_length.
    + intros Hc. apply wos_contains_order in Hx; [congruence|done].
  - rewrite wos_remove_by_id_absent in Hrm by done. injection Hrm as <-.
    split_and!; [|by destruct (__contains__ s x) eqn:Hc;
                     [apply wos_contains_order in Hc|]|done].
    intros y. rewrite !wos_contains_order by done. naive_solver.
Qed.

Lemma wos_remove_membership_witness :
  let s := {| _items := {[1%Z := Weakref 1%Z 1%Z]}; _order := [1%Z] |} in
  inv s ∧
  ∃ s', remove s 1%Z = Ok s' ∧
        (∀ y, __contains__ s' y = true ↔ y ≠ 1%Z ∧ __contains__ s y = true) ∧
        __len__ s = (if __contains__ s 1%Z then S (__len__ s') else __len__ s') ∧
        (__contains__ s 1%Z = false → s' = s).
Proof.
  assert (inv {| _items := {[1%Z := Weakref 1%Z 1%Z]}; _order := [1%Z] |})
    as Hinv by (apply (bool_decide_unpack _); vm_compute; exact I).
  split; [exact Hinv|].
  exact (wos_remove_membership _ 1%Z Hinv).
Defined.

(** X4: The death of an object the set does not hold changes nothing in the
    set: no callback of the set runs. *)
Theorem wos_release_untracked w o :
  inv (wset w) → tracked_live w → o ∉ _order (wset w) →
  release w o = Ok {| live := live w ∖ {[o]}; wset := wset w |}.
Proof.
  intros Hinv Hlive Ho. unfold release.
  assert (callbacks_for (_items (wset w)) o = []) as ->; [|done].
  unfold callbacks_for.
  destruct (filter _ _) as [|r l] eqn:Hf; [done|].
  assert (r ∈ filter (λ r, referent r = o) (map_to_list (_items (wset w))).*2)
    as [Href Hin]%list_elem_of_filter by (rewrite Hf; left).
  apply list_elem_of_fmap in Hin as ([k r'] & -> & Hin).
  apply elem_of_map_to_list in Hin.
  destruct (Hlive _ _ Hin) as (Hk & _). simpl in *.
  destruct Ho. apply wos_tracked_iff; [done|].
  rewrite <- Href, Hk. by rewrite Hin.
Qed.

Lemma wos_release_untracked_witness :
  let w := {| live := {[1%Z; 2%Z]};
              wset := {| _items := {[1%Z := Weakref 1%Z 1%Z]};
                         _order := [1%Z] |} |} in
  inv (wset w) ∧ tracked_live w ∧ (2%Z ∉ _order (wset w)) ∧
  release w 2%Z = Ok {| live := live w ∖ {[2%Z]}; wset := wset w |}.
Proof.
  set (w := {| live := {[1%Z; 2%Z]};
               wset := {| _items := {[1%Z := Weakref 1%Z 1%Z]};
                          _order := [1%Z] |} |}).
  assert (inv (wset w)) as Hinv
    by (apply (bool_decide_unpack _); vm_compute; exact I).
  assert (tracked_live w) as Hlive
    by (apply (bool_decide_unpack _); vm_compute; exact I).
  assert (2%Z ∉ _order (wset w)) as Ho
    by (apply (bool_decide_unpack _); vm_compute; exact I).
  split; [exact Hinv|]. split; [exact Hlive|]. split; [exact Ho|].
  exact (wos_release_untracked w 2%Z Hinv Hlive Ho).
Defined.

(** X5: [add] of a live object to a set of live objects makes it the last
    one: iteration yields the objects that were there, without the added
    one, in their order, and the added one at the end, which is what
    [last] gives. *)
Theorem wos_add_is_last w x :
  inv (wset w) → tracked_live w → x ∈ live w →
  ∃ s', add (wset w) x = Ok s' ∧
        tracked_live {| live := live w; wset := s' |} ∧
        __iter__ s' (live w) =
          Ok (Some <$> (filter (λ y, y ≠ x) (_order (wset w)) ++ [x])) ∧
        last s' (live w) = Ok (Some x).
Proof.
  intros Hinv Hlive Hx.
  destruct (wos_add_inv (wset w) x Hinv) as (s' & Hadd & Hinv').
  exists s'. split; [done|].
  assert (_order s' = filter (λ y, y ≠ x) (_order (wset w)) ++ [x] ∧
          tracked_live {| live := live w; wset := s' |}) as [Horder Hlive'].
  { destruct (decide (x ∈ _order (wset w))) as [Hin|Hin].
    - rewrite wos_add_present in Hadd by done. injection Hadd as <-.
      split; [done|]. exact Hlive.
    - rewrite wos_add_fresh in Hadd by done. injection Hadd as <-.
      split; [simpl; by rewrite filter_ne_absent|].
      unfold tracked_live. simpl. apply map_Forall_insert_2; [done|].
      exact Hlive. }
  pose proof (wos_iter_live {| live := live w; wset := s' |} Hinv' Hlive')
    as Hiter. simpl in Hiter.
  split; [done|]. split; [by rewrite Hiter, Horder|].
  destruct (wos_last_ok s' (live w) Hinv') as (ys & Hys & _ & ->).
  rewrite Hiter in Hys. injection Hys as <-.
  rewrite Horder, fmap_app. simpl. by rewrite last_last.
Qed.

Lemma wos_add_is_last_witness :
  let w := {| live := {[1%Z; 2%Z]};
              wset := {| _items := {[1%Z := Weakref 1%Z 1%Z;
                                     2%Z := Weakref 2%Z 2%Z]};
                         _order := [1%Z; 2%Z] |} |} in
  inv (wset w) ∧ tracked_live w ∧ 1%Z ∈ live w ∧
  ∃ s', add (wset w) 1%Z = Ok s' ∧
        tracked_live {| live := live w; wset := s' |} ∧
        __iter__ s' (live w) =
          Ok (Some <$> (filter (λ y, y ≠ 1%Z) (_order (wset w)) ++ [1%Z])) ∧
        last s' (live w) = Ok (Some 1%Z).
Proof.
  set (w := {| live := {[1%Z; 2%Z]};
               wset := {| _items := {[1%Z := Weakref 1%Z 1%Z;
                                      2%Z := Weakref 2%Z 2%Z]};
                          _order := [1%Z; 2%Z] |} |}).
  assert (inv (wset w)) as Hinv
    by (apply (bool_decide_unpack _); vm_compute; exact I).
  assert (tracked_live w) as Hlive
    by (apply (bool_decide_unpack _); vm_compute; exact I).
  assert (1%Z ∈ live w) as Hx
    by (apply (bool_decide_unpack _); vm_compute; exact I).
  split; [exact Hinv|]. split; [exact Hlive|]. split; [exact Hx|].
  exact (wos_add_is_last w 1%Z Hinv Hlive Hx).
Defined.

End WeakOrderedSetLaws.

(** ** TopologicalSorter: what the calls give on a sorter in use *)

Module SorterLaws.
Import TopologicalSorter SorterSpec SorterDefaults GraphFacts SorterFacts.

Section Sorter.
Context {V : Type}.
Implicit Types (s self : t V) (name n : node) (val : V).

Lemma dict_get_elem_of n (v : V) d : dict_get n d = Some v → (n, v) ∈ d.
Proof.
  induction d as [|[k w] d IH]; [done|]. simpl.
  destruct (decide (n = k)) as [->|]; [intros [= ->]; left|].
  intros ?. right. by apply IH.
Qed.

Lemma dict_get_NoDup n (v : V) d :
  NoDup d.*1 → (n, v) ∈ d → dict_get n d = Some v.
Proof.
  induction d as [|[k w] d IH]; [by intros _ ?%elem_of_nil|].
  rewrite fmap_cons, NoDup_cons. intros [Hk Hnd] Hin. simpl in *.
  apply elem_of_cons in Hin as [[= -> ->]|Hin].
  - by rewrite decide_True.
  - rewrite decide_False; [by apply IH|].
    intros ->. apply Hk, list_elem_of_fmap. by exists (k, v).
Qed.

Lemma collect_vals s out res :
  collect s out = Ok res →
  ∀ n v, (n, v) ∈ res → dict_get n (name2val s) = Some v.
Proof.
  revert res. induction out as [|a out IH]; intros res; simpl.
  { intros [= <-] n v Hin. by apply elem_of_nil in Hin. }
  destruct (decide (a ∈ names s)); [|by apply IH].
  destruct (dict_get a (name2val s)) as [w|] eqn:Hw; [|done].
  destruct (collect s out) as [r|] eqn:Hr; [|done]. simpl.
  intros [= <-] n v [[= -> ->]|Hin]%elem_of_cons; [done|].
  by eapply IH.
Qed.

(** The list [sorted] returns and a dictionary with the same keys in the
    same order, when the values are those of the dictionary. *)
Lemma entries_eq (res d : list (node * V)) :
  NoDup d.*1 → res.*1 = d.*1 →
  (∀ n v, (n, v) ∈ res → dict_get n d = Some v) → res = d.
Proof.
  intros Hnd Hfst Hval. apply list_eq. intros i.
  destruct (res !! i) as [[n v]|] eqn:Hr.
  - assert (d.*1 !! i = Some n) as Hd.
    { by rewrite <- Hfst, list_lookup_fmap, Hr. }
    rewrite list_lookup_fmap in Hd.
    destruct (d !! i) as [[n' w]|] eqn:Hdi; [|done]. simpl in Hd.
    injection Hd as ->.
    pose proof (Hval n v (list_elem_of_lookup_2 _ _ _ Hr)) as Hg.
    rewrite (dict_get_NoDup n w d Hnd (list_elem_of_lookup_2 _ _ _ Hdi)) in Hg.
    by injection Hg as ->.
  - assert (d.*1 !! i = None) as Hd.
    { by rewrite <- Hfst, list_lookup_fmap, Hr. }
    rewrite list_lookup_fmap in Hd. by destruct (d !! i).
Qed.


Lemma reachable_wf db da f l cs s os :
  do_calls (__init__ db da f l) cs = Ok (s, os) → wf s.
Proof. apply do_calls_wf, init_wf. Qed.

(** X6: When [sorted] returns, it returns every registered entry exactly once,
    each with the value it was last given, and nothing else: the list is a
    rearrangement of the name-to-value dictionary. *)
Theorem sorted_lists_every_entry_once db da f l cs s os res :
  do_calls (__init__ db da f l) cs = Ok (s, os) →
  sorted s = Some (Ok res) →
  res ≡ₚ name2val s ∧ NoDup res.*1.
Proof.
  intros Hwf%reachable_wf Hres.
  destruct (sorted_returns s res Hres) as (out & Hwalk & Hall & Hcol & _).
  pose proof (collect_fst _ _ _ Hcol) as Hfst.
  pose proof (collect_vals _ _ _ Hcol) as Hval.
  assert (NoDup res.*1) as Hnd.
  { rewrite Hfst. apply NoDup_filter, Hwalk. }
  split; [|done].
  assert (NoDup (name2val s).*1) as Hndv.
  { rewrite (wf_vals _ Hwf). apply Hwf. }
  apply NoDup_Permutation.
  - by eapply NoDup_fmap_1.
  - by eapply NoDup_fmap_1.
  - intros [n v]. split.
    + intros Hin. by apply dict_get_elem_of, Hval.
    + intros Hin.
      assert (n ∈ res.*1) as Hn.
      { rewrite Hfst. apply list_elem_of_filter.
        assert (n ∈ names s) as Hns.
        { rewrite <- (wf_vals _ Hwf). apply list_elem_of_fmap. by exists (n, v). }
        split; [done|]. by apply Hall, elem_of_names_all. }
      apply list_elem_of_fmap in Hn as ([n' v'] & Heq & Hin').
      simpl in Heq. subst n'.
      pose proof (Hval _ _ Hin') as Hg.
      rewrite (dict_get_NoDup _ _ _ Hndv Hin) in Hg. by injection Hg as ->.
Qed.

(** X7: [remove] of a registered name returns, and the name and its value are
    gone while the other entries keep their order; [remove] of a name that
    is not registered raises [ValueError]. *)
Theorem remove_registered_or_raises db da f l cs s os name :
  do_calls (__init__ db da f l) cs = Ok (s, os) →
  (name ∈ names s →
   ∃ s', remove s name = Ok s' ∧
         names s' = filter (λ n, n ≠ name) (names s) ∧
         name2val s' = filter (λ kv, kv.1 ≠ name) (name2val s) ∧
         (name ∉ names s') ∧
         dict_get name (name2val s') = None) ∧
  (name ∉ names s → remove s name = Raise ValueError).
Proof.
  intros Hwf%reachable_wf. split.
  - intros Hin. destruct (remove_spec s name Hwf Hin) as (s' & Hrm & Hst & Hwf').
    exists s'. split; [done|].
    rewrite (st_names _ _ _ Hst), (st_vals _ _ _ Hst).
    split_and!; [done|done| |].
    + rewrite list_elem_of_filter. naive_solver.
    + destruct (dict_get name _) as [v|] eqn:Hg; [|done].
      apply dict_get_elem_of, list_elem_of_filter in Hg as [? _]. done.
  - intros Hin. unfold remove.
    by rewrite (proj2 (list_remove_first_None _ _) Hin).
Qed.

(** X8: [add] on a sorter in use never raises; the name becomes the last
    registered one, a prior entry of the name is dropped from its place,
    and the entries of the other names keep their order and values. *)
Theorem add_registers_last db da f l cs s os name val after before :
  do_calls (__init__ db da f l) cs = Ok (s, os) →
  ∃ s', add s name val after before = Ok s' ∧
        names s' = filter (λ n, n ≠ name) (names s) ++ [name] ∧
        name2val s' =
          filter (λ kv, kv.1 ≠ name) (name2val s) ++ [(name, val)] ∧
        values s' =
          (filter (λ kv, kv.1 ≠ name) (name2val s)).*2 ++ [val].
Proof.
  intros Hwf%reachable_wf.
  destruct (add_stripped s name val after before Hwf)
    as (s0 & Hst & Hwf0 & Hfresh & Hadd).
  eexists. split; [exact Hadd|].
  assert (name2val (inserted s0 name val (with_defaults s0 after before).1
                             (with_defaults s0 after before).2) =
          filter (λ kv, kv.1 ≠ name) (name2val s) ++ [(name, val)]) as Hv.
  { rewrite inserted_vals, dict_set_fresh.
    - by rewrite (st_vals _ _ _ Hst).
    - by rewrite (wf_vals _ Hwf0). }
  split_and!.
  - by rewrite inserted_names, (st_names _ _ _ Hst).
  - done.
  - unfold values. by rewrite Hv, fmap_app.
Qed.


(** *** Cycles *)

Lemma precedes_lookup {X} (a c : X) (out : list X) i j :
  NoDup out → precedes a c out →
  out !! i = Some a → out !! j = Some c → i < j.
Proof.
  intros Hnd (l1 & l2 & -> & Ha) Hi Hj.
  apply list_elem_of_lookup in Ha as [i' Hi'].
  pose proof (lookup_lt_Some _ _ _ Hi') as Hlt.
  assert ((l1 ++ c :: l2) !! i' = Some a) as Hi2.
  { by rewrite lookup_app_l. }
  assert ((l1 ++ c :: l2) !! length l1 = Some c) as Hj2.
  { by rewrite list_lookup_middle. }
  rewrite (NoDup_lookup _ _ _ _ Hnd Hi Hi2).
  by rewrite (NoDup_lookup _ _ _ _ Hnd Hj Hj2).
Qed.

Lemma tc_lookup (A : list (node * node)) (out : list node) a c :
  NoDup out →
  (∀ a c, (a, c) ∈ A → c ∈ out ∧ precedes a c out) →
  tc (λ a c, (a, c) ∈ A) a c →
  ∀ i j, out !! i = Some a → out !! j = Some c → i < j.
Proof.
  intros Hnd HA Htc. induction Htc as [a c Hac|a b c Hab _ IH]; intros i j Hi Hj.
  - destruct (HA _ _ Hac) as [_ Hp]. by eapply precedes_lookup.
  - destruct (HA _ _ Hab) as [[k Hk]%list_elem_of_lookup Hp].
    pose proof (precedes_lookup _ _ _ _ _ Hnd Hp Hi Hk).
    pose proof (IH _ _ Hk Hj). lia.
Qed.

(** X10: When the constraints among the registered names go round in a circle,
    [sorted] returns no order, whatever else is registered. *)
Theorem sorted_fails_on_cycle s x :
  tc (λ a c, (a, c) ∈ arcs s) x x → ∀ res, sorted s ≠ Some (Ok res).
Proof.
  intros Htc res (out & Hwalk & Hall & _)%sorted_returns.
  assert (∀ a c, (a, c) ∈ arcs s → c ∈ out ∧ precedes a c out) as HA.
  { intros a c Hac. destruct (arcs_in_all_names _ _ _ Hac) as [_ Hc].
    split; [by apply Hall|]. apply (wi_order _ _ _ _ _ Hwalk); [done|].
    by apply Hall. }
  assert (x ∈ out) as [i Hi]%list_elem_of_lookup.
  { inversion Htc as [? ? Hxy|? y ? Hxy]; subst;
      destruct (arcs_in_all_names _ _ _ Hxy) as [Hx _]; by apply Hall. }
  pose proof (tc_lookup _ _ _ _ (wi_out_nodup _ _ _ _ _ Hwalk) HA Htc _ _ Hi Hi).
  lia.
Qed.

(** *** A sorter used without constraints *)

Lemma by_default_new : by_default (V := V) new.
Proof.
  split; try done.
  - apply init_wf.
  - by intros n ?%elem_of_nil.
Qed.

Lemma by_default_stripped s n r :
  by_default s → stripped s n r → wf r → by_default r.
Proof.
  intros Hs Hst Hwf.
  assert (default [] (name2before s !! n) = [] → n ∉ names s) as Hnone.
  { rewrite (bd_before _ Hs). by destruct (decide (n ∈ names s)). }
  split.
  - done.
  - rewrite (st_first _ _ _ Hst). apply Hs.
  - rewrite (st_last _ _ _ Hst). apply Hs.
  - rewrite (st_default_before _ _ _ Hst). apply Hs.
  - rewrite (st_default_after _ _ _ Hst). apply Hs.
  - intros k. rewrite (st_names _ _ _ Hst), list_elem_of_filter.
    intros [_ Hk]. by apply (bd_names _ Hs).
  - rewrite (st_after _ _ _ Hst), (bd_after _ Hs). apply delete_empty.
  - intros k. rewrite (st_before _ _ _ Hst), (st_names _ _ _ Hst).
    destruct (decide (k = n)) as [->|Hkn].
    + rewrite lookup_delete_eq, decide_False; [done|].
      rewrite list_elem_of_filter. naive_solver.
    + rewrite lookup_delete_ne by done. rewrite (bd_before _ Hs).
      destruct (decide (k ∈ names s)) as [Hk|Hk].
      * rewrite decide_True; [done|]. by apply list_elem_of_filter.
      * rewrite decide_False; [done|]. rewrite list_elem_of_filter. naive_solver.
  - intros k. rewrite (st_req_before _ _ _ Hst), (st_names _ _ _ Hst).
    rewrite list_elem_of_filter.
    destruct (decide _) as [Hd|Hd].
    + intros Hk%(bd_req_before _ Hs). split; [|done].
      intros ->. by apply Hnone.
    + rewrite elem_of_difference, elem_of_singleton.
      intros [Hk%(bd_req_before _ Hs) ?]. done.
  - rewrite (st_req_after _ _ _ Hst), (bd_req_after _ Hs).
    destruct (decide _); set_solver.
Qed.

Lemma by_default_inserted s k val :
  by_default s → Name k ∉ names s →
  by_default (inserted s (Name k) val None (Some (One LAST))).
Proof.
  intros Hs Hk. split.
  - apply inserted_wf; [apply Hs|done].
  - apply Hs.
  - apply Hs.
  - apply Hs.
  - apply Hs.
  - intros n. rewrite inserted_names, elem_of_app, list_elem_of_singleton.
    intros [Hn| ->]; [by apply (bd_names _ Hs)|by exists k].
  - rewrite inserted_after. apply Hs.
  - intros n. rewrite inserted_before, inserted_names. simpl.
    destruct (decide (n = Name k)) as [->|Hn].
    + rewrite lookup_insert_eq, decide_True; [done|].
      rewrite elem_of_app, list_elem_of_singleton. by right.
    + rewrite lookup_insert_ne by done. rewrite (bd_before _ Hs).
      destruct (decide (n ∈ names s)) as [Hin|Hin].
      * rewrite decide_True; [done|]. rewrite elem_of_app. by left.
      * rewrite decide_False; [done|].
        rewrite elem_of_app, list_elem_of_singleton. naive_solver.
  - intros n. rewrite inserted_req_before, inserted_names.
    rewrite elem_of_union, elem_of_singleton, elem_of_app, list_elem_of_singleton.
    intros [->|Hn%(bd_req_before _ Hs)]; [by right|by left].
  - rewrite inserted_req_after. apply Hs.
Qed.

Lemma do_call_by_default s c s' o :
  by_default s → default_call c → do_call s c = Ok (s', o) → by_default s'.
Proof.
  intros Hs Hc Hdo. destruct c as [name val after before|name| |]; simpl in *.
  - destruct name as [| |k]; [done|done|].
    destruct after; [done|]. destruct before; [done|].
    destruct (add_stripped s (Name k) val None None (bd_wf _ Hs))
      as (s0 & Hst & Hwf0 & Hfresh & Hadd).
    rewrite Hadd in Hdo. simpl in Hdo. injection Hdo as <- _.
    pose proof (by_default_stripped _ _ _ Hs Hst Hwf0) as Hs0.
    rewrite (bd_default_after _ Hs0), (bd_default_before _ Hs0).
    by apply by_default_inserted.
  - destruct (remove s name) as [s1|] eqn:Hrm; [|done].
    simpl in Hdo. injection Hdo as <- _.
    pose proof (remove_Ok_registered _ _ _ Hrm) as Hin.
    destruct (remove_spec s name (bd_wf _ Hs) Hin) as (s2 & Hrm2 & Hst & Hwf2).
    rewrite Hrm in Hrm2. injection Hrm2 as <-.
    by eapply by_default_stripped.
  - by injection Hdo as <- _.
  - by injection Hdo as <- _.
Qed.

Lemma do_calls_by_default cs : ∀ s s' os,
  by_default s → Forall default_call cs → do_calls s cs = Ok (s', os) →
  by_default s'.
Proof.
  induction cs as [|c cs IH]; intros s s' os Hs Hcs Hdo; simpl in Hdo.
  { by injection Hdo as <- _. }
  apply Forall_cons in Hcs as [Hc Hcs].
  destruct (do_call s c) as [[s1 o]|] eqn:Hc1; [|done]. simpl in Hdo.
  destruct (do_calls s1 cs) as [[s2 os2]|] eqn:Hc2; [|done]. simpl in Hdo.
  injection Hdo as <- _.
  eapply IH; [|done|done]. by eapply do_call_by_default.
Qed.

Lemma by_default_order s a c :
  by_default s → (a, c) ∈ order s → c = LAST ∧ a ∈ names s.
Proof.
  intros Hs. rewrite (wf_order _ (bd_wf _ Hs)).
  rewrite list_elem_of_In, in_flat_map.
  intros (n & Hn%list_elem_of_In & Hin%list_elem_of_In).
  unfold declared_by in Hin.
  rewrite (bd_after _ Hs), lookup_empty, (bd_before _ Hs) in Hin.
  rewrite decide_True in Hin by done. simpl in Hin.
  apply list_elem_of_singleton in Hin as [= -> ->]. done.
Qed.

Lemma by_default_arcs s a c :
  by_default s → (a, c) ∈ arcs s → c = LAST ∧ a ≠ LAST.
Proof.
  intros Hs [Hin _]%elem_of_linked. unfold all_order in Hin.
  rewrite (bd_first _ Hs), (bd_last _ Hs) in Hin.
  apply elem_of_cons in Hin as [[= -> ->]|Hin]; [done|].
  destruct (by_default_order _ _ _ Hs Hin) as [-> Ha].
  split; [done|]. by destruct (bd_names _ Hs _ Ha) as [k ->].
Qed.

Lemma by_default_sorted s :
  by_default s → sorted s = Some (Ok (name2val s)).
Proof.
  intros Hs. pose proof (bd_wf _ Hs) as Hwf.
  assert (NoDup (all_names s)) as Hnd.
  { unfold all_names. rewrite (bd_first _ Hs), (bd_last _ Hs).
    apply NoDup_cons. split.
    - rewrite not_elem_of_cons. split; [done|].
      by intros [k ?]%(bd_names _ Hs).
    - apply NoDup_cons. split; [|apply Hwf].
      by intros [k ?]%(bd_names _ Hs). }
  assert (∀ n, n ∈ names s → n ∉ (arcs s).*2) as Hroot.
  { intros n Hn ([a c] & -> & Hac)%list_elem_of_fmap. simpl in Hn.
    destruct (by_default_arcs _ _ _ Hs Hac) as [-> _].
    by destruct (bd_names _ Hs _ Hn) as [k ?]. }
  destruct (sorted_walk s) as (R0 & out & g' & _ & _ & _ & Hwalk & _ & Heq).
  rewrite decide_True in Heq.
  2:{ intros n Hn%(bd_req_before _ Hs). apply elem_of_arc_sources.
      exists LAST. apply elem_of_order_arcs.
      - eapply declared_before_in_order; [done|done| |left].
        rewrite (bd_before _ Hs). by rewrite decide_True.
      - by apply elem_of_names_all.
      - unfold all_names. rewrite (bd_last _ Hs). right. left. }
  rewrite decide_True in Heq by (rewrite (bd_req_after _ Hs); set_solver).
  rewrite decide_True in Heq.
  2:{ destruct (residual_spec _ _ _ _ (arcs_in_all_names s) Hwalk)
        as (_ & Hparent & _).
      apply map_empty. intros k. apply eq_None_not_Some.
      intros Hk%elem_of_dom.
      destruct (Hparent _ Hk) as (a & Hak & Ha).
      destruct (Hparent _ Ha) as (a' & Haa & _).
      destruct (by_default_arcs _ _ _ Hs Hak) as [_ Hne].
      by destruct (by_default_arcs _ _ _ Hs Haa) as [-> _]. }
  destruct (collect_ok s out Hwf) as [res Hres]. rewrite Hres in Heq.
  rewrite Heq. do 2 f_equal. apply entries_eq.
  - rewrite (wf_vals _ Hwf). apply Hwf.
  - pose proof (sorted_initial_roots s res Hnd Heq) as Hf.
    rewrite (wf_vals _ Hwf).
    rewrite (filter_all _ (names s)) in Hf by done.
    rewrite <- Hf. symmetry. apply filter_all.
    intros n. rewrite (collect_fst _ _ _ Hres), list_elem_of_filter.
    intros [Hn _]. by apply Hroot.
  - by eapply collect_vals.
Qed.

(** X11: On [TopologicalSorter()], as long as no call names a constraint,
    [sorted] returns the entries in the order they were last added, the
    order of [values()]. *)
Theorem sorted_default_is_registration_order cs s os :
  do_calls new cs = Ok (s, os) → Forall default_call cs →
  sorted s = Some (Ok (name2val s)) ∧
  (∀ res, sorted s = Some (Ok res) → res.*2 = values s).
Proof.
  intros Hdo Hcs.
  pose proof (do_calls_by_default _ _ _ _ by_default_new Hcs Hdo) as Hs.
  rewrite (by_default_sorted _ Hs). split; [done|]. by intros res [= <-].
Qed.

End Sorter.

Lemma sorted_lists_every_entry_once_witness :
  let cs := [CallAdd (Name "c") 3 None None;
             CallAdd (Name "b") 2 (Some (One (Name "c"))) None;
             CallAdd (Name "a") 1 (Some (One (Name "b"))) None] in
  let r := do_calls (__init__ (Some (One LAST)) None FIRST LAST) cs in
  let s := match r with Ok (s, _) => s | Raise _ => new end in
  let os := match r with Ok (_, os) => os | Raise _ => [] end in
  let res := [(Name "c", 3); (Name "b", 2); (Name "a", 1)] in
  do_calls (__init__ (Some (One LAST)) None FIRST LAST) cs = Ok (s, os) ∧
  sorted s = Some (Ok res) ∧
  res ≡ₚ name2val s ∧ NoDup res.*1.
Proof.
  intros cs r s os res.
  assert (do_calls (__init__ (Some (One LAST)) None FIRST LAST) cs = Ok (s, os))
    as H1 by (vm_compute; reflexivity).
  assert (sorted s = Some (Ok res)) as H2 by (vm_compute; reflexivity).
  split; [exact H1|]. split; [exact H2|].
  exact (sorted_lists_every_entry_once (Some (One LAST)) None FIRST LAST
           cs s os res H1 H2).
Defined.

Lemma remove_registered_or_raises_witness :
  let cs := [CallAdd (Name "a") 1 None None;
             CallAdd (Name "b") 2 None None] in
  let r := do_calls (__init__ (Some (One LAST)) None FIRST LAST) cs in
  let s := match r with Ok (s, _) => s | Raise _ => new end in
  let os := match r with Ok (_, os) => os | Raise _ => [] end in
  let name := Name "a" in
  do_calls (__init__ (Some (One LAST)) None FIRST LAST) cs = Ok (s, os) ∧
  (name ∈ names s →
   ∃ s', remove s name = Ok s' ∧
         names s' = filter (λ n, n ≠ name) (names s) ∧
         name2val s' = filter (λ kv, kv.1 ≠ name) (name2val s) ∧
         (name ∉ names s') ∧
         dict_get name (name2val s') = None) ∧
  (name ∉ names s → remove s name = Raise ValueError).
Proof.
  intros cs r s os name.
  assert (do_calls (__init__ (Some (One LAST)) None FIRST LAST) cs = Ok (s, os))
    as H1 by (vm_compute; reflexivity).
  split; [exact H1|].
  exact (remove_registered_or_raises (Some (One LAST)) None FIRST LAST
           cs s os name H1).
Defined.

Lemma add_registers_last_witness :
  let cs := [CallAdd (Name "a") 1 None None;
             CallAdd (Name "b") 2 None None] in
  let r := do_calls (__init__ (Some (One LAST)) None FIRST LAST) cs in
  let s := match r with Ok (s, _) => s | Raise _ => new end in
  let os := match r with Ok (_, os) => os | Raise _ => [] end in
  let name := Name "a" in
  do_calls (__init__ (Some (One LAST)) None FIRST LAST) cs = Ok (s, os) ∧
  ∃ s', add s name 3 None None = Ok s' ∧
        names s' = filter (λ n, n ≠ name) (names s) ++ [name] ∧
        name2val s' =
          filter (λ kv, kv.1 ≠ name) (name2val s) ++ [(name, 3)] ∧
        values s' =
          (filter (λ kv, kv.1 ≠ name) (name2val s)).*2 ++ [3].
Proof.
  intros cs r s os name.
  assert (do_calls (__init__ (Some (One LAST)) None FIRST LAST) cs = Ok (s, os))
    as H1 by (vm_compute; reflexivity).
  split; [exact H1|].
  exact (add_registers_last (Some (One LAST)) None FIRST LAST
           cs s os name 3 None None H1).
Defined.


Lemma sorted_fails_on_cycle_witness :
  let cs := [CallAdd (Name "a") 1 (Some (One (Name "b"))) None;
             CallAdd (Name "b") 2 (Some (One (Name "a"))) None] in
  let r := do_calls new cs in
  let s := match r with Ok (s, _) => s | Raise _ => new end in
  tc (λ a c, (a, c) ∈ arcs s) (Name "a") (Name "a") ∧
  ∀ res, sorted s ≠ Some (Ok res).
Proof.
  intros cs r s.
  assert ((Name "a", Name "b") ∈ arcs s) as H1 by by_computation.
  assert ((Name "b", Name "a") ∈ arcs s) as H2 by by_computation.
  assert (tc (λ a c, (a, c) ∈ arcs s) (Name "a") (Name "a")) as H3
    by exact (tc_l _ _ _ _ H1 (tc_once _ _ _ H2)).
  split; [exact H3|].
  exact (sorted_fails_on_cycle s (Name "a") H3).
Defined.

Lemma sorted_default_is_registration_order_witness :
  let cs := [CallAdd (Name "b") 2 None None;
             CallAdd (Name "a") 1 None None;
             CallAdd (Name "b") 3 None None;
             CallAdd (Name "c") 4 None None;
             CallRemove (Name "c")] in
  let r := do_calls new cs in
  let s := match r with Ok (s, _) => s | Raise _ => new end in
  let os := match r with Ok (_, os) => os | Raise _ => [] end in
  do_calls new cs = Ok (s, os) ∧ Forall default_call cs ∧
  sorted s = Some (Ok (name2val s)) ∧
  (∀ res, sorted s = Some (Ok res) → res.*2 = values s).
Proof.
  intros cs r s os.
  assert (do_calls new cs = Ok (s, os)) as H1 by (vm_compute; reflexivity).
  assert (Forall default_call cs) as H2 by by_computation.
  split; [exact H1|]. split; [exact H2|].
  exact (sorted_default_is_registration_order cs s os H1 H2).
Defined.

End SorterLaws.

(** ** The helper functions of [pyramid.util]: properties *)

Module UtilFacts.
Import Util.

(** *** Text and bytes *)

Lemma encode_char_Some enc c b :
  encode_char enc c = Some b ↔ (c < limit enc)%N ∧ Byte.to_N b = c.
Proof.
  unfold encode_char. destruct (decide _) as [Hc|Hc].
  - split.
    + intros Hb. split; [done|]. by apply Byte.to_of_N.
    + intros [_ <-]. apply Byte.of_to_N.
  - split; [done|]. by intros [? _].
Qed.

Lemma encode_char_is_Some enc c :
  (c < limit enc)%N → is_Some (encode_char enc c).
Proof.
  intros Hc. unfold encode_char. rewrite decide_True by done.
  destruct (Byte.of_N c) as [b|] eqn:Hb; [done|].
  apply Byte.of_N_None_iff in Hb. destruct enc; simpl in *; lia.
Qed.

Lemma decode_byte_Some enc b c :
  decode_byte enc b = Some c ↔ (c < limit enc)%N ∧ Byte.to_N b = c.
Proof.
  unfold decode_byte. destruct (decide _) as [Hc|Hc].
  - split; [by intros [= <-]|by intros [_ <-]].
  - split; [done|]. intros [? <-]. done.
Qed.

Lemma to_N_lt_256 b : (Byte.to_N b < 256)%N.
Proof. pose proof (Byte.to_N_bounded b). lia. Qed.

(** Strict encoding returns exactly when every code point is below the
    limit of the codec. *)
Lemma encode_strict_Ok enc u b :
  encode enc Strict u = Ok b ↔
    Forall (λ c, (c < limit enc)%N) u ∧ Byte.to_N <$> b = u.
Proof.
  revert b. induction u as [|c u IH]; intros b; simpl.
  - split.
    + by intros [= <-].
    + intros [_ Hb]. by apply fmap_nil_inv in Hb as ->.
  - destruct (encode_char enc c) as [b0|] eqn:Hc.
    + apply encode_char_Some in Hc as [Hlt Hb0].
      destruct (encode enc Strict u) as [r|e] eqn:Hr; simpl.
      * destruct (proj1 (IH r) eq_refl) as [Hall Hru]. split.
        -- intros [= <-]. split; [by constructor|].
           by rewrite fmap_cons, Hb0, Hru.
        -- intros [_ Hb]. destruct b as [|b1 b]; [done|].
           rewrite fmap_cons in Hb.
           injection Hb as Hb1 Hb. f_equal. f_equal.
           ++ apply (inj Some). rewrite <- (Byte.of_to_N b1), Hb1, <- Hb0.
              by rewrite Byte.of_to_N.
           ++ assert (Ok r = Ok b :> result exn _) as [= ->]; [|done].
              by apply IH.
      * split; [done|]. intros [[_ Hall]%Forall_cons Hb].
        destruct b as [|b1 b]; [done|]. rewrite fmap_cons in Hb.
        injection Hb as _ Hb.
        assert (Raise e = Ok b :> result exn _) as Hok by (by apply IH).
        done.
    + split; [done|]. intros [[Hlt _]%Forall_cons _].
      apply (encode_char_is_Some enc) in Hlt as [? ?]. congruence.
Qed.

Lemma encode_strict_Raise enc u e :
  encode enc Strict u = Raise e → e = UnicodeEncodeError.
Proof.
  induction u as [|c u IH]; simpl; [done|].
  destruct (encode_char enc c); [|by intros [= <-]].
  destruct (encode enc Strict u); simpl; [done|].
  intros [= <-]. by apply IH.
Qed.

Lemma encode_strict_total enc u :
  Forall (λ c, (c < limit enc)%N) u → ∃ b, encode enc Strict u = Ok b.
Proof.
  induction 1 as [|c u Hc _ [b IH]]; simpl; [by exists []|].
  destruct (encode_char_is_Some enc c Hc) as [b0 ->].
  rewrite IH. simpl. by eexists.
Qed.

(** Decoding bytes that all stand for a code point of the codec gives
    these code points, whatever the error handler. *)
Lemma decode_below enc err b :
  Forall (λ c, (c < limit enc)%N) (Byte.to_N <$> b) →
  decode enc err b = Ok (Byte.to_N <$> b).
Proof.
  induction b as [|b0 b IH]; [done|]. rewrite fmap_cons.
  intros [Hlt Hall]%Forall_cons. cbn [decode].
  assert (decode_byte enc b0 = Some (Byte.to_N b0)) as ->.
  { by apply decode_byte_Some. }
  by rewrite IH.
Qed.

Lemma decode_latin1 err b :
  decode EncLatin1 err b = Ok (Byte.to_N <$> b).
Proof.
  apply decode_below, Forall_fmap, Forall_forall. intros b0 _. simpl.
  apply to_N_lt_256.
Qed.

Lemma encode_to_N enc err b :
  Forall (λ c, (c < limit enc)%N) (Byte.to_N <$> b) →
  encode enc err (Byte.to_N <$> b) = Ok b.
Proof.
  induction b as [|b0 b IH]; [done|]. rewrite fmap_cons.
  intros [Hlt Hall]%Forall_cons. cbn [encode].
  assert (encode_char enc (Byte.to_N b0) = Some b0) as ->.
  { by apply encode_char_Some. }
  by rewrite IH.
Qed.

(** X12: Bytes to text and back: with the Latin-1 codec [text_] returns for
    every [bytes], one character per byte, and [bytes_] of what it
    returns is the [bytes] it was given, whatever the error handlers; so
    [dumps(loads(b))] of [SimpleSerializer] is [b]. *)
Theorem text_then_bytes_latin1 b e1 e2 :
  text_ (Bytes b) EncLatin1 e1 = Ok (Str (Byte.to_N <$> b)) ∧
  (s ← text_ (Bytes b) EncLatin1 e1; bytes_ s EncLatin1 e2) = Ok (Bytes b) ∧
  (s ← SimpleSerializer.loads (Bytes b); SimpleSerializer.dumps s)
    = Ok (Bytes b).
Proof.
  assert (∀ e1 e2, (s ← text_ (Bytes b) EncLatin1 e1; bytes_ s EncLatin1 e2)
                   = Ok (Bytes b)) as H.
  { intros e e'. simpl. rewrite decode_latin1. simpl.
    rewrite encode_to_N; [done|].
    apply Forall_fmap, Forall_forall. intros b0 _. apply to_N_lt_256. }
  split_and!; [|apply H|apply H].
  simpl. by rewrite decode_latin1.
Qed.

(** X13: Text to bytes and back, with the strict error handler: [bytes_]
    returns exactly when every code point is below the limit of the codec
    (256 for Latin-1, 128 for ASCII), with one byte per character, and
    [text_] of these bytes is the text again; otherwise [bytes_] raises
    [UnicodeEncodeError]. *)
Theorem bytes_then_text_strict enc u :
  (Forall (λ c, (c < limit enc)%N) u →
   ∃ b, bytes_ (Str u) enc Strict = Ok (Bytes b) ∧
        length b = length u ∧
        ∀ e, text_ (Bytes b) enc e = Ok (Str u)) ∧
  (¬ Forall (λ c, (c < limit enc)%N) u →
   bytes_ (Str u) enc Strict = Raise UnicodeEncodeError) ∧
  (∀ r, bytes_ (Str u) enc Strict = Ok r →
        ∀ e, text_ r enc e = Ok (Str u)).
Proof.
  split_and!.
  - intros Hall. destruct (encode_strict_total enc u Hall) as [b Hb].
    exists b. simpl. rewrite Hb. split; [done|].
    apply encode_strict_Ok in Hb as [_ <-].
    split; [by rewrite length_fmap|].
    intros e. by rewrite decode_below.
  - intros Hall. simpl.
    destruct (encode enc Strict u) as [b|e] eqn:Hb; simpl.
    + by apply encode_strict_Ok in Hb as [? _].
    + by rewrite (encode_strict_Raise _ _ _ Hb).
  - intros r. simpl.
    destruct (encode enc Strict u) as [b|e] eqn:Hb; simpl; [|done].
    intros [= <-] e. apply encode_strict_Ok in Hb as [Hall <-].
    simpl. by rewrite decode_below.
Qed.

Lemma ascii_str_Ok u :
  Forall (λ c, (c < 128)%N) u → ascii_ (Str u) = Ok (Str u).
Proof.
  intros Hall. unfold ascii_.
  destruct (encode_strict_total EncAscii u Hall) as [b Hb]. rewrite Hb.
  simpl. apply encode_strict_Ok in Hb as [_ <-]. by rewrite decode_below.
Qed.

Lemma ascii_str_Raise u :
  ¬ Forall (λ c, (c < 128)%N) u → ascii_ (Str u) = Raise UnicodeEncodeError.
Proof.
  intros Hall. unfold ascii_.
  destruct (encode EncAscii Strict u) as [b|e] eqn:Hb; simpl.
  - by apply encode_strict_Ok in Hb as [? _].
  - by rewrite (encode_strict_Raise _ _ _ Hb).
Qed.

Lemma ascii_bytes_Ok b :
  Forall (λ c, (c < 128)%N) (Byte.to_N <$> b) →
  ascii_ (Bytes b) = Ok (Str (Byte.to_N <$> b)).
Proof. intros Hall. unfold ascii_. simpl. by rewrite decode_below. Qed.

Lemma ascii_bytes_Raise b :
  ¬ Forall (λ c, (c < 128)%N) (Byte.to_N <$> b) →
  ascii_ (Bytes b) = Raise UnicodeDecodeError.
Proof.
  intros Hall. unfold ascii_. simpl.
  induction b as [|b0 b IH]; simpl; [by destruct Hall|].
  destruct (decode_byte EncAscii b0) as [c|] eqn:Hc; [|done].
  apply decode_byte_Some in Hc as [Hlt <-].
  rewrite fmap_cons, Forall_cons in Hall.
  assert (¬ Forall (λ c, (c < 128)%N) (Byte.to_N <$> b)) as Hb by tauto.
  specialize (IH Hb).
  destruct (decode EncAscii Strict b) as [r|e]; simpl in *; congruence.
Qed.


(** X15: [get_callable_name] returns an ASCII name as a [str] and turns the
    two Unicode errors of [ascii_] into [ConfigurationError] with the
    name it was given: no Unicode error gets out. *)
Theorem get_callable_name_checks_ascii :
  (∀ u, Forall (λ c, (c < 128)%N) u →
        get_callable_name (Str u) = Ok (Str u)) ∧
  (∀ u, ¬ Forall (λ c, (c < 128)%N) u →
        get_callable_name (Str u) = Raise (ConfigurationError (Str u))) ∧
  (∀ b, ¬ Forall (λ c, (c < 128)%N) (Byte.to_N <$> b) →
        get_callable_name (Bytes b) = Raise (ConfigurationError (Bytes b))) ∧
  (∀ name r, get_callable_name name = Ok r → ascii_ name = Ok r) ∧
  (∀ name e, get_callable_name name = Raise e →
             e = TypeError ∨ e = ConfigurationError name).
Proof.
  split_and!.
  - intros u Hall. unfold get_callable_name. by rewrite ascii_str_Ok.
  - intros u Hall. unfold get_callable_name. by rewrite ascii_str_Raise.
  - intros b Hall. unfold get_callable_name. by rewrite ascii_bytes_Raise.
  - intros name r. unfold get_callable_name.
    by destruct (ascii_ name) as [?|[]].
  - intros name e. unfold get_callable_name.
    destruct name as [u|b|o].
    + destruct (decide (Forall (λ c, (c < 128)%N) u)) as [Hall|Hall].
      * by rewrite ascii_str_Ok.
      * rewrite ascii_str_Raise by done. intros [= <-]. by right.
    + destruct (decide (Forall (λ c, (c < 128)%N) (Byte.to_N <$> b)))
        as [Hall|Hall].
      * by rewrite ascii_bytes_Ok.
      * rewrite ascii_bytes_Raise by done. intros [= <-]. by right.
    + intros [= <-]. by left.
Qed.

(** *** [strings_differ] *)

Lemma compare_digest_Ok a b c :
  compare_digest a b = Ok c → c = bool_decide (a = b).
Proof.
  destruct a as [u|u|?], b as [v|v|?]; simpl; try done.
  - destruct (is_ascii u && is_ascii v); [|done]. intros [= <-].
    apply bool_decide_ext. split; [by intros ->|by intros [= ->]].
  - intros [= <-].
    apply bool_decide_ext. split; [by intros ->|by intros [= ->]].
Qed.

Lemma len_eq_of_eq a b l1 l2 :
  len a = Ok l1 → len b = Ok l2 → a = b → l1 = l2.
Proof. intros H1 H2 ->. congruence. Qed.

(** X16: [strings_differ] returns [True] exactly when the two strings differ:
    on two [bytes] it always returns, and whenever it returns on other
    arguments the answer is the same as that of [!=]. *)
Theorem strings_differ_iff_different :
  (∀ x y, strings_differ (Bytes x) (Bytes y) = Ok (bool_decide (x ≠ y))) ∧
  (∀ a b d, strings_differ a b = Ok d → (d = true ↔ a ≠ b)).
Proof.
  split.
  - intros x y. unfold strings_differ. simpl.
    destruct (bool_decide (length x = length y)) eqn:Hlen; simpl; f_equal.
    + destruct (decide (x = y)) as [->|Hxy].
      * rewrite (bool_decide_eq_true_2 (y = y)) by done. simpl.
        symmetry. apply bool_decide_eq_false_2. naive_solver.
      * rewrite (bool_decide_eq_false_2 (x = y)) by done. simpl.
        symmetry. by apply bool_decide_eq_true_2.
    + apply bool_decide_eq_false in Hlen.
      rewrite (bool_decide_eq_true_2 (y = y)) by done. simpl.
      symmetry. apply bool_decide_eq_true_2. congruence.
  - intros a b d. unfold strings_differ.
    destruct (len a) as [l1|] eqn:H1; [|done]. simpl.
    destruct (len b) as [l2|] eqn:H2; [|done]. simpl.
    destruct (bool_decide (l1 = l2)) eqn:Hlen.
    + destruct (compare_digest a b) as [c|] eqn:Hc; [|done]. simpl.
      apply compare_digest_Ok in Hc as ->. intros [= <-].
      destruct (decide (a = b)) as [->|Hab].
      * rewrite (bool_decide_eq_true_2 (b = b)) by done. simpl. naive_solver.
      * rewrite (bool_decide_eq_false_2 (a = b)) by done. simpl. naive_solver.
    + apply bool_decide_eq_false in Hlen.
      destruct (compare_digest b b) as [c|] eqn:Hc; [|done]. simpl.
      apply compare_digest_Ok in Hc as ->. intros [= <-].
      rewrite (bool_decide_eq_true_2 (b = b)) by done. simpl.
      split; [|done]. intros _ ->. congruence.
Qed.

(** *** [as_sorted_tuple] *)

Section AsSortedTuple.
Context {A : Type} (R : relation A) `{!RelDecision R}.
Context `{!Total R, !Transitive R, !AntiSymm (=) R}.

(** X17: For elements that [<] orders totally, [as_sorted_tuple] puts one
    value in a tuple of its own and returns the elements of an iterable
    in ascending order, each as often as it was given; the result depends
    on the elements only, not on the order they were given in, and
    sorting it again changes nothing. *)
Theorem as_sorted_tuple_canonical :
  (∀ x, as_sorted_tuple R (Single x) = [x]) ∧
  (∀ vs, Sorted R (as_sorted_tuple R (Iterable vs)) ∧
         as_sorted_tuple R (Iterable vs) ≡ₚ vs) ∧
  (∀ vs ws, vs ≡ₚ ws →
            as_sorted_tuple R (Iterable vs) = as_sorted_tuple R (Iterable ws)) ∧
  (∀ v, as_sorted_tuple R (Iterable (as_sorted_tuple R v)) =
        as_sorted_tuple R v).
Proof.
  assert (∀ vs ws, vs ≡ₚ ws → merge_sort R vs = merge_sort R ws) as Hcanon.
  { intros vs ws Hp. apply (Sorted_unique R).
    - by apply Sorted_merge_sort.
    - by apply Sorted_merge_sort.
    - by rewrite !merge_sort_Permutation. }
  split_and!.
  - done.
  - intros vs. split; [by apply Sorted_merge_sort|].
    apply merge_sort_Permutation.
  - intros vs ws. apply Hcanon.
  - intros v. unfold as_sorted_tuple at 1. apply Hcanon.
    unfold as_sorted_tuple. apply merge_sort_Permutation.
Qed.

End AsSortedTuple.

Lemma as_sorted_tuple_canonical_witness :
  Total String.le ∧ Transitive String.le ∧ AntiSymm (=) String.le ∧
  (∀ x, as_sorted_tuple String.le (Single x) = [x]) ∧
  (∀ vs, Sorted String.le (as_sorted_tuple String.le (Iterable vs)) ∧
         as_sorted_tuple String.le (Iterable vs) ≡ₚ vs) ∧
  (∀ vs ws, vs ≡ₚ ws →
            as_sorted_tuple String.le (Iterable vs) =
            as_sorted_tuple String.le (Iterable ws)) ∧
  (∀ v, as_sorted_tuple String.le (Iterable (as_sorted_tuple String.le v)) =
        as_sorted_tuple String.le v).
Proof.
  split; [exact String.le_total|].
  split; [exact (@PreOrder_Transitive _ _ (@partial_order_pre _ _ String.le_po))|].
  split; [exact (@partial_order_anti_symm _ _ String.le_po)|].
  exact (@as_sorted_tuple_canonical string String.le _ String.le_total
           (@PreOrder_Transitive _ _ (@partial_order_pre _ _ String.le_po))
           (@partial_order_anti_symm _ _ String.le_po)).
Defined.

(** *** [shortrepr] *)

Lemma string_length_app (s1 s2 : string) :
  String.length (s1 +:+ s2) = String.length s1 + String.length s2.
Proof. induction s1 as [|c s1 IH]; simpl; [done|]. by rewrite IH. Qed.

Lemma string_length_substring_0 n (s : string) :
  String.length (String.substring 0 n s) = n `min` String.length s.
Proof.
  revert s. induction n as [|n IH]; intros [|c s]; simpl; try done.
  by rewrite IH.
Qed.

Lemma string_substring_0_prefix n (s : string) :
  ∃ rest, s = String.substring 0 n s +:+ rest.
Proof.
  revert s. induction n as [|n IH]; intros [|c s]; simpl.
  - by exists "".
  - by eexists.
  - by exists "".
  - destruct (IH s) as [rest Hrest]. exists rest.
    change (String c s = String c (String.substring 0 n s +:+ rest)).
    by f_equal.
Qed.

(** X18: [shortrepr] returns a text of at most 100 characters as it is; of a
    longer one it keeps the first 100 characters and appends [" ... "] and
    the closer, so the result has 105 characters and the closer, which is
    more than it was given when that had fewer. *)
Theorem shortrepr_length (object closer : string) :
  (String.length object ≤ 100 → shortrepr object closer = object) ∧
  (100 < String.length object →
   shortrepr object closer =
     String.substring 0 100 object +:+ " ... " +:+ closer ∧
   (∃ rest, object = String.substring 0 100 object +:+ rest) ∧
   String.length (shortrepr object closer) = 105 + String.length closer) ∧
  String.length (shortrepr object closer) ≤ 105 + String.length closer.
Proof.
  unfold shortrepr.
  destruct (decide (100 < String.length object)) as [Hlong|Hshort].
  - assert (String.length (String.substring 0 100 object +:+ " ... " +:+ closer)
            = 105 + String.length closer) as Hlen.
    { rewrite !string_length_app, string_length_substring_0.
      change (String.length " ... ") with 5. lia. }
    split_and!.
    + lia.
    + intros _. split_and!; [done|apply string_substring_0_prefix|done].
    + lia.
  - split_and!; [done|lia|lia].
Qed.

(** *** [hide_attrs] *)

Section HideAttrs.
Context {V : Type}.
Implicit Types (d : gmap string V) (attrs : list string) (name : string).

Lemma filter_eq_absent (a : string) (l : list string) :
  a ∉ l → filter (λ x, x = a) l = [].
Proof.
  induction l as [|z l IH]; [done|].
  intros [Hz Hl]%not_elem_of_cons.
  rewrite filter_cons_False by done. by apply IH.
Qed.

Lemma hide_snoc d attrs a :
  hide d (attrs ++ [a]) =
    (delete a (hide d attrs).1, <[a := (hide d attrs).1 !! a]> (hide d attrs).2).
Proof.
  unfold hide. rewrite foldl_app. simpl. by destruct (foldl _ _ _).
Qed.

(** After the first loop the named attributes are gone and the others are
    untouched; what was saved for a name is the value the object had,
    unless the name is listed twice or more: the second [pop] finds
    nothing and its [_marker] replaces the value. *)
Lemma hide_spec d attrs :
  (∀ name, (hide d attrs).1 !! name =
           if decide (name ∈ attrs) then None else d !! name) ∧
  (∀ name, (hide d attrs).2 !! name =
           if decide (name ∈ attrs)
           then Some (if decide (length (filter (λ a, a = name) attrs) = 1)
                      then d !! name else None)
           else None).
Proof.
  induction attrs as [|a attrs [IH1 IH2]] using rev_ind.
  { split; intros name; simpl; [done|by rewrite lookup_empty]. }
  rewrite hide_snoc. split; intros name; simpl.
  - destruct (decide (name = a)) as [->|Hne].
    + rewrite lookup_delete_eq. rewrite decide_True; [done|].
      rewrite elem_of_app, list_elem_of_singleton. by right.
    + rewrite lookup_delete_ne by done. rewrite IH1.
      destruct (decide (name ∈ attrs)) as [Hin|Hin].
      * rewrite decide_True; [done|]. rewrite elem_of_app. by left.
      * rewrite decide_False; [done|].
        rewrite elem_of_app, list_elem_of_singleton. naive_solver.
  - rewrite filter_app, length_app.
    destruct (decide (name = a)) as [->|Hne].
    + rewrite lookup_insert_eq, IH1. rewrite (decide_True (P := a ∈ attrs ++ [a])).
      2:{ rewrite elem_of_app, list_elem_of_singleton. by right. }
      f_equal. rewrite filter_cons_True, filter_nil by done. simpl.
      destruct (decide (a ∈ attrs)) as [Hin|Hin].
      * rewrite decide_False; [done|].
        assert (a ∈ filter (λ a0, a0 = a) attrs) as Hf
          by (by apply list_elem_of_filter).
        destruct (filter _ attrs); [by apply elem_of_nil in Hf|]. simpl. lia.
      * rewrite decide_True; [done|].
        by rewrite (filter_eq_absent a attrs Hin).
    + rewrite lookup_insert_ne by done. rewrite IH2.
      rewrite filter_cons_False, filter_nil by done. simpl.
      rewrite Nat.add_0_r.
      destruct (decide (name ∈ attrs)) as [Hin|Hin].
      * rewrite (decide_True (P := name ∈ attrs ++ [a])); [done|].
        rewrite elem_of_app. by left.
      * rewrite (decide_False (P := name ∈ attrs ++ [a])); [done|].
        rewrite elem_of_app, list_elem_of_singleton. naive_solver.
Qed.

Lemma restore_spec (saved : gmap string (option V)) attrs : ∀ d0,
  (∀ name, name ∈ attrs → is_Some (saved !! name)) →
  ∃ d', restore saved attrs d0 = Ok d' ∧
        ∀ name, d' !! name = if decide (name ∈ attrs)
                             then default None (saved !! name)
                             else d0 !! name.
Proof.
  induction attrs as [|a attrs IH]; intros d0 Hsaved.
  { exists d0. split; [done|]. intros name.
    destruct (decide (name ∈ [])) as [?%elem_of_nil|]; done. }
  assert (∀ d1 sv, saved !! a = Some sv → d1 !! a = sv →
                   (∀ name, name ≠ a → d1 !! name = d0 !! name) →
                   ∃ d', restore saved attrs d1 = Ok d' ∧
                         ∀ name, d' !! name =
                                 if decide (name ∈ a :: attrs)
                                 then default None (saved !! name)
                                 else d0 !! name) as Hstep.
  { intros d1 sv Hsv Ha Hother.
    destruct (IH d1) as (d' & Hd' & Hlook).
    { intros name Hin. apply Hsaved. by right. }
    exists d'. split; [done|]. intros name. rewrite Hlook.
    destruct (decide (name ∈ attrs)) as [Hin|Hin].
    - rewrite decide_True; [done|by right].
    - destruct (decide (name = a)) as [->|Hne].
      + rewrite decide_True by left. by rewrite Hsv, Ha.
      + rewrite decide_False; [by apply Hother|].
        rewrite elem_of_cons. naive_solver. }
  destruct (Hsaved a) as [sv Hsv]; [left|]. simpl. rewrite Hsv.
  destruct sv as [v|].
  - apply (Hstep _ (Some v)); [done|by rewrite lookup_insert_eq|].
    intros name Hne. by rewrite lookup_insert_ne.
  - destruct (decide (is_Some (d0 !! a))) as [Hs|Hs].
    + apply (Hstep _ None); [done|by rewrite lookup_delete_eq|].
      intros name Hne. by rewrite lookup_delete_ne.
    + apply (Hstep _ None); [done|by apply eq_None_not_Some|done].
Qed.

Lemma hide_attrs_spec d attrs (body : gmap string V → gmap string V) :
  ∃ d', hide_attrs d attrs body = Ok d' ∧
        ∀ name, d' !! name =
                if decide (name ∈ attrs)
                then (if decide (length (filter (λ a, a = name) attrs) = 1)
                      then d !! name else None)
                else body (hide d attrs).1 !! name.
Proof.
  unfold hide_attrs. destruct (hide_spec d attrs) as [_ Hsaved].
  destruct (hide d attrs) as [hidden saved] eqn:Hh. simpl in *.
  destruct (restore_spec saved attrs (body hidden)) as (d' & Hd' & Hlook).
  { intros name Hin. rewrite Hsaved. by rewrite decide_True. }
  exists d'. split; [done|]. intros name. rewrite Hlook, Hsaved.
  by destruct (decide (name ∈ attrs)).
Qed.

Lemma filter_eq_NoDup (a : string) (l : list string) :
  NoDup l → a ∈ l → length (filter (λ x, x = a) l) = 1.
Proof.
  induction 1 as [|z l Hz Hnd IH]; [by intros ?%elem_of_nil|].
  intros [->|Hin]%elem_of_cons.
  - rewrite filter_cons_True by done. by rewrite filter_eq_absent.
  - rewrite filter_cons_False; [by apply IH|]. by intros ->.
Qed.

(** X19: With each attribute named once, [hide_attrs] never raises: inside the
    [with] block the named attributes are absent and the others are
    untouched; afterwards each named attribute has the value it had
    before, or is absent if it was, whatever the block did to it, and the
    other attributes are as the block left them.  A block that changes
    nothing leaves the object as it was. *)
Theorem hide_attrs_restores d attrs (body : gmap string V → gmap string V) :
  NoDup attrs →
  (∀ name, (hide d attrs).1 !! name =
           if decide (name ∈ attrs) then None else d !! name) ∧
  (∃ d', hide_attrs d attrs body = Ok d' ∧
         (∀ name, name ∈ attrs → d' !! name = d !! name) ∧
         (∀ name, name ∉ attrs →
                  d' !! name = body (hide d attrs).1 !! name)) ∧
  hide_attrs d attrs (λ obj_vals, obj_vals) = Ok d.
Proof.
  intros Hnd. destruct (hide_spec d attrs) as [Hhidden _].
  split_and!; [done| |].
  - destruct (hide_attrs_spec d attrs body) as (d' & Hd' & Hlook).
    exists d'. split_and!; [done| |].
    + intros name Hin. rewrite Hlook, decide_True by done.
      by rewrite decide_True by (by apply filter_eq_NoDup).
    + intros name Hin. by rewrite Hlook, decide_False.
  - destruct (hide_attrs_spec d attrs (λ x, x)) as (d' & Hd' & Hlook).
    rewrite Hd'. f_equal. apply map_eq. intros name.
    rewrite Hlook, Hhidden.
    destruct (decide (name ∈ attrs)); [|done].
    by rewrite decide_True by (by apply filter_eq_NoDup).
Qed.

(** X20: An attribute named twice or more is not restored: after the [with]
    block the object no longer has it, whatever value it had. *)
Theorem hide_attrs_named_twice d attrs (body : gmap string V → gmap string V)
    name :
  2 ≤ length (filter (λ a, a = name) attrs) →
  ∃ d', hide_attrs d attrs body = Ok d' ∧ d' !! name = None.
Proof.
  intros Htwice.
  destruct (hide_attrs_spec d attrs body) as (d' & Hd' & Hlook).
  exists d'. split; [done|]. rewrite Hlook.
  assert (name ∈ attrs) as Hin.
  { destruct (filter _ attrs) as [|z l] eqn:Hf; [simpl in Htwice; lia|].
    assert (z ∈ filter (λ a, a = name) attrs) as [-> ?]%list_elem_of_filter
      by (rewrite Hf; left).
    done. }
  rewrite decide_True by done. rewrite decide_False; [done|lia].
Qed.

End HideAttrs.

Lemma hide_attrs_restores_witness :
  let d : gmap string nat := {[ "request" := 1; "registry" := 2 ]} in
  let attrs := ["request"; "context"] in
  let body := λ obj_vals : gmap string nat, <["request" := 7]> obj_vals in
  NoDup attrs ∧
  (∀ name, (hide d attrs).1 !! name =
           if decide (name ∈ attrs) then None else d !! name) ∧
  (∃ d', hide_attrs d attrs body = Ok d' ∧
         (∀ name, name ∈ attrs → d' !! name = d !! name) ∧
         (∀ name, name ∉ attrs →
                  d' !! name = body (hide d attrs).1 !! name)) ∧
  hide_attrs d attrs (λ obj_vals, obj_vals) = Ok d.
Proof.
  intros d attrs body.
  assert (NoDup attrs) as Hnd
    by (apply (bool_decide_unpack _); vm_compute; exact I).
  split; [exact Hnd|].
  exact (hide_attrs_restores d attrs body Hnd).
Defined.

Lemma hide_attrs_named_twice_witness :
  let d : gmap string nat := {[ "request" := 1 ]} in
  let attrs := ["request"; "request"] in
  let body := λ obj_vals : gmap string nat, obj_vals in
  2 ≤ length (filter (λ a, a = "request") attrs) ∧
  ∃ d', hide_attrs d attrs body = Ok d' ∧ d' !! "request" = None.
Proof.
  intros d attrs body.
  assert (2 ≤ length (filter (λ a, a = "request") attrs)) as Htwice
    by (apply (bool_decide_unpack _); vm_compute; exact I).
  split; [exact Htwice|].
  exact (hide_attrs_named_twice d attrs body "request" Htwice).
Defined.

(** *** [is_same_domain] *)

Lemma list_ascii_of_string_app (s1 s2 : string) :
  String.list_ascii_of_string (s1 +:+ s2) =
    String.list_ascii_of_string s1 ++ String.list_ascii_of_string s2.
Proof.
  induction s1 as [|c s1 IH]; [done|].
  change (String c s1 +:+ s2) with (String c (s1 +:+ s2)).
  simpl. by rewrite IH.
Qed.

Lemma list_ascii_of_string_inj (s1 s2 : string) :
  String.list_ascii_of_string s1 = String.list_ascii_of_string s2 → s1 = s2.
Proof.
  intros H. rewrite <- (String.string_of_list_ascii_of_string s1).
  rewrite <- (String.string_of_list_ascii_of_string s2). by rewrite H.
Qed.

(** [s.endswith(p)] holds when [s] is [p] with something in front. *)
Lemma endswith_iff (s p : string) :
  endswith s p = true ↔ ∃ pre, s = pre +:+ p.
Proof.
  unfold endswith. rewrite bool_decide_eq_true. split.
  - intros [k Hk]. exists (String.string_of_list_ascii k).
    apply list_ascii_of_string_inj.
    by rewrite list_ascii_of_string_app,
      String.list_ascii_of_string_of_list_ascii.
  - intros [pre ->]. exists (String.list_ascii_of_string pre).
    apply list_ascii_of_string_app.
Qed.

Lemma lower_char_dot c : lower_char c = "."%char ↔ c = "."%char.
Proof.
  destruct c as [[] [] [] [] [] [] [] []]; vm_compute; split; congruence.
Qed.

Lemma lower_char_idemp c : lower_char (lower_char c) = lower_char c.
Proof. by destruct c as [[] [] [] [] [] [] [] []]. Qed.

Lemma lower_idemp s : lower (lower s) = lower s.
Proof.
  induction s as [|c s IH]; [done|]. simpl. by rewrite lower_char_idemp, IH.
Qed.

Lemma lower_nonempty s : lower s = "" ↔ s = "".
Proof. by destruct s. Qed.

(** X21: A pattern matches after it is put in lower case: an exact match, or,
    for a pattern that is a period and a domain, the domain itself and
    every host that ends with the period and the domain.  The empty
    pattern matches nothing, and the host is compared as it is given. *)
Theorem is_same_domain_matches host pattern :
  (is_same_domain host pattern = true ↔
     pattern ≠ "" ∧
     (host = lower pattern ∨
      ∃ d, pattern = "." +:+ d ∧
           (host = lower d ∨ ∃ sub, host = sub +:+ "." +:+ lower d))) ∧
  is_same_domain host "" = false ∧
  is_same_domain host (lower pattern) = is_same_domain host pattern.
Proof.
  assert (∀ p, is_same_domain host p = true ↔
            p ≠ "" ∧
            (host = lower p ∨
             ∃ d, p = "." +:+ d ∧
                  (host = lower d ∨ ∃ sub, host = sub +:+ "." +:+ lower d)))
    as Hiff.
  { intros p. unfold is_same_domain.
    destruct (decide (p = "")) as [->|Hne]; [naive_solver|].
    rewrite orb_true_iff, andb_true_iff, orb_true_iff.
    rewrite !bool_decide_eq_true, endswith_iff.
    destruct p as [|c d]; [done|]. simpl.
    split.
    - intros [[[= Hc] Hm]|Heq]; [|by auto].
      apply (proj1 (lower_char_dot c)) in Hc. subst c.
      split; [done|]. right. exists d. split; [done|].
      destruct Hm as [[pre ->]| ->]; [|by left].
      right. by exists pre.
    - intros [_ [->|(d' & [= -> ->] & Hm)]]; [by right|].
      left. split; [done|].
      destruct Hm as [->|[sub ->]]; [by right|].
      left. by exists sub. }
  split_and!; [apply Hiff|done|].
  apply eq_true_iff_eq. rewrite !Hiff, lower_idemp, lower_nonempty.
  split.
  - intros [Hne [->|(d & Hd & Hm)]]; (split; [done|]); [by left|].
    right. destruct pattern as [|c p]; [done|]. simpl in Hd.
    change ("." +:+ d) with (String "." d) in Hd.
    injection Hd as Hc Hd. apply (proj1 (lower_char_dot c)) in Hc.
    subst c d. exists p. split; [done|]. by rewrite lower_idemp in Hm.
  - intros [Hne [->|(d & -> & Hm)]]; (split; [done|]); [by left|].
    right. exists (lower d). split; [done|]. by rewrite lower_idemp.
Qed.

End UtilFacts.

(** ** The route prefix: properties *)

Module RoutesFacts.
Import Routes.

Lemma string_app_assoc (s1 s2 s3 : string) :
  (s1 +:+ s2) +:+ s3 = s1 +:+ s2 +:+ s3.
Proof.
  induction s1 as [|a s1 IH]; [done|].
  change (String a ((s1 +:+ s2) +:+ s3) = String a (s1 +:+ s2 +:+ s3)).
  by rewrite IH.
Qed.

Lemma string_app_nonempty (s1 : string) a s2 : s1 +:+ String a s2 ≠ "".
Proof. by destruct s1. Qed.

(** What [lstrip] returns does not start with the character, and it is
    the end of the string it was given. *)
Lemma lstrip_head c s rest : lstrip c s ≠ String c rest.
Proof.
  induction s as [|a s IH]; [done|]. simpl.
  destruct (decide (a = c)) as [->|Hne]; [done|]. by intros [= ?].
Qed.

Lemma lstrip_suffix c s : ∃ pre, s = pre +:+ lstrip c s.
Proof.
  induction s as [|a s [pre IH]]; [by exists ""|]. simpl.
  destruct (decide (a = c)) as [->|Hne]; [|by exists ""].
  exists (String c pre).
  change (String c s = String c (pre +:+ lstrip c s)). by f_equal.
Qed.

(** What [rstrip] returns does not end with the character. *)
Lemma rstrip_last c s : ∀ pre, rstrip c s ≠ pre +:+ String c "".
Proof.
  induction s as [|a s IH]; intros pre; simpl.
  { intros H. symmetry in H. by apply string_app_nonempty in H. }
  destruct (rstrip c s) as [|b r] eqn:Hr.
  - destruct (decide (a = c)) as [->|Hne].
    + intros H. symmetry in H. by apply string_app_nonempty in H.
    + destruct pre as [|a' pre]; [by intros [= ?]|].
      change (String a "" ≠ String a' (pre +:+ String c "")).
      intros [= _ H]. symmetry in H. by apply string_app_nonempty in H.
  - destruct pre as [|a' pre]; [by intros [= ?]|].
    change (String a (String b r) ≠ String a' (pre +:+ String c "")).
    intros [= _ H]. by apply (IH pre).
Qed.

Lemma rstrip_id c s : (∀ pre, s ≠ pre +:+ String c "") → rstrip c s = s.
Proof.
  induction s as [|a s IH]; [done|]. intros Hlast. simpl.
  destruct s as [|b s].
  - simpl. destruct (decide (a = c)) as [->|Hne]; [|done].
    by destruct (Hlast "").
  - rewrite IH; [done|]. intros pre Heq. apply (Hlast (String a pre)).
    change (String a (String b s) = String a (pre +:+ String c "")).
    by f_equal.
Qed.

Lemma strip_ends c s :
  (∀ rest, strip c s ≠ String c rest) ∧
  (∀ pre, strip c s ≠ pre +:+ String c "").
Proof.
  unfold strip. split; [intros rest; apply lstrip_head|].
  intros pre Heq. destruct (lstrip_suffix c (rstrip c s)) as [pre' Hs].
  rewrite Heq, <- string_app_assoc in Hs. by apply rstrip_last in Hs.
Qed.

Lemma entered_Some self_route_prefix route_prefix q :
  entered self_route_prefix route_prefix = Some q →
  q ≠ "" ∧ (∀ rest, q ≠ String "/" rest) ∧ (∀ pre, q ≠ pre +:+ "/").
Proof.
  unfold entered. destruct (decide _) as [|Hne]; [done|].
  intros [= <-]. split; [done|]. apply strip_ends.
Qed.

Lemma lstrip_rstrip c s : lstrip c (rstrip c s) = rstrip c (lstrip c s).
Proof.
  induction s as [|a s IH]; [done|].
  cbn [lstrip]. destruct (decide (a = c)) as [->|Hne].
  - rewrite <- IH. cbn [rstrip]. destruct (rstrip c s) as [|b r]; simpl.
    + by rewrite decide_True.
    + by rewrite decide_True.
  - cbn [rstrip]. destruct (rstrip c s) as [|b r]; simpl.
    + rewrite (decide_False (P := a = c)) by done. simpl.
      by rewrite decide_False.
    + by rewrite decide_False.
Qed.

Lemma strip_slashed c s : strip c (String c (lstrip c s)) = strip c s.
Proof.
  unfold strip. rewrite !lstrip_rstrip. f_equal. simpl.
  rewrite decide_True by done. clear.
  induction s as [|a s IH]; [done|]. simpl.
  destruct (decide (a = c)) as [->|Hne]; [done|]. simpl.
  by rewrite decide_False.
Qed.

(** X22: Inside [route_prefix_context] the prefix is [None] or a text that is
    not empty and neither starts nor ends with a slash, whatever the
    prefix was before and whatever prefix was asked for; with no prefix
    before, it is the argument without its leading and trailing slashes;
    and after the [with] statement the prefix is what it was before,
    whatever the block did. *)
Theorem route_prefix_context_normalises self_route_prefix route_prefix :
  match entered self_route_prefix route_prefix with
  | None => True
  | Some q => q ≠ "" ∧ (∀ rest, q ≠ String "/" rest) ∧ (∀ pre, q ≠ pre +:+ "/")
  end ∧
  entered None route_prefix =
    (if decide (strip "/" (default "" route_prefix) = "") then None
     else Some (strip "/" (default "" route_prefix))) ∧
  (∀ A (body : option string → A * option string),
     (route_prefix_context self_route_prefix route_prefix body).2 =
       self_route_prefix ∧
     (route_prefix_context self_route_prefix route_prefix body).1 =
       (body (entered self_route_prefix route_prefix)).1).
Proof.
  split_and!.
  - destruct (entered _ _) as [q|] eqn:Hq; [|done].
    by apply entered_Some in Hq.
  - unfold entered.
    assert (rstrip "/" (default "" None) +:+ "/" +:+
              lstrip "/" (default "" route_prefix) =
            String "/" (lstrip "/" (default "" route_prefix))) as -> by done.
    by rewrite strip_slashed.
  - intros A body. unfold route_prefix_context.
    by destruct (body _).
Qed.

(** X23: Under a prefix set by [route_prefix_context], [add_route] of a
    pattern that is not an external URL registers the prefix, one slash
    and the pattern without its leading slashes; of the empty pattern
    with [inherit_slash] it registers the prefix itself, which ends with
    no slash. *)
Theorem add_route_under_prefix self_route_prefix route_prefix q pattern path :
  entered self_route_prefix route_prefix = Some q →
  add_route_pattern (Some q) (Some pattern) path false None "" =
    Ok (q +:+ "/" +:+ lstrip "/" pattern) ∧
  add_route_pattern (Some q) (Some "") path true None "" = Ok q ∧
  (pattern ≠ "" →
   add_route_pattern (Some q) (Some pattern) path true None "" =
     Raise InheritSlashWithPattern).
Proof.
  intros (Hne & _ & Hlast)%entered_Some.
  unfold add_route_pattern. simpl.
  rewrite (bool_decide_eq_true_2 (q ≠ "")) by done.
  split_and!.
  - rewrite andb_false_r. by rewrite rstrip_id.
  - done.
  - intros Hp. by rewrite (bool_decide_eq_true_2 (pattern ≠ "")).
Qed.

Lemma add_route_under_prefix_witness :
  entered None (Some "/users/") = Some "users" ∧
  add_route_pattern (Some "users") (Some "/{id}") None false None "" =
    Ok ("users" +:+ "/" +:+ lstrip "/" "/{id}") ∧
  add_route_pattern (Some "users") (Some "") None true None "" = Ok "users" ∧
  ("/{id}" ≠ "" →
   add_route_pattern (Some "users") (Some "/{id}") None true None "" =
     Raise InheritSlashWithPattern).
Proof.
  assert (entered None (Some "/users/") = Some "users") as H
    by (vm_compute; reflexivity).
  split; [exact H|].
  exact (add_route_under_prefix None (Some "/users/") "users" "/{id}" None H).
Defined.

End RoutesFacts.
